(** * pg_control_editor: the control-record codec and the override engine

    A shallow embedding of [pg_control_editor.c].  The program reads
    [global/pg_control] from an input data directory into the static
    [ControlFile] struct, overwrites some of its members from the command
    line, and hands the struct to [update_controlfile] for the output data
    directory.

    The struct is handled the way the C code handles it: as its memory
    image.  [read_controlfile] fills it with [memcpy] and checksums the raw
    bytes, so a [ControlFileData] value is a list of bytes and a member is a
    little window of that list at the member's offset. *)

From Stdlib Require Import ZArith Lia List Bool.
From Stdlib Require Import Strings.Byte Strings.Ascii Strings.String.
From stdpp Require Import base tactics option list gmap strings.

Local Open Scope Z_scope.

(** ** Bytes and machine integers *)

Module Mem.

Definition Z_of_byte (b : byte) : Z := Z.of_N (Byte.to_N b).

Definition byte_of_Z (z : Z) : byte :=
  default x00 (Byte.of_N (Z.to_N (z mod 256))).

(** Least significant byte first. *)
Fixpoint encode_int (n : nat) (v : Z) : list byte :=
  match n with
  | O => []
  | S n' => byte_of_Z v :: encode_int n' (v / 256)
  end.

Fixpoint decode_int (bs : list byte) : Z :=
  match bs with
  | [] => 0
  | b :: bs' => Z_of_byte b + 256 * decode_int bs'
  end.

(** The byte order of the machine the program was compiled for. *)
Definition rev_if_be (big_endian : bool) (bs : list byte) : list byte :=
  if big_endian then rev bs else bs.

(** Reading and writing an [n]-byte unsigned integer at byte offset [off]
    of a memory image.  A write that does not fit in the image cannot
    happen in the program (all writes go to members of a struct); here it
    leaves the bytes out of range alone. *)
Definition load (be : bool) (n off : nat) (img : list byte) : Z :=
  decode_int (rev_if_be be (take n (drop off img))).

Definition store (be : bool) (n off : nat) (v : Z) (img : list byte) : list byte :=
  list_inserts off (rev_if_be be (encode_int n v)) img.

End Mem.

(** ** The checksum *)

Module Crc32c.

(** Modelled from the spec: the macros [INIT_CRC32C], [COMP_CRC32C],
    [FIN_CRC32C] and [EQ_CRC32C] come from PostgreSQL's [port/pg_crc32c.h],
    which is not part of this repository.  The spec calls the checksum a
    32-bit CRC variant; this is CRC-32C (Castagnoli), reflected polynomial
    [0x82F63B78], in its bit-at-a-time form.  Nothing below depends on the
    polynomial: the proofs only use that the checksum is a function of the
    bytes it is computed over and that it fits in 32 bits. *)
Definition poly : Z := 0x82F63B78.

Definition shift_bit (c : Z) : Z :=
  if Z.testbit c 0 then Z.lxor (Z.shiftr c 1) poly else Z.shiftr c 1.

Definition update (crc : Z) (b : byte) : Z :=
  Nat.iter 8 shift_bit (Z.lxor crc (Mem.Z_of_byte b)).

Definition INIT_CRC32C : Z := 0xFFFFFFFF.
Definition COMP_CRC32C (crc : Z) (data : list byte) : Z := fold_left update data crc.
Definition FIN_CRC32C (crc : Z) : Z := Z.lxor crc 0xFFFFFFFF.
Definition EQ_CRC32C (c1 c2 : Z) : bool := c1 =? c2.

Definition crc32c (data : list byte) : Z :=
  FIN_CRC32C (COMP_CRC32C INIT_CRC32C data).

(** The standard check value of CRC-32C, over the ASCII digits 1 to 9. *)
End Crc32c.

(** ** C integer types and the macros of the PostgreSQL headers *)

(** A value converted to [uint32] ([Oid], [TransactionId], [MultiXactId],
    [MultiXactOffset], [TimeLineID], [pg_crc32c]): every assignment of a
    [strtoul] result to one of the [set_*] variables is such a conversion. *)
Definition u32 (v : Z) : Z := v mod 2 ^ 32.

(** [(uint32) -1], the value the program compares against with [== -1]. *)
Definition all_ones : Z := 2 ^ 32 - 1.

(** Modelled from the spec: [InvalidOid] and [InvalidTransactionId] are
    declared in PostgreSQL's [postgres_ext.h] and [access/transam.h]; the spec
    gives zero as the invalid sentinel of both. *)
Definition InvalidOid : Z := 0.
Definition InvalidTransactionId : Z := 0.

(** Modelled from the spec: [FullTransactionIdFromEpochAndXid],
    [EpochFromFullTransactionId] and [XidFromFullTransactionId] are declared
    in PostgreSQL's [access/transam.h]; the spec has the epoch in the high
    32 bits and the transaction id in the low 32 bits of one 64-bit value. *)
Definition FullTransactionIdFromEpochAndXid (epoch xid : Z) : Z :=
  Z.lor (Z.shiftl epoch 32) xid.
Definition EpochFromFullTransactionId (x : Z) : Z := u32 (Z.shiftr x 32).
Definition XidFromFullTransactionId (x : Z) : Z := u32 x.

(** Modelled from the spec: [IsValidWalSegSize] (with [IsPowerOf2],
    [WalSegMinSize] and [WalSegMaxSize]) is declared in PostgreSQL's
    [access/xlog_internal.h]; the spec asks for a power of two between 1 MiB
    and 1 GiB. *)
Definition WalSegMinSize : Z := 1024 * 1024.
Definition WalSegMaxSize : Z := 1024 * 1024 * 1024.
Definition IsPowerOf2 (x : Z) : bool := (0 <? x) && (Z.land x (x - 1) =? 0).
Definition IsValidWalSegSize (size : Z) : bool :=
  IsPowerOf2 size && ((WalSegMinSize <=? size) && (size <=? WalSegMaxSize)).

(** ** The control file struct *)

(** The members of [ControlFileData] (and of its [checkPointCopy]) that the
    program names.  All other members are bytes of the image that the
    program copies and checksums but never interprets. *)
Inductive member : Set :=
  | pg_control_version | crc | xlog_seg_size
  | nextXid | nextOid | nextMulti | nextMultiOffset
  | oldestXid | oldestXidDB | oldestMulti | oldestMultiDB
  | ThisTimeLineID | PrevTimeLineID
  | oldestCommitTsXid | newestCommitTsXid.

#[global] Instance member_eq_dec : EqDecision member.
Proof. solve_decision. Defined.

Definition members : list member :=
  [pg_control_version; crc; xlog_seg_size; nextXid; nextOid; nextMulti;
   nextMultiOffset; oldestXid; oldestXidDB; oldestMulti; oldestMultiDB;
   ThisTimeLineID; PrevTimeLineID; oldestCommitTsXid; newestCommitTsXid].

(** [nextXid] is a [FullTransactionId] (one [uint64]); the others are
    [uint32]. *)
Definition sizeof_member (m : member) : nat :=
  match m with nextXid => 8%nat | _ => 4%nat end.

(** What the PostgreSQL headers and the C compiler fix and this repository
    does not: the layout of the struct ([catalog/pg_control.h]), the byte
    order, and the constants [PG_CONTROL_VERSION], [PG_CONTROL_FILE_SIZE],
    [FirstNormalTransactionId], [FirstMultiXactId] and [XLOG_FNAME_LEN], and
    the function [XLogFromFileName] ([access/xlog_internal.h]), which gives
    the timeline and the segment number of a WAL file name for a segment
    size.  They are parameters of the development. *)
Record Target : Type := {
  big_endian : bool;
  sizeof_ControlFileData : nat;
  offsetof : member -> nat;
  PG_CONTROL_VERSION : Z;
  PG_CONTROL_FILE_SIZE : nat;
  FirstNormalTransactionId : Z;
  FirstMultiXactId : Z;
  XLOG_FNAME_LEN : nat;
  XLogFromFileName : string -> Z -> Z * Z
}.

Definition disjoint_members (T : Target) (m m' : member) : bool :=
  ((offsetof T m + sizeof_member m <=? offsetof T m')%nat
   || (offsetof T m' + sizeof_member m' <=? offsetof T m)%nat).

(** The sanity conditions on a target: the named members lie inside the
    struct and do not overlap, the struct fits in the buffer that
    [read_controlfile] allocates, transaction id 0 is not a normal one, and
    [FirstMultiXactId] is a positive number of at most 31 bits. *)
Definition target_ok (T : Target) : bool :=
  forallb (fun m => (offsetof T m + sizeof_member m <=? sizeof_ControlFileData T)%nat) members
  && forallb (fun m => forallb (fun m' => bool_decide (m = m') || disjoint_members T m m') members) members
  && (sizeof_ControlFileData T <=? PG_CONTROL_FILE_SIZE T)%nat
  && (0 <? FirstNormalTransactionId T)
  && ((0 <? FirstMultiXactId T) && (FirstMultiXactId T <=? 2 ^ 31)).

Definition TransactionIdIsNormal (T : Target) (xid : Z) : bool :=
  FirstNormalTransactionId T <=? xid.

Section ControlFileData.

Variable T : Target.

(** [ControlFile.m] as an rvalue and [ControlFile.m = v]. *)
Definition get (m : member) (cf : list byte) : Z :=
  Mem.load (big_endian T) (sizeof_member m) (offsetof T m) cf.

Definition put (m : member) (v : Z) (cf : list byte) : list byte :=
  Mem.store (big_endian T) (sizeof_member m) (offsetof T m) v cf.

(** The bytes of the image outside member [m]. *)
Definition outside (m : member) (i : nat) : Prop :=
  (i < offsetof T m \/ offsetof T m + sizeof_member m <= i)%nat.

End ControlFileData.

(** ** The command line *)

(** Every way the program stops with [exit(1)]: one constructor per
    [pg_fatal] or [pg_log_error] of the source, named after the error of the
    spec where the spec names one. *)
Inductive error : Set :=
  | ErrInvalidArgument (opt : string)  (* "invalid argument for option %s", a number that does not parse *)
  | ErrInvalidOid                      (* "OID (-o) must not be 0" *)
  | ErrInvalidTransactionId         (* "transaction ID (-x) ...", "(-u) ...", "(-c) ..." *)
  | ErrInvalidMultiTransactionId       (* "multitransaction ID (-m) must not be 0", "oldest ..." *)
  | ErrInvalidOffset                   (* "multitransaction offset (-O) must not be -1" *)
  | ErrInvalidEpoch                    (* "transaction ID epoch (-e) must not be -1" *)
  | ErrInvalidFormat                   (* "invalid argument for option -l" *)
  | ErrInvalidSegmentSize              (* "argument of --wal-segsize must be a power of two ..." *)
  | ErrUnknownOption                   (* the default case of the switch *)
  | ErrTooManyArguments                (* "too many command-line arguments" *)
  | ErrMissingDirectory                (* "Both input/output data directory should be specified." *)
  | ErrCannotOpenControlFile           (* "could not open file ... for reading", "could not read file" *)
  | ErrCannotReadControlFile           (* "Could not read control file from the input directory" *)
  | ErrCannotMakeDirectory             (* "... doesn't exists and cannot mkdir" *)
  | ErrCannotCreateFile                (* "file ... doesn't exists and cannot create" *)
  | ErrCannotWriteControlFile.         (* the failures of update_controlfile *)

(** A computation that may stop the program. *)
Inductive result (A : Type) : Type :=
  | Ok (a : A)
  | Fatal (e : error).
Arguments Ok {A} a.
Arguments Fatal {A} e.

Definition bind {A B : Type} (r : result A) (k : A -> result B) : result B :=
  match r with
  | Ok a => k a
  | Fatal e => Fatal e
  end.

Notation "x <- r ;; k" := (bind r (fun x => k))
  (at level 100, r at next level, right associativity).

(** A directory or file name, as the list of its components. *)
Definition path : Type := list string.

(** The static variables that the option loop fills ([set_oldestmxid] and
    [log_fname] are locals of [main]; [log_fname] is [NULL] until [-l] is
    seen). *)
Record Options : Type := {
  DataDirIn : option path;
  DataDirOut : option path;
  set_oid : Z;
  set_xid : Z;
  set_mxid : Z;
  set_oldestmxid : Z;
  set_mxoff : Z;
  set_oldest_commit_ts_xid : Z;
  set_newest_commit_ts_xid : Z;
  set_oldest_xid : Z;
  set_xid_epoch : Z;
  set_wal_segsize : Z;
  log_fname : option string
}.

(** The initializers of those variables. *)
Definition no_options : Options := {|
  DataDirIn := None;
  DataDirOut := None;
  set_oid := 0;
  set_xid := 0;
  set_mxid := 0;
  set_oldestmxid := 0;
  set_mxoff := all_ones;
  set_oldest_commit_ts_xid := 0;
  set_newest_commit_ts_xid := 0;
  set_oldest_xid := 0;
  set_xid_epoch := all_ones;
  set_wal_segsize := 0;
  log_fname := None
|}.

(** One option as [getopt_long] returns it.  A numeric argument is given as
    what [strtoul] (for [--wal-segsize], [option_parse_int]'s number parser)
    makes of the text: [None] when the text is not one complete number
    ([endptr == optarg], trailing characters, or [errno] set), otherwise the
    [unsigned long] result. *)
Inductive arg : Type :=
  | opt_D (dir : path)
  | opt_d (dir : path)
  | opt_o (v : option Z)
  | opt_x (v : option Z)
  | opt_m (v1 v2 : option Z)
  | opt_O (v : option Z)
  | opt_c (v1 v2 : option Z)
  | opt_e (v : option Z)
  | opt_l (fname : string)
  | opt_u (v : option Z)
  | opt_wal_segsize (mb : option Z)
  | opt_unknown.

Definition number (opt : string) (v : option Z) : result Z :=
  match v with
  | Some n => Ok n
  | None => Fatal (ErrInvalidArgument opt)
  end.

(** [strspn(s, accept)]: the length of the longest prefix of [s] made of
    characters of [accept]. *)
Fixpoint strchr (accept : string) (c : ascii) : bool :=
  match accept with
  | EmptyString => false
  | String a rest => Ascii.eqb a c || strchr rest c
  end.

Fixpoint strspn (s accept : string) : nat :=
  match s with
  | EmptyString => O
  | String c rest => if strchr accept c then S (strspn rest accept) else O
  end.

Definition hex_digits : string := "01234567890ABCDEFabcdef".

Section Options.

Variable T : Target.

(** The body of the [switch] in the option loop, one case per option. *)
Definition handle_option (a : arg) (o : Options) : result Options :=
  match a with
  | opt_D dir =>
      Ok {| DataDirIn := Some dir; DataDirOut := DataDirOut o; set_oid := set_oid o;
            set_xid := set_xid o; set_mxid := set_mxid o; set_oldestmxid := set_oldestmxid o;
            set_mxoff := set_mxoff o; set_oldest_commit_ts_xid := set_oldest_commit_ts_xid o;
            set_newest_commit_ts_xid := set_newest_commit_ts_xid o;
            set_oldest_xid := set_oldest_xid o; set_xid_epoch := set_xid_epoch o;
            set_wal_segsize := set_wal_segsize o; log_fname := log_fname o |}
  | opt_d dir =>
      Ok {| DataDirIn := DataDirIn o; DataDirOut := Some dir; set_oid := set_oid o;
            set_xid := set_xid o; set_mxid := set_mxid o; set_oldestmxid := set_oldestmxid o;
            set_mxoff := set_mxoff o; set_oldest_commit_ts_xid := set_oldest_commit_ts_xid o;
            set_newest_commit_ts_xid := set_newest_commit_ts_xid o;
            set_oldest_xid := set_oldest_xid o; set_xid_epoch := set_xid_epoch o;
            set_wal_segsize := set_wal_segsize o; log_fname := log_fname o |}
  | opt_o v =>
      n <- number "-o" v ;;
      if u32 n =? 0 then Fatal ErrInvalidOid
      else
      Ok {| DataDirIn := DataDirIn o; DataDirOut := DataDirOut o; set_oid := u32 n;
            set_xid := set_xid o; set_mxid := set_mxid o; set_oldestmxid := set_oldestmxid o;
            set_mxoff := set_mxoff o; set_oldest_commit_ts_xid := set_oldest_commit_ts_xid o;
            set_newest_commit_ts_xid := set_newest_commit_ts_xid o;
            set_oldest_xid := set_oldest_xid o; set_xid_epoch := set_xid_epoch o;
            set_wal_segsize := set_wal_segsize o; log_fname := log_fname o |}
  | opt_x v =>
      n <- number "-x" v ;;
      if negb (TransactionIdIsNormal T (u32 n)) then Fatal ErrInvalidTransactionId
      else
      Ok {| DataDirIn := DataDirIn o; DataDirOut := DataDirOut o; set_oid := set_oid o;
            set_xid := u32 n; set_mxid := set_mxid o; set_oldestmxid := set_oldestmxid o;
            set_mxoff := set_mxoff o; set_oldest_commit_ts_xid := set_oldest_commit_ts_xid o;
            set_newest_commit_ts_xid := set_newest_commit_ts_xid o;
            set_oldest_xid := set_oldest_xid o; set_xid_epoch := set_xid_epoch o;
            set_wal_segsize := set_wal_segsize o; log_fname := log_fname o |}
  | opt_m v1 v2 =>
      n1 <- number "-m" v1 ;;
      n2 <- number "-m" v2 ;;
      if u32 n1 =? 0 then Fatal ErrInvalidMultiTransactionId
      else if u32 n2 =? 0 then Fatal ErrInvalidMultiTransactionId
      else
      Ok {| DataDirIn := DataDirIn o; DataDirOut := DataDirOut o; set_oid := set_oid o;
            set_xid := set_xid o; set_mxid := u32 n1; set_oldestmxid := u32 n2;
            set_mxoff := set_mxoff o; set_oldest_commit_ts_xid := set_oldest_commit_ts_xid o;
            set_newest_commit_ts_xid := set_newest_commit_ts_xid o;
            set_oldest_xid := set_oldest_xid o; set_xid_epoch := set_xid_epoch o;
            set_wal_segsize := set_wal_segsize o; log_fname := log_fname o |}
  | opt_O v =>
      n <- number "-O" v ;;
      if u32 n =? all_ones then Fatal ErrInvalidOffset
      else
      Ok {| DataDirIn := DataDirIn o; DataDirOut := DataDirOut o; set_oid := set_oid o;
            set_xid := set_xid o; set_mxid := set_mxid o; set_oldestmxid := set_oldestmxid o;
            set_mxoff := u32 n; set_oldest_commit_ts_xid := set_oldest_commit_ts_xid o;
            set_newest_commit_ts_xid := set_newest_commit_ts_xid o;
            set_oldest_xid := set_oldest_xid o; set_xid_epoch := set_xid_epoch o;
            set_wal_segsize := set_wal_segsize o; log_fname := log_fname o |}
  | opt_c v1 v2 =>
      n1 <- number "-c" v1 ;;
      n2 <- number "-c" v2 ;;
      if (u32 n1 <? FirstNormalTransactionId T) && negb (u32 n1 =? InvalidTransactionId)
      then Fatal ErrInvalidTransactionId
      else if (u32 n2 <? FirstNormalTransactionId T) && negb (u32 n2 =? InvalidTransactionId)
      then Fatal ErrInvalidTransactionId
      else
      Ok {| DataDirIn := DataDirIn o; DataDirOut := DataDirOut o; set_oid := set_oid o;
            set_xid := set_xid o; set_mxid := set_mxid o; set_oldestmxid := set_oldestmxid o;
            set_mxoff := set_mxoff o; set_oldest_commit_ts_xid := u32 n1;
            set_newest_commit_ts_xid := u32 n2;
            set_oldest_xid := set_oldest_xid o; set_xid_epoch := set_xid_epoch o;
            set_wal_segsize := set_wal_segsize o; log_fname := log_fname o |}
  | opt_e v =>
      n <- number "-e" v ;;
      if u32 n =? all_ones then Fatal ErrInvalidEpoch
      else
      Ok {| DataDirIn := DataDirIn o; DataDirOut := DataDirOut o; set_oid := set_oid o;
            set_xid := set_xid o; set_mxid := set_mxid o; set_oldestmxid := set_oldestmxid o;
            set_mxoff := set_mxoff o; set_oldest_commit_ts_xid := set_oldest_commit_ts_xid o;
            set_newest_commit_ts_xid := set_newest_commit_ts_xid o;
            set_oldest_xid := set_oldest_xid o; set_xid_epoch := u32 n;
            set_wal_segsize := set_wal_segsize o; log_fname := log_fname o |}
  | opt_l fname =>
      if negb (strspn fname hex_digits =? XLOG_FNAME_LEN T)%nat then Fatal ErrInvalidFormat
      else
      Ok {| DataDirIn := DataDirIn o; DataDirOut := DataDirOut o; set_oid := set_oid o;
            set_xid := set_xid o; set_mxid := set_mxid o; set_oldestmxid := set_oldestmxid o;
            set_mxoff := set_mxoff o; set_oldest_commit_ts_xid := set_oldest_commit_ts_xid o;
            set_newest_commit_ts_xid := set_newest_commit_ts_xid o;
            set_oldest_xid := set_oldest_xid o; set_xid_epoch := set_xid_epoch o;
            set_wal_segsize := set_wal_segsize o; log_fname := Some fname |}
  | opt_u v =>
      n <- number "-u" v ;;
      if negb (TransactionIdIsNormal T (u32 n)) then Fatal ErrInvalidTransactionId
      else
      Ok {| DataDirIn := DataDirIn o; DataDirOut := DataDirOut o; set_oid := set_oid o;
            set_xid := set_xid o; set_mxid := set_mxid o; set_oldestmxid := set_oldestmxid o;
            set_mxoff := set_mxoff o; set_oldest_commit_ts_xid := set_oldest_commit_ts_xid o;
            set_newest_commit_ts_xid := set_newest_commit_ts_xid o;
            set_oldest_xid := u32 n; set_xid_epoch := set_xid_epoch o;
            set_wal_segsize := set_wal_segsize o; log_fname := log_fname o |}
  | opt_wal_segsize mb =>
      n <- number "--wal-segsize" mb ;;
      if negb ((1 <=? n) && (n <=? 1024)) then Fatal (ErrInvalidArgument "--wal-segsize")
      else if negb (IsValidWalSegSize (n * 1024 * 1024)) then Fatal ErrInvalidSegmentSize
      else
      Ok {| DataDirIn := DataDirIn o; DataDirOut := DataDirOut o; set_oid := set_oid o;
            set_xid := set_xid o; set_mxid := set_mxid o; set_oldestmxid := set_oldestmxid o;
            set_mxoff := set_mxoff o; set_oldest_commit_ts_xid := set_oldest_commit_ts_xid o;
            set_newest_commit_ts_xid := set_newest_commit_ts_xid o;
            set_oldest_xid := set_oldest_xid o; set_xid_epoch := set_xid_epoch o;
            set_wal_segsize := n * 1024 * 1024; log_fname := log_fname o |}
  | opt_unknown => Fatal ErrUnknownOption
  end.

(** The [while ((c = getopt_long(...)) != -1)] loop. *)
Fixpoint getopt_loop (args : list arg) (o : Options) : result Options :=
  match args with
  | [] => Ok o
  | a :: rest => o' <- handle_option a o ;; getopt_loop rest o'
  end.

End Options.

(** ** The file system *)

(** The part of POSIX that the program touches: [mkdir], [open] with
    [O_EXCL | O_CREAT], reading a whole file, and writing one.  A name is
    looked up in a finite map from paths to nodes; the empty path is the
    directory that relative names start from.  Failures of the environment
    that do not depend on the tree (permissions, a full disk, a read-only
    mount) are not modelled. *)
Module Fs.

Inductive node : Type :=
  | Dir
  | File (content : list byte).

Inductive errno : Set := EEXIST | ENOENT | ENOTDIR | EISDIR.

#[global] Instance errno_eq_dec : EqDecision errno.
Proof. solve_decision. Defined.

Definition node_at (f : gmap (list string) node) (p : list string) : option node :=
  match p with
  | [] => Some Dir
  | _ => f !! p
  end.

Definition parent (p : list string) : list string := removelast p.

(** Adds node [n] under the name [p], if the name is free and its parent
    is a directory. *)
Definition create (n : node) (p : list string) (f : gmap (list string) node)
  : errno + gmap (list string) node :=
  match node_at f p with
  | Some _ => inl EEXIST
  | None =>
      match node_at f (parent p) with
      | Some Dir => inr (<[p := n]> f)
      | Some (File _) => inl ENOTDIR
      | None => inl ENOENT
      end
  end.

Definition mkdir : list string -> gmap (list string) node -> errno + gmap (list string) node :=
  create Dir.

(** [open(p, O_EXCL | O_CREAT, mode)] followed by [close]. *)
Definition open_excl_creat : list string -> gmap (list string) node -> errno + gmap (list string) node :=
  create (File []).

Definition read_file (p : list string) (f : gmap (list string) node) : errno + list byte :=
  match node_at f p with
  | Some (File content) => inr content
  | Some Dir => inl EISDIR
  | None => inl ENOENT
  end.

(** Opening an existing file for writing and writing [data] to it. *)
Definition write_file (p : list string) (data : list byte) (f : gmap (list string) node)
  : errno + gmap (list string) node :=
  match node_at f p with
  | Some (File _) => inr (<[p := File data]> f)
  | Some Dir => inl EISDIR
  | None => inl ENOENT
  end.

End Fs.

Definition XLOG_CONTROL_FILE : path := ["global"; "pg_control"]%string.

(** ** Reading, overriding and writing the control file *)

Inductive warning : Set :=
  | WarnInvalidCrc      (* "pg_control exists but has invalid CRC; proceed with caution" *)
  | WarnInvalidSegSize  (* "pg_control specifies invalid WAL segment size ..." *)
  | WarnBroken.         (* "pg_control exists but is broken or wrong version; ignoring it" *)

(** The two static variables that [read_controlfile] assigns. *)
Record Globals : Type := {
  ControlFile : list byte;
  guessed : bool
}.

Section Program.

Variable T : Target.

Definition initial_globals : Globals :=
  {| ControlFile := replicate (sizeof_ControlFileData T) x00; guessed := false |}.

(** [read_controlfile], from the [read] on: [file] is the content of
    [global/pg_control], of which [read] delivers at most
    [PG_CONTROL_FILE_SIZE] bytes.  The result is the returned [bool], the
    static variables afterwards, and the warnings logged. *)
Definition read_controlfile (file : list byte) (g : Globals) : bool * Globals * list warning :=
  let buffer := take (PG_CONTROL_FILE_SIZE T) file in
  let len := length buffer in
  if (sizeof_ControlFileData T <=? len)%nat
     && (get T pg_control_version buffer =? PG_CONTROL_VERSION T)
  then
    let sum := Crc32c.FIN_CRC32C
                 (Crc32c.COMP_CRC32C Crc32c.INIT_CRC32C (take (offsetof T crc) buffer)) in
    let bad := negb (Crc32c.EQ_CRC32C sum (get T crc buffer)) in
    let g1 := {| ControlFile := take (sizeof_ControlFileData T) buffer;
                 guessed := if bad then true else guessed g |} in
    let w1 := if bad then [WarnInvalidCrc] else [] in
    if negb (IsValidWalSegSize (get T xlog_seg_size (ControlFile g1)))
    then (false, g1, w1 ++ [WarnInvalidSegSize])
    else (true, g1, w1)
  else (false, g, [WarnBroken]).

(** The assignments to [ControlFile] in [main], in the order of the
    source. *)
Definition override_oid (o : Options) (cf : list byte) : list byte :=
  if set_oid o =? 0 then cf else put T nextOid (set_oid o) cf.

Definition override_xid (o : Options) (cf : list byte) : list byte :=
  if set_xid o =? 0 then cf
  else put T nextXid
         (FullTransactionIdFromEpochAndXid
            (EpochFromFullTransactionId (get T nextXid cf)) (set_xid o)) cf.

Definition override_mxid (o : Options) (cf : list byte) : list byte :=
  if set_mxid o =? 0 then cf
  else
    let cf1 := put T nextMulti (set_mxid o) cf in
    let cf2 := put T oldestMulti (set_oldestmxid o) cf1 in
    let cf3 := if get T oldestMulti cf2 <? FirstMultiXactId T
               then put T oldestMulti (get T oldestMulti cf2 + FirstMultiXactId T) cf2
               else cf2 in
    put T oldestMultiDB InvalidOid cf3.

Definition override_mxoff (o : Options) (cf : list byte) : list byte :=
  if set_mxoff o =? all_ones then cf else put T nextMultiOffset (set_mxoff o) cf.

Definition override_timeline (minXlogTli : Z) (cf : list byte) : list byte :=
  if get T ThisTimeLineID cf <? minXlogTli
  then put T PrevTimeLineID minXlogTli (put T ThisTimeLineID minXlogTli cf)
  else cf.

Definition override_commit_ts (o : Options) (cf : list byte) : list byte :=
  let cf1 := if set_oldest_commit_ts_xid o =? 0 then cf
             else put T oldestCommitTsXid (set_oldest_commit_ts_xid o) cf in
  if set_newest_commit_ts_xid o =? 0 then cf1
  else put T newestCommitTsXid (set_newest_commit_ts_xid o) cf1.

Definition override_epoch (o : Options) (cf : list byte) : list byte :=
  if set_xid_epoch o =? all_ones then cf
  else put T nextXid
         (FullTransactionIdFromEpochAndXid
            (set_xid_epoch o) (XidFromFullTransactionId (get T nextXid cf))) cf.

Definition override_oldest_xid (o : Options) (cf : list byte) : list byte :=
  if set_oldest_xid o =? 0 then cf
  else put T oldestXidDB InvalidOid (put T oldestXid (set_oldest_xid o) cf).

Definition override_wal_segsize (o : Options) (WalSegSz : Z) (cf : list byte) : list byte :=
  if set_wal_segsize o =? 0 then cf else put T xlog_seg_size WalSegSz cf.

(** [WalSegSz] and [minXlogTli] as [main] computes them after
    [read_controlfile]. *)
Definition effective_WalSegSz (o : Options) (cf : list byte) : Z :=
  if set_wal_segsize o =? 0 then get T xlog_seg_size cf else set_wal_segsize o.

Definition resolved_timeline (o : Options) (cf : list byte) : Z :=
  match log_fname o with
  | Some fname => u32 (fst (XLogFromFileName T fname (effective_WalSegSz o cf)))
  | None => 0
  end.

(** Lines 275 to 326 of [main]. *)
Definition override (o : Options) (cf : list byte) : list byte :=
  let WalSegSz := effective_WalSegSz o cf in
  let minXlogTli := resolved_timeline o cf in
  let cf := override_oid o cf in
  let cf := override_xid o cf in
  let cf := override_mxid o cf in
  let cf := override_mxoff o cf in
  let cf := override_timeline minXlogTli cf in
  let cf := override_commit_ts o cf in
  let cf := override_epoch o cf in
  let cf := override_oldest_xid o cf in
  override_wal_segsize o WalSegSz cf.

(** [mkdir] or [open] whose [EEXIST] is not an error. *)
Definition unless_exists (r : Fs.errno + gmap (list string) Fs.node)
    (f : gmap (list string) Fs.node) : option (gmap (list string) Fs.node) :=
  match r with
  | inr f' => Some f'
  | inl e => if bool_decide (e = Fs.EEXIST) then Some f else None
  end.

(** [make_datadir_out_if_not_exists]: the error it exits with, if any, and
    the file system it leaves. *)
Definition make_datadir_out_if_not_exists (pgdata_out : path)
    (f : gmap (list string) Fs.node) : option error * gmap (list string) Fs.node :=
  match unless_exists (Fs.mkdir pgdata_out f) f with
  | None => (Some ErrCannotMakeDirectory, f)
  | Some f1 =>
      match unless_exists (Fs.mkdir (pgdata_out ++ ["global"%string]) f1) f1 with
      | None => (Some ErrCannotMakeDirectory, f1)
      | Some f2 =>
          match unless_exists (Fs.open_excl_creat (pgdata_out ++ XLOG_CONTROL_FILE) f2) f2 with
          | None => (Some ErrCannotCreateFile, f2)
          | Some f3 => (None, f3)
          end
      end
  end.

(** Modelled from the spec: [update_controlfile] is PostgreSQL's
    [common/controldata_utils.c], not part of this repository.  The spec's
    encode produces the fixed-size byte layout that decode accepts, with
    the checksum recomputed over the byte range used at decode time, that
    is, over every byte before the checksum member. *)
Definition encode (cf : list byte) : list byte :=
  put T crc (Crc32c.crc32c (take (offsetof T crc) cf)) cf.

(** Modelled from the spec: the writing half of [update_controlfile]; the
    spec's materializer writes the full encoded payload to the record file
    in one operation. *)
Definition update_controlfile (DataDir : path) (cf : list byte)
    (f : gmap (list string) Fs.node) : option (gmap (list string) Fs.node) :=
  match Fs.write_file (DataDir ++ XLOG_CONTROL_FILE) (encode cf) f with
  | inr f' => Some f'
  | inl _ => None
  end.

End Program.

(** The command line after [getopt_long] has split it: whether [argv[1]] is
    [--help] or [-?], the options in order, and the arguments left over. *)
Record command_line : Type := {
  help : bool;
  options : list arg;
  operands : list string
}.

Inductive status : Set :=
  | Exit0
  | Exit1 (e : error).

(** [main]: the exit status, the warnings logged, and the file system
    afterwards. *)
Definition main (T : Target) (cl : command_line) (f : gmap (list string) Fs.node)
  : status * list warning * gmap (list string) Fs.node :=
  if help cl then (Exit0, [], f)
  else
    match getopt_loop T (options cl) no_options with
    | Fatal e => (Exit1 e, [], f)
    | Ok o =>
        match operands cl with
        | _ :: _ => (Exit1 ErrTooManyArguments, [], f)
        | [] =>
            match DataDirIn o, DataDirOut o with
            | Some pgdata_in, Some pgdata_out =>
                match Fs.read_file (pgdata_in ++ XLOG_CONTROL_FILE) f with
                | inl _ => (Exit1 ErrCannotOpenControlFile, [], f)
                | inr file =>
                    let '(ok, g, w) := read_controlfile T file (initial_globals T) in
                    if negb ok then (Exit1 ErrCannotReadControlFile, w, f)
                    else
                      let cf := override T o (ControlFile g) in
                      match make_datadir_out_if_not_exists pgdata_out f with
                      | (Some e, f1) => (Exit1 e, w, f1)
                      | (None, f1) =>
                          match update_controlfile T pgdata_out cf f1 with
                          | None => (Exit1 ErrCannotWriteControlFile, w, f1)
                          | Some f2 => (Exit0, w, f2)
                          end
                      end
                end
            | _, _ => (Exit1 ErrMissingDirectory, [], f)
            end
        end
    end.


(** ** A concrete target *)

(** The values of the parameters for PostgreSQL 17 built for x86-64 Linux
    (little-endian, LP64), used for the examples: the offsets are those of
    [ControlFileData] in [catalog/pg_control.h] under the usual alignment
    rules, and [XLogFromFileName] reads three groups of eight hexadecimal
    digits the way [sscanf(fname, "%08X%08X%08X", ...)] does. *)
Definition hex_value (c : ascii) : option Z :=
  let n := Z.of_N (N_of_ascii c) in
  if (48 <=? n) && (n <=? 57) then Some (n - 48)
  else if (65 <=? n) && (n <=? 70) then Some (n - 55)
  else if (97 <=? n) && (n <=? 102) then Some (n - 87)
  else None.

Fixpoint scan_hex (width : nat) (s : string) (acc : Z) : Z * string :=
  match width, s with
  | S w, String c rest =>
      match hex_value c with
      | Some d => scan_hex w rest (16 * acc + d)
      | None => (acc, s)
      end
  | _, _ => (acc, s)
  end.

Definition pg_XLogFromFileName (fname : string) (wal_segsz_bytes : Z) : Z * Z :=
  let '(tli, s1) := scan_hex 8 fname 0 in
  let '(log, s2) := scan_hex 8 s1 0 in
  let '(seg, _) := scan_hex 8 s2 0 in
  (tli, log * (0x100000000 / wal_segsz_bytes) + seg).

Definition pg17_offsetof (m : member) : nat :=
  match m with
  | pg_control_version => 8
  | ThisTimeLineID => 48
  | PrevTimeLineID => 52
  | nextXid => 64
  | nextOid => 72
  | nextMulti => 76
  | nextMultiOffset => 80
  | oldestXid => 84
  | oldestXidDB => 88
  | oldestMulti => 92
  | oldestMultiDB => 96
  | oldestCommitTsXid => 112
  | newestCommitTsXid => 116
  | xlog_seg_size => 228
  | crc => 288
  end%nat.

Definition pg17 : Target := {|
  big_endian := false;
  sizeof_ControlFileData := 296;
  offsetof := pg17_offsetof;
  PG_CONTROL_VERSION := 1300;
  PG_CONTROL_FILE_SIZE := 8 * 1024;
  FirstNormalTransactionId := 3;
  FirstMultiXactId := 1;
  XLOG_FNAME_LEN := 24;
  XLogFromFileName := pg_XLogFromFileName
|}.

(** ** Vocabulary of the statements *)

(** The stored checksum of [file] is the checksum of the bytes before it. *)
Definition checksum_ok (T : Target) (file : list byte) : bool :=
  Crc32c.crc32c (take (offsetof T crc) file) =? get T crc file.

(** Two byte sequences that are identical except in the stored checksum. *)
Definition same_except_crc (T : Target) (a b : list byte) : Prop :=
  length a = length b /\ forall i : nat, outside T crc i -> a !! i = b !! i.

(** A value that [-c] accepts: [InvalidTransactionId] or a normal id. *)
Definition zero_or_normal (T : Target) (v : Z) : bool :=
  (v =? InvalidTransactionId) || TransactionIdIsNormal T v.

(** A string of hexadecimal digits only. *)
Fixpoint all_hex (s : string) : bool :=
  match s with
  | EmptyString => true
  | String c rest => strchr hex_digits c && all_hex rest
  end.

(** Two file systems that are the same except for the stored checksum of the
    file [pin]. *)
Definition same_except_file (T : Target) (pin : list string)
    (f1 f2 : gmap (list string) Fs.node) : Prop :=
  forall q : list string,
    f1 !! q = f2 !! q
    \/ (q = pin
        /\ exists x y, f1 !! q = Some (Fs.File x) /\ f2 !! q = Some (Fs.File y)
                       /\ same_except_crc T x y).

(** The warnings other than the one about the checksum. *)
Definition other_warnings (ws : list warning) : list warning :=
  List.filter (fun w => match w with WarnInvalidCrc => false | _ => true end) ws.

(** ** Sample inputs *)

(** A control file for the examples: all zero except for the version, a
    16 MiB segment size, [nextOid] 100 and [nextXid] with epoch 0 and
    transaction id 1000.  Its checksum member is zero, which is not its
    checksum. *)
Definition sample : list byte :=
  put pg17 nextXid 1000
    (put pg17 nextOid 100
       (put pg17 xlog_seg_size (16 * 1024 * 1024)
          (put pg17 pg_control_version 1300 (replicate 296 x00)))).

(** The static variables after [-x 5000 -e 2]. *)
Definition sample_options : Options := {|
  DataDirIn := None;
  DataDirOut := None;
  set_oid := 0;
  set_xid := 5000;
  set_mxid := 0;
  set_oldestmxid := 0;
  set_mxoff := all_ones;
  set_oldest_commit_ts_xid := 0;
  set_newest_commit_ts_xid := 0;
  set_oldest_xid := 0;
  set_xid_epoch := 2;
  set_wal_segsize := 0;
  log_fname := None
|}.

(** A file system for the examples: an input directory whose control file is
    the encoded sample, and an output directory that already has a
    [global/pg_control], with three bytes in it. *)
Definition old_content : list byte := [x01; x02; x03].

Definition sample_fs : gmap (list string) Fs.node :=
  <[ ["out"; "global"; "pg_control"]%string := Fs.File old_content ]>
  (<[ ["out"; "global"]%string := Fs.Dir ]>
  (<[ ["out"]%string := Fs.Dir ]>
  (<[ ["in"; "global"; "pg_control"]%string := Fs.File (encode pg17 sample) ]>
  (<[ ["in"; "global"]%string := Fs.Dir ]>
  (<[ ["in"]%string := Fs.Dir ]> ∅))))).

Definition sample_command_line : command_line :=
  {| help := false;
     options := [opt_D ["in"%string]; opt_d ["out"%string]];
     operands := [] |}.

(** The sample file system with the stale sample as the input control
    file. *)
Definition sample_fs_stale : gmap (list string) Fs.node :=
  <[ ["in"; "global"; "pg_control"]%string := Fs.File sample ]> sample_fs.

(** ** Vocabulary of the further properties *)

(** The image [cf'] has the length of [cf] and its bytes everywhere outside
    the members [ms]. *)
Definition changes_only (T : Target) (ms : list member) (cf cf' : list byte) : Prop :=
  length cf' = length cf
  /\ forall i : nat, (forall m, In m ms -> outside T m i) -> cf' !! i = cf !! i.

(** The members that [main] assigns. *)
Definition assigned_members : list member :=
  [nextOid; nextXid; nextMulti; oldestMulti; oldestMultiDB; nextMultiOffset;
   ThisTimeLineID; PrevTimeLineID; oldestCommitTsXid; newestCommitTsXid;
   oldestXid; oldestXidDB; xlog_seg_size].

(** What the checks of the option loop establish about the static
    variables. *)
Definition Options_ok (T : Target) (o : Options) : Prop :=
  0 <= set_oid o < 2 ^ 32
  /\ (set_xid o = 0
      \/ (TransactionIdIsNormal T (set_xid o) = true /\ 0 <= set_xid o < 2 ^ 32))
  /\ ((set_mxid o = 0 /\ set_oldestmxid o = 0)
      \/ (0 < set_mxid o < 2 ^ 32 /\ 0 < set_oldestmxid o < 2 ^ 32))
  /\ 0 <= set_mxoff o < 2 ^ 32
  /\ (zero_or_normal T (set_oldest_commit_ts_xid o) = true
      /\ 0 <= set_oldest_commit_ts_xid o < 2 ^ 32)
  /\ (zero_or_normal T (set_newest_commit_ts_xid o) = true
      /\ 0 <= set_newest_commit_ts_xid o < 2 ^ 32)
  /\ (set_oldest_xid o = 0
      \/ (TransactionIdIsNormal T (set_oldest_xid o) = true /\ 0 <= set_oldest_xid o < 2 ^ 32))
  /\ 0 <= set_xid_epoch o < 2 ^ 32
  /\ (set_wal_segsize o = 0 \/ IsValidWalSegSize (set_wal_segsize o) = true)
  /\ (forall fname, log_fname o = Some fname ->
      strspn fname hex_digits = XLOG_FNAME_LEN T).


(** The first character of a string, if any, is a hexadecimal digit. *)
Definition starts_with_hex (s : string) : bool :=
  match s with
  | EmptyString => false
  | String c _ => strchr hex_digits c
  end.

(** The value that member [m] is expected to have after the override
    block, given the static variables [o] and the record [cf] read. *)
Definition expected_member (T : Target) (o : Options) (cf : list byte) (m : member) : Z :=
  match m with
  | pg_control_version => get T pg_control_version cf
  | crc => get T crc cf
  | xlog_seg_size => effective_WalSegSz T o cf
  | nextXid =>
      FullTransactionIdFromEpochAndXid
        (if set_xid_epoch o =? all_ones
         then EpochFromFullTransactionId (get T nextXid cf) else set_xid_epoch o)
        (if set_xid o =? 0
         then XidFromFullTransactionId (get T nextXid cf) else set_xid o)
  | nextOid => if set_oid o =? 0 then get T nextOid cf else set_oid o
  | nextMulti => if set_mxid o =? 0 then get T nextMulti cf else set_mxid o
  | nextMultiOffset =>
      if set_mxoff o =? all_ones then get T nextMultiOffset cf else set_mxoff o
  | oldestXid => if set_oldest_xid o =? 0 then get T oldestXid cf else set_oldest_xid o
  | oldestXidDB => if set_oldest_xid o =? 0 then get T oldestXidDB cf else InvalidOid
  | oldestMulti =>
      if set_mxid o =? 0 then get T oldestMulti cf
      else if set_oldestmxid o <? FirstMultiXactId T
           then set_oldestmxid o + FirstMultiXactId T
           else set_oldestmxid o
  | oldestMultiDB => if set_mxid o =? 0 then get T oldestMultiDB cf else InvalidOid
  | ThisTimeLineID => Z.max (get T ThisTimeLineID cf) (resolved_timeline T o cf)
  | PrevTimeLineID =>
      if get T ThisTimeLineID cf <? resolved_timeline T o cf
      then resolved_timeline T o cf else get T PrevTimeLineID cf
  | oldestCommitTsXid =>
      if set_oldest_commit_ts_xid o =? 0 then get T oldestCommitTsXid cf
      else set_oldest_commit_ts_xid o
  | newestCommitTsXid =>
      if set_newest_commit_ts_xid o =? 0 then get T newestCommitTsXid cf
      else set_newest_commit_ts_xid o
  end.

(** The name of the record file that a command line asks to write, when the
    option loop accepts it and [-d] is given. *)
Definition output_path (T : Target) (cl : command_line) : option path :=
  match getopt_loop T (options cl) no_options with
  | Ok o =>
      match DataDirOut o with
      | Some pgdata_out => Some (pgdata_out ++ XLOG_CONTROL_FILE)
      | None => None
      end
  | Fatal _ => None
  end.


(** The case of the switch that handles an option. *)
Definition option_case (a : arg) : nat :=
  match a with
  | opt_D _ => 0 | opt_d _ => 1 | opt_o _ => 2 | opt_x _ => 3 | opt_m _ _ => 4
  | opt_O _ => 5 | opt_c _ _ => 6 | opt_e _ => 7 | opt_l _ => 8 | opt_u _ => 9
  | opt_wal_segsize _ => 10 | opt_unknown => 11
  end%nat.

(** * Facts about the memory image *)

Module MemFacts.

Import Mem.

Lemma Z_of_byte_range b : 0 <= Z_of_byte b < 256.
Proof.
  unfold Z_of_byte. pose proof (Byte.to_N_bounded b) as H.
  lia.
Qed.

Lemma Z_of_byte_of_Z z : Z_of_byte (byte_of_Z z) = z mod 256.
Proof.
  unfold Z_of_byte, byte_of_Z.
  assert (Hr : 0 <= z mod 256 < 256) by (apply Z.mod_pos_bound; lia).
  destruct (Byte.of_N (Z.to_N (z mod 256))) as [b|] eqn:E; simpl.
  - apply Byte.to_of_N in E. rewrite E. lia.
  - apply Byte.of_N_None_iff in E. lia.
Qed.

Lemma byte_of_Z_of_byte b : byte_of_Z (Z_of_byte b) = b.
Proof.
  unfold byte_of_Z. pose proof (Z_of_byte_range b) as Hr.
  rewrite Z.mod_small by lia. unfold Z_of_byte.
  rewrite N2Z.id, Byte.of_to_N. reflexivity.
Qed.

Lemma length_encode_int n v : length (encode_int n v) = n.
Proof. revert v. induction n as [|n IH]; intros v; simpl; [|rewrite IH]; reflexivity. Qed.

Lemma decode_int_range bs : 0 <= decode_int bs < 2 ^ (8 * Z.of_nat (length bs)).
Proof.
  induction bs as [|b bs IH]; simpl decode_int; simpl length.
  - simpl. lia.
  - pose proof (Z_of_byte_range b) as Hb.
    replace (8 * Z.of_nat (S (length bs))) with (8 + 8 * Z.of_nat (length bs)) by lia.
    rewrite Z.pow_add_r by lia. change (2 ^ 8) with 256. nia.
Qed.

Lemma decode_encode_int n v : decode_int (encode_int n v) = v mod 2 ^ (8 * Z.of_nat n).
Proof.
  revert v. induction n as [|n IH]; intros v.
  - simpl. rewrite Z.mod_1_r. reflexivity.
  - cbn [encode_int decode_int]. rewrite IH, Z_of_byte_of_Z.
    replace (8 * Z.of_nat (S n)) with (8 + 8 * Z.of_nat n) by lia.
    rewrite Z.pow_add_r by lia. change (2 ^ 8) with 256.
    assert (Hp : 0 < 2 ^ (8 * Z.of_nat n)) by (apply Z.pow_pos_nonneg; lia).
    rewrite (Z.rem_mul_r v 256 (2 ^ (8 * Z.of_nat n))) by lia.
    reflexivity.
Qed.

Lemma encode_decode_int bs : encode_int (length bs) (decode_int bs) = bs.
Proof.
  induction bs as [|b bs IH]; simpl; [reflexivity|].
  pose proof (Z_of_byte_range b) as Hb.
  set (d := decode_int bs) in *.
  assert (Hm : (Z_of_byte b + 256 * d) mod 256 = Z_of_byte b mod 256).
  { rewrite (Z.mul_comm 256 d). apply Z.mod_add. lia. }
  assert (Hd : (Z_of_byte b + 256 * d) / 256 = d).
  { rewrite (Z.add_comm (Z_of_byte b)), (Z.mul_comm 256 d), Z.div_add_l by lia.
    rewrite Z.div_small; lia. }
  f_equal.
  - rewrite <- (byte_of_Z_of_byte b) at 2. unfold byte_of_Z. rewrite Hm. reflexivity.
  - rewrite Hd. exact IH.
Qed.

Lemma rev_if_be_involutive be bs : rev_if_be be (rev_if_be be bs) = bs.
Proof. destruct be; simpl; [apply rev_involutive|reflexivity]. Qed.

Lemma length_rev_if_be be bs : length (rev_if_be be bs) = length bs.
Proof. destruct be; simpl; [apply length_rev|reflexivity]. Qed.

Lemma length_store be n off v img : length (store be n off v img) = length img.
Proof. apply length_inserts. Qed.

(** Byte-wise view of a write. *)
Lemma lookup_store_out be n off v img (i : nat) :
  (i < off \/ off + n <= i)%nat -> store be n off v img !! i = img !! i.
Proof.
  intros [H|H]; unfold store.
  - apply list_lookup_inserts_lt. lia.
  - apply list_lookup_inserts_ge. rewrite length_rev_if_be, length_encode_int. lia.
Qed.

Lemma window_inserts (k img : list byte) (off : nat) :
  (off + length k <= length img)%nat ->
  take (length k) (drop off (list_inserts off k img)) = k.
Proof.
  intros Hfit. apply list_eq. intros i.
  rewrite lookup_take, lookup_drop.
  destruct (decide (i < length k)%nat) as [Hi|Hi].
  - rewrite list_lookup_inserts by lia. f_equal. lia.
  - symmetry. apply lookup_ge_None. lia.
Qed.

Lemma load_store_same be n off v img :
  (off + n <= length img)%nat ->
  load be n off (store be n off v img) = v mod 2 ^ (8 * Z.of_nat n).
Proof.
  intros Hfit. unfold load, store.
  set (k := rev_if_be be (encode_int n v)).
  assert (Hk : length k = n) by (unfold k; rewrite length_rev_if_be; apply length_encode_int).
  rewrite <- Hk at 1. rewrite window_inserts by lia.
  unfold k. rewrite rev_if_be_involutive. apply decode_encode_int.
Qed.

(** A read only looks at the bytes of its window. *)
Lemma load_ext be n off (a b : list byte) :
  (forall i : nat, (off <= i < off + n)%nat -> a !! i = b !! i) ->
  load be n off a = load be n off b.
Proof.
  intros H. unfold load. f_equal. f_equal.
  apply list_eq. intros i. rewrite !lookup_take, !lookup_drop.
  destruct (decide (i < n)%nat); [apply H; lia|reflexivity].
Qed.

Lemma load_store_other be n off v n' off' img :
  (off' + n' <= off \/ off + n <= off')%nat ->
  load be n' off' (store be n off v img) = load be n' off' img.
Proof.
  intros Hd. apply load_ext. intros i Hi.
  apply lookup_store_out. lia.
Qed.

Lemma load_range be n off img : 0 <= load be n off img < 2 ^ (8 * Z.of_nat n).
Proof.
  unfold load.
  set (w := rev_if_be be (take n (drop off img))).
  pose proof (decode_int_range w) as Hr.
  assert (Hl : (length w <= n)%nat).
  { unfold w. rewrite length_rev_if_be, length_take. lia. }
  assert (2 ^ (8 * Z.of_nat (length w)) <= 2 ^ (8 * Z.of_nat n)).
  { apply Z.pow_le_mono_r; lia. }
  lia.
Qed.


End MemFacts.

(** * Facts about the checksum *)

Module Crc32cFacts.

Import Crc32c.

Example crc32c_check_value :
  crc32c [x31; x32; x33; x34; x35; x36; x37; x38; x39] = 0xE3069283.
Proof. vm_compute. reflexivity. Qed.

Lemma lxor_range n a b :
  0 <= n -> 0 <= a < 2 ^ n -> 0 <= b < 2 ^ n -> 0 <= Z.lxor a b < 2 ^ n.
Proof.
  intros Hn Ha Hb.
  assert (Hnn : 0 <= Z.lxor a b) by (apply Z.lxor_nonneg; lia).
  split; [exact Hnn|].
  destruct (Z.eq_dec (Z.lxor a b) 0) as [E|E].
  { rewrite E. apply Z.pow_pos_nonneg; lia. }
  apply Z.log2_lt_pow2; [lia|].
  pose proof (Z.log2_lxor a b ltac:(lia) ltac:(lia)) as Hl.
  assert (Hla : a = 0 \/ Z.log2 a < n).
  { destruct (Z.eq_dec a 0); [left; assumption|right; apply Z.log2_lt_pow2; lia]. }
  assert (Hlb : b = 0 \/ Z.log2 b < n).
  { destruct (Z.eq_dec b 0); [left; assumption|right; apply Z.log2_lt_pow2; lia]. }
  destruct Hla as [->|Hla], Hlb as [->|Hlb].
  - rewrite Z.lxor_0_l in E. lia.
  - rewrite Z.lxor_0_l. exact Hlb.
  - rewrite Z.lxor_0_r. exact Hla.
  - lia.
Qed.

Lemma shift_bit_range c : 0 <= c < 2 ^ 32 -> 0 <= shift_bit c < 2 ^ 32.
Proof.
  intros Hc. unfold shift_bit.
  assert (Hs : 0 <= Z.shiftr c 1 < 2 ^ 32).
  { rewrite Z.shiftr_div_pow2 by lia. change (2 ^ 1) with 2.
    split; [apply Z.div_pos; lia|].
    apply Z.div_lt_upper_bound; lia. }
  destruct (Z.testbit c 0); [|exact Hs].
  apply lxor_range; [lia|exact Hs|unfold poly; lia].
Qed.

Lemma update_range c b : 0 <= c < 2 ^ 32 -> 0 <= update c b < 2 ^ 32.
Proof.
  intros Hc. unfold update.
  assert (H0 : 0 <= Z.lxor c (Mem.Z_of_byte b) < 2 ^ 32).
  { apply lxor_range; [lia|exact Hc|]. pose proof (MemFacts.Z_of_byte_range b). lia. }
  generalize dependent (Z.lxor c (Mem.Z_of_byte b)). intros z Hz.
  do 8 (apply shift_bit_range in Hz). exact Hz.
Qed.

Lemma COMP_CRC32C_range data c :
  0 <= c < 2 ^ 32 -> 0 <= COMP_CRC32C c data < 2 ^ 32.
Proof.
  revert c. induction data as [|b data IH]; intros c Hc; simpl.
  - exact Hc.
  - apply IH, update_range, Hc.
Qed.

Lemma crc32c_range data : 0 <= crc32c data < 2 ^ 32.
Proof.
  unfold crc32c, FIN_CRC32C.
  apply lxor_range; [lia| |lia].
  apply COMP_CRC32C_range. unfold INIT_CRC32C. lia.
Qed.

End Crc32cFacts.

(** * Facts about the macros *)

Lemma u32_range v : 0 <= u32 v < 2 ^ 32.
Proof. unfold u32. apply Z.mod_pos_bound. lia. Qed.

Lemma u32_small v : 0 <= v < 2 ^ 32 -> u32 v = v.
Proof. intros H. unfold u32. apply Z.mod_small. exact H. Qed.

Lemma u32_idemp v : u32 (u32 v) = u32 v.
Proof. apply u32_small, u32_range. Qed.

Lemma full_xid_sum epoch xid :
  0 <= xid < 2 ^ 32 ->
  FullTransactionIdFromEpochAndXid epoch xid = epoch * 2 ^ 32 + xid.
Proof.
  intros Hx. unfold FullTransactionIdFromEpochAndXid.
  rewrite Z.shiftl_mul_pow2 by lia.
  assert (Hland : Z.land (epoch * 2 ^ 32) xid = 0).
  { apply Z.bits_inj'. intros i Hi. rewrite Z.land_spec, Z.bits_0.
    destruct (Z_lt_le_dec i 32) as [Hlt|Hge].
    - rewrite Z.mul_pow2_bits_low by lia. reflexivity.
    - destruct (Z.eq_dec xid 0) as [->|Hne].
      + rewrite Z.bits_0. apply andb_false_r.
      + rewrite (Z.bits_above_log2 xid i); [apply andb_false_r|lia|].
        assert (Z.log2 xid < 32) by (apply Z.log2_lt_pow2; lia). lia. }
  rewrite <- Z.lxor_lor by exact Hland.
  symmetry. apply Z.add_nocarry_lxor. exact Hland.
Qed.

Lemma Epoch_of_Full epoch xid :
  0 <= epoch < 2 ^ 32 -> 0 <= xid < 2 ^ 32 ->
  EpochFromFullTransactionId (FullTransactionIdFromEpochAndXid epoch xid) = epoch.
Proof.
  intros He Hx. unfold EpochFromFullTransactionId.
  rewrite full_xid_sum, Z.shiftr_div_pow2 by lia.
  rewrite Z.div_add_l, Z.div_small by lia.
  rewrite Z.add_0_r. apply u32_small. exact He.
Qed.

Lemma Xid_of_Full epoch xid :
  0 <= xid < 2 ^ 32 ->
  XidFromFullTransactionId (FullTransactionIdFromEpochAndXid epoch xid) = xid.
Proof.
  intros Hx. unfold XidFromFullTransactionId, u32.
  rewrite full_xid_sum by lia.
  rewrite Z.add_comm, Z.mod_add by lia.
  apply Z.mod_small. exact Hx.
Qed.

Lemma Full_range epoch xid :
  0 <= epoch < 2 ^ 32 -> 0 <= xid < 2 ^ 32 ->
  0 <= FullTransactionIdFromEpochAndXid epoch xid < 2 ^ 64.
Proof. intros He Hx. rewrite full_xid_sum by lia. lia. Qed.

(** [IsPowerOf2] is what its name says. *)
Lemma IsPowerOf2_spec x :
  IsPowerOf2 x = true <-> exists k, 0 <= k /\ x = 2 ^ k.
Proof.
  unfold IsPowerOf2. rewrite andb_true_iff, Z.ltb_lt, Z.eqb_eq. split.
  - intros [Hpos Hland]. exists (Z.log2 x).
    pose proof (Z.log2_nonneg x) as Hk.
    split; [exact Hk|].
    destruct (Z.log2_spec x Hpos) as [Hlo Hhi].
    destruct (Z.eq_dec x (2 ^ Z.log2 x)) as [E|E]; [exact E|exfalso].
    assert (Hl : Z.log2 (x - 1) = Z.log2 x).
    { apply Z.log2_unique; [exact Hk|]. lia. }
    assert (Hb : Z.testbit (Z.land x (x - 1)) (Z.log2 x) = true).
    { rewrite Z.land_spec, (Z.bit_log2 x Hpos).
      rewrite <- Hl. rewrite Z.bit_log2 by lia. reflexivity. }
    rewrite Hland, Z.bits_0 in Hb. discriminate.
  - intros (k & Hk & ->).
    assert (Hp : 0 < 2 ^ k) by (apply Z.pow_pos_nonneg; lia).
    split; [exact Hp|].
    replace (2 ^ k - 1) with (Z.ones k) by (rewrite Z.ones_equiv; lia).
    rewrite Z.land_ones by exact Hk. apply Z.mod_same. lia.
Qed.

Lemma IsValidWalSegSize_spec size :
  IsValidWalSegSize size = true <-> exists k, 20 <= k <= 30 /\ size = 2 ^ k.
Proof.
  unfold IsValidWalSegSize, WalSegMinSize, WalSegMaxSize.
  rewrite !andb_true_iff, IsPowerOf2_spec, !Z.leb_le.
  change (1024 * 1024 * 1024) with (2 ^ 30). change (1024 * 1024) with (2 ^ 20).
  split.
  - intros [(k & Hk & ->) [Hlo Hhi]]. exists k. split; [|reflexivity].
    split.
    + apply (Z.pow_le_mono_r_iff 2); lia.
    + apply (Z.pow_le_mono_r_iff 2); lia.
  - intros (k & Hk & ->). split; [exists k; split; [lia|reflexivity]|].
    split; apply Z.pow_le_mono_r; lia.
Qed.

(** * Facts about the members of the struct *)

Section ControlFileDataFacts.

Variable T : Target.

Local Abbreviation get := (get T).
Local Abbreviation put := (put T).
Local Abbreviation outside := (outside T).

Lemma length_put m v cf : length (put m v cf) = length cf.
Proof. apply MemFacts.length_store. Qed.

Lemma get_range m cf : 0 <= get m cf < 2 ^ (8 * Z.of_nat (sizeof_member m)).
Proof. apply MemFacts.load_range. Qed.


Lemma get_range64 cf : 0 <= get nextXid cf < 2 ^ 64.
Proof. exact (get_range nextXid cf). Qed.

Hypothesis T_ok : target_ok T = true.

Lemma In_members m : In m members.
Proof. destruct m; simpl; tauto. Qed.

Lemma member_fits m :
  (offsetof T m + sizeof_member m <= sizeof_ControlFileData T)%nat.
Proof.
  unfold target_ok in T_ok. rewrite !andb_true_iff in T_ok.
  destruct T_ok as [[[[Hfit _] _] _] _].
  rewrite forallb_forall in Hfit.
  specialize (Hfit m (In_members m)). apply Nat.leb_le in Hfit. exact Hfit.
Qed.

Lemma members_disjoint m m' :
  m <> m' ->
  (offsetof T m + sizeof_member m <= offsetof T m'
   \/ offsetof T m' + sizeof_member m' <= offsetof T m)%nat.
Proof.
  intros Hne. unfold target_ok in T_ok. rewrite !andb_true_iff in T_ok.
  destruct T_ok as [[[[_ Hdis] _] _] _].
  rewrite forallb_forall in Hdis. specialize (Hdis m (In_members m)).
  rewrite forallb_forall in Hdis. specialize (Hdis m' (In_members m')).
  apply orb_true_iff in Hdis. destruct Hdis as [Heq|Hd].
  - apply bool_decide_eq_true in Heq. contradiction.
  - unfold disjoint_members in Hd. apply orb_true_iff in Hd.
    rewrite !Nat.leb_le in Hd. exact Hd.
Qed.

Lemma sizeof_le_file_size :
  (sizeof_ControlFileData T <= PG_CONTROL_FILE_SIZE T)%nat.
Proof.
  unfold target_ok in T_ok. rewrite !andb_true_iff in T_ok.
  destruct T_ok as [[[_ H] _] _]. apply Nat.leb_le in H. exact H.
Qed.

Lemma FirstNormalTransactionId_pos : 0 < FirstNormalTransactionId T.
Proof.
  unfold target_ok in T_ok. rewrite !andb_true_iff in T_ok.
  destruct T_ok as [[_ H] _]. apply Z.ltb_lt in H. exact H.
Qed.

Lemma FirstMultiXactId_range : 0 < FirstMultiXactId T <= 2 ^ 31.
Proof.
  unfold target_ok in T_ok. rewrite !andb_true_iff in T_ok.
  destruct T_ok as [_ [H1 H2]]. apply Z.ltb_lt in H1. apply Z.leb_le in H2. lia.
Qed.

Lemma get_put_same m v cf :
  length cf = sizeof_ControlFileData T ->
  get m (put m v cf) = v mod 2 ^ (8 * Z.of_nat (sizeof_member m)).
Proof.
  intros Hlen. apply MemFacts.load_store_same.
  pose proof (member_fits m). lia.
Qed.

Lemma get_put_same32 m v cf :
  m <> nextXid -> length cf = sizeof_ControlFileData T ->
  get m (put m v cf) = u32 v.
Proof.
  intros Hm Hlen. rewrite get_put_same by exact Hlen.
  destruct m; try reflexivity. congruence.
Qed.

Lemma get_put_other m m' v cf :
  m <> m' -> get m' (put m v cf) = get m' cf.
Proof.
  intros Hne. apply MemFacts.load_store_other.
  pose proof (members_disjoint m m' Hne). lia.
Qed.


Lemma lookup_put_outside m v cf i :
  outside m i -> put m v cf !! i = cf !! i.
Proof. intros H. apply MemFacts.lookup_store_out. exact H. Qed.

Lemma get_ext m (a b : list byte) :
  (forall i, ~ outside m i -> a !! i = b !! i) -> get m a = get m b.
Proof.
  intros H. apply MemFacts.load_ext. intros i Hi. apply H.
  unfold outside. lia.
Qed.

End ControlFileDataFacts.


(** * The codec *)

Section Codec.

Variable T : Target.
Hypothesis T_ok : target_ok T = true.

Local Abbreviation get := (get T).
Local Abbreviation put := (put T).

(** A member read from a prefix of the file that contains the struct is the
    member of the file. *)
Lemma get_take m (n : nat) (file : list byte) :
  (sizeof_ControlFileData T <= n)%nat -> get m (take n file) = get m file.
Proof.
  intros Hn. apply get_ext. intros i Hi.
  apply lookup_take_lt.
  pose proof (member_fits T T_ok m). unfold outside in Hi. lia.
Qed.

Lemma take_crc_take (n : nat) (file : list byte) :
  (sizeof_ControlFileData T <= n)%nat ->
  take (offsetof T crc) (take n file) = take (offsetof T crc) file.
Proof.
  intros Hn. rewrite take_take. f_equal.
  pose proof (member_fits T T_ok crc). lia.
Qed.

(** [read_controlfile] as one case distinction on the file. *)
Lemma read_controlfile_unfold file g :
  read_controlfile T file g =
    if (sizeof_ControlFileData T <=? length file)%nat
       && (get pg_control_version file =? PG_CONTROL_VERSION T)
    then
      let g1 := {| ControlFile := take (sizeof_ControlFileData T) file;
                   guessed := if checksum_ok T file then guessed g else true |} in
      let w1 := if checksum_ok T file then [] else [WarnInvalidCrc] in
      if IsValidWalSegSize (get xlog_seg_size file)
      then (true, g1, w1)
      else (false, g1, w1 ++ [WarnInvalidSegSize])
    else (false, g, [WarnBroken]).
Proof.
  pose proof (sizeof_le_file_size T T_ok) as Hsz.
  unfold read_controlfile.
  rewrite (get_take pg_control_version) by exact Hsz.
  rewrite length_take.
  replace (sizeof_ControlFileData T <=? PG_CONTROL_FILE_SIZE T `min` length file)%nat
    with (sizeof_ControlFileData T <=? length file)%nat.
  2:{ destruct (Nat.leb_spec (sizeof_ControlFileData T) (length file));
      destruct (Nat.leb_spec (sizeof_ControlFileData T)
                  (PG_CONTROL_FILE_SIZE T `min` length file)); try reflexivity; lia. }
  destruct ((sizeof_ControlFileData T <=? length file)%nat
            && (get pg_control_version file =? PG_CONTROL_VERSION T)); [|reflexivity].
  cbn zeta. cbn [ControlFile].
  rewrite take_take, (Nat.min_l _ _ Hsz).
  rewrite (get_take xlog_seg_size) by lia.
  rewrite (get_take crc) by exact Hsz.
  rewrite take_crc_take by exact Hsz.
  unfold checksum_ok, Crc32c.crc32c, Crc32c.EQ_CRC32C.
  destruct (Crc32c.FIN_CRC32C _ =? get crc file);
    destruct (IsValidWalSegSize (get xlog_seg_size file)); reflexivity.
Qed.

End Codec.

(** C2.  [read_controlfile] returns [false] exactly when the file is shorter
    than the struct, or its version member is not [PG_CONTROL_VERSION], or
    its segment size is not valid.  When none of these holds it returns
    [true] whatever the stored checksum is, with the first
    [sizeof(ControlFileData)] bytes of the file in [ControlFile]; a checksum
    that does not match sets [guessed] and logs one warning, and does
    nothing else. *)
Theorem read_controlfile_fails_iff (T : Target) (file : list byte) (g : Globals) :
  target_ok T = true ->
  ((read_controlfile T file g).1.1 = false <->
     (length file < sizeof_ControlFileData T)%nat
     \/ get T pg_control_version file <> PG_CONTROL_VERSION T
     \/ IsValidWalSegSize (get T xlog_seg_size file) = false)
  /\ ((read_controlfile T file g).1.1 = true ->
      read_controlfile T file g =
        (true,
         {| ControlFile := take (sizeof_ControlFileData T) file;
            guessed := if checksum_ok T file then guessed g else true |},
         if checksum_ok T file then [] else [WarnInvalidCrc])).
Proof.
  intros T_ok. rewrite (read_controlfile_unfold T T_ok).
  destruct (Nat.leb_spec (sizeof_ControlFileData T) (length file)) as [Hlen|Hlen];
    destruct (Z.eqb_spec (get T pg_control_version file) (PG_CONTROL_VERSION T)) as [Hv|Hv];
    cbn [andb]; cbn zeta;
    destruct (IsValidWalSegSize (get T xlog_seg_size file)) eqn:Hseg; cbn [fst snd];
    (split; [split; [intros H; try discriminate; auto | intros [H|[H|H]]; try reflexivity; try lia; try congruence] | intros H; try discriminate; reflexivity]).
Qed.

Lemma read_controlfile_fails_iff_witness :
  target_ok pg17 = true
  /\ ((read_controlfile pg17 sample (initial_globals pg17)).1.1 = false <->
        (length sample < sizeof_ControlFileData pg17)%nat
        \/ get pg17 pg_control_version sample <> PG_CONTROL_VERSION pg17
        \/ IsValidWalSegSize (get pg17 xlog_seg_size sample) = false)
  /\ ((read_controlfile pg17 sample (initial_globals pg17)).1.1 = true ->
      read_controlfile pg17 sample (initial_globals pg17) =
        (true,
         {| ControlFile := take (sizeof_ControlFileData pg17) sample;
            guessed := if checksum_ok pg17 sample then guessed (initial_globals pg17) else true |},
         if checksum_ok pg17 sample then [] else [WarnInvalidCrc])).
Proof.
  split.
  - vm_compute. reflexivity.
  - apply (read_controlfile_fails_iff pg17 sample (initial_globals pg17)).
    vm_compute. reflexivity.
Defined.

(** The sample file has a stale checksum and a valid segment size: it is
    read with a warning, and [guessed] is set. *)
Example read_controlfile_sample :
  read_controlfile pg17 sample (initial_globals pg17)
    = (true, {| ControlFile := sample; guessed := true |}, [WarnInvalidCrc]).
Proof. vm_compute. reflexivity. Qed.

Section Encode.

Variable T : Target.
Hypothesis T_ok : target_ok T = true.

Local Abbreviation get := (get T).
Local Abbreviation put := (put T).

Lemma length_encode cf : length (encode T cf) = length cf.
Proof. apply length_put. Qed.

(** Writing the checksum member leaves the checksummed bytes alone. *)
Lemma take_crc_put_crc v cf :
  take (offsetof T crc) (put crc v cf) = take (offsetof T crc) cf.
Proof.
  apply list_eq. intros i. rewrite !lookup_take.
  destruct (decide (i < offsetof T crc)%nat) as [Hi|Hi]; [|reflexivity].
  apply lookup_put_outside. left. exact Hi.
Qed.

Lemma get_encode_other m cf : m <> crc -> get m (encode T cf) = get m cf.
Proof. intros Hm. apply (get_put_other T T_ok). congruence. Qed.

Lemma get_crc_encode cf :
  length cf = sizeof_ControlFileData T ->
  get crc (encode T cf) = Crc32c.crc32c (take (offsetof T crc) cf).
Proof.
  intros Hlen. unfold encode.
  rewrite (get_put_same32 T T_ok) by (congruence || exact Hlen).
  apply u32_small, Crc32cFacts.crc32c_range.
Qed.

Lemma checksum_ok_encode cf :
  length cf = sizeof_ControlFileData T -> checksum_ok T (encode T cf) = true.
Proof.
  intros Hlen. unfold checksum_ok.
  rewrite get_crc_encode by exact Hlen.
  unfold encode at 1. rewrite take_crc_put_crc. apply Z.eqb_refl.
Qed.

End Encode.

(** C1, amended.  For every record whose version member is
    [PG_CONTROL_VERSION] and whose segment size is valid, reading back the
    encoded record succeeds without a warning and with [guessed] false, and
    the record read is the encoded one: it has the members and the bytes of
    the original everywhere outside the checksum member, and its checksum
    member holds the checksum of the bytes before it. *)
Theorem encode_then_read_controlfile (T : Target) (r : list byte) :
  target_ok T = true ->
  length r = sizeof_ControlFileData T ->
  get T pg_control_version r = PG_CONTROL_VERSION T ->
  IsValidWalSegSize (get T xlog_seg_size r) = true ->
  read_controlfile T (encode T r) (initial_globals T)
    = (true, {| ControlFile := encode T r; guessed := false |}, [])
  /\ (forall m, m <> crc -> get T m (encode T r) = get T m r)
  /\ (forall i : nat, outside T crc i -> encode T r !! i = r !! i)
  /\ get T crc (encode T r) = Crc32c.crc32c (take (offsetof T crc) r).
Proof.
  intros T_ok Hlen Hver Hseg.
  split; [|split; [|split]].
  - rewrite (read_controlfile_unfold T T_ok).
    rewrite length_encode, Hlen, Nat.leb_refl.
    rewrite (get_encode_other T T_ok) by discriminate.
    rewrite Hver, Z.eqb_refl. cbn [andb]. cbn zeta.
    rewrite (get_encode_other T T_ok) by discriminate.
    rewrite Hseg, (checksum_ok_encode T T_ok) by exact Hlen.
    rewrite take_ge by (rewrite length_encode; lia).
    reflexivity.
  - intros m Hm. apply (get_encode_other T T_ok). exact Hm.
  - intros i Hi. apply lookup_put_outside. exact Hi.
  - apply (get_crc_encode T T_ok). exact Hlen.
Qed.

Lemma encode_then_read_controlfile_witness :
  (target_ok pg17 = true
   /\ length sample = sizeof_ControlFileData pg17
   /\ get pg17 pg_control_version sample = PG_CONTROL_VERSION pg17
   /\ IsValidWalSegSize (get pg17 xlog_seg_size sample) = true)
  /\ read_controlfile pg17 (encode pg17 sample) (initial_globals pg17)
       = (true, {| ControlFile := encode pg17 sample; guessed := false |}, [])
  /\ (forall m, m <> crc -> get pg17 m (encode pg17 sample) = get pg17 m sample)
  /\ (forall i : nat, outside pg17 crc i -> encode pg17 sample !! i = sample !! i)
  /\ get pg17 crc (encode pg17 sample) = Crc32c.crc32c (take (offsetof pg17 crc) sample).
Proof.
  split.
  - vm_compute. repeat split; reflexivity.
  - apply (encode_then_read_controlfile pg17 sample); vm_compute; reflexivity.
Defined.

(** C1 as the spec has it fails twice: a record with another version is
    encoded into bytes that [read_controlfile] refuses, and a record whose
    checksum member is stale comes back with another checksum member. *)
Lemma roundtrip_every_field_counterexample :
  let stale := sample in
  let other_version := put pg17 pg_control_version 1201 sample in
  (length stale = sizeof_ControlFileData pg17
   /\ IsValidWalSegSize (get pg17 xlog_seg_size stale) = true
   /\ (read_controlfile pg17 (encode pg17 stale) (initial_globals pg17)).1.1 = true
   /\ get pg17 crc (ControlFile (read_controlfile pg17 (encode pg17 stale) (initial_globals pg17)).1.2)
        <> get pg17 crc stale)
  /\ (length other_version = sizeof_ControlFileData pg17
      /\ IsValidWalSegSize (get pg17 xlog_seg_size other_version) = true
      /\ (read_controlfile pg17 (encode pg17 other_version) (initial_globals pg17)).1.1 = false).
Proof.
  vm_compute. repeat split; discriminate.
Qed.

(** * The overrides *)

Lemma lookup_store_in be n off v img (i : nat) :
  (off <= i < off + n)%nat -> (off + n <= length img)%nat ->
  Mem.store be n off v img !! i = Mem.rev_if_be be (Mem.encode_int n v) !! (i - off)%nat.
Proof.
  intros Hi Hfit. unfold Mem.store.
  apply list_lookup_inserts.
  - rewrite MemFacts.length_rev_if_be, MemFacts.length_encode_int. lia.
  - lia.
Qed.

Lemma store_store_same be n off v w img :
  (off + n <= length img)%nat ->
  Mem.store be n off v (Mem.store be n off w img) = Mem.store be n off v img.
Proof.
  intros Hfit. apply list_eq. intros i.
  destruct (decide (off <= i < off + n)%nat) as [Hi|Hi].
  - rewrite !lookup_store_in by (rewrite ?MemFacts.length_store; lia). reflexivity.
  - rewrite !MemFacts.lookup_store_out by lia. reflexivity.
Qed.

Section Overrides.

Variable T : Target.
Hypothesis T_ok : target_ok T = true.

Local Abbreviation get := (get T).
Local Abbreviation put := (put T).

Lemma put_put_same m v w cf :
  length cf = sizeof_ControlFileData T -> put m v (put m w cf) = put m v cf.
Proof.
  intros Hlen. apply store_store_same.
  pose proof (member_fits T T_ok m). lia.
Qed.

Lemma get_nextXid_put v cf :
  length cf = sizeof_ControlFileData T -> 0 <= v < 2 ^ 64 ->
  get nextXid (put nextXid v cf) = v.
Proof.
  intros Hlen Hv. rewrite (get_put_same T T_ok) by exact Hlen.
  apply Z.mod_small. exact Hv.
Qed.

Lemma Xid_range x : 0 <= XidFromFullTransactionId x < 2 ^ 32.
Proof. apply u32_range. Qed.

Lemma Epoch_range x : 0 <= EpochFromFullTransactionId x < 2 ^ 32.
Proof. apply u32_range. Qed.

(** A 64-bit value is the pair of its two halves. *)
Lemma Full_of_halves x :
  0 <= x < 2 ^ 64 ->
  FullTransactionIdFromEpochAndXid (EpochFromFullTransactionId x) (XidFromFullTransactionId x) = x.
Proof.
  intros Hx. rewrite full_xid_sum by apply Xid_range.
  unfold EpochFromFullTransactionId, XidFromFullTransactionId, u32.
  rewrite Z.shiftr_div_pow2 by lia.
  rewrite (Z.mod_small (x / 2 ^ 32)).
  - pose proof (Z.div_mod x (2 ^ 32)). lia.
  - split; [apply Z.div_pos; lia|].
    apply Z.div_lt_upper_bound; lia.
Qed.

(** What the two setters of [nextXid] do when they fire. *)
Lemma override_xid_fires o cf :
  set_xid o <> 0 ->
  override_xid T o cf =
    put nextXid (FullTransactionIdFromEpochAndXid
                   (EpochFromFullTransactionId (get nextXid cf)) (set_xid o)) cf.
Proof.
  intros H. unfold override_xid.
  destruct (Z.eqb_spec (set_xid o) 0); [contradiction|reflexivity].
Qed.

Lemma override_epoch_fires o cf :
  set_xid_epoch o <> all_ones ->
  override_epoch T o cf =
    put nextXid (FullTransactionIdFromEpochAndXid
                   (set_xid_epoch o) (XidFromFullTransactionId (get nextXid cf))) cf.
Proof.
  intros H. unfold override_epoch.
  destruct (Z.eqb_spec (set_xid_epoch o) all_ones); [contradiction|reflexivity].
Qed.

End Overrides.

(** C3.  With an epoch [E] other than all-ones and a normal transaction id
    [X], the two setters of [nextXid] give the same record in either order,
    its [nextXid] has [E] in the high 32 bits and [X] in the low 32 bits,
    and each setter alone keeps the half of the other. *)
Theorem epoch_and_xid_independent (T : Target) (o : Options) (cf : list byte) (E X : Z) :
  target_ok T = true ->
  length cf = sizeof_ControlFileData T ->
  0 <= E < 2 ^ 32 -> E <> all_ones ->
  0 <= X < 2 ^ 32 -> TransactionIdIsNormal T X = true ->
  set_xid_epoch o = E -> set_xid o = X ->
  let epoch_then_xid := override_xid T o (override_epoch T o cf) in
  let xid_then_epoch := override_epoch T o (override_xid T o cf) in
  (get T nextXid epoch_then_xid = FullTransactionIdFromEpochAndXid E X
   /\ EpochFromFullTransactionId (get T nextXid epoch_then_xid) = E
   /\ XidFromFullTransactionId (get T nextXid epoch_then_xid) = X)
  /\ (get T nextXid xid_then_epoch = FullTransactionIdFromEpochAndXid E X
      /\ EpochFromFullTransactionId (get T nextXid xid_then_epoch) = E
      /\ XidFromFullTransactionId (get T nextXid xid_then_epoch) = X)
  /\ epoch_then_xid = xid_then_epoch
  /\ XidFromFullTransactionId (get T nextXid (override_epoch T o cf))
       = XidFromFullTransactionId (get T nextXid cf)
  /\ EpochFromFullTransactionId (get T nextXid (override_xid T o cf))
       = EpochFromFullTransactionId (get T nextXid cf).
Proof.
  intros T_ok Hlen HE HEne HX HXn HoE HoX.
  assert (HX0 : X <> 0).
  { pose proof (FirstNormalTransactionId_pos T T_ok).
    unfold TransactionIdIsNormal in HXn. apply Z.leb_le in HXn. lia. }
  pose proof (Epoch_range (get T nextXid cf)) as He0.
  pose proof (Xid_range (get T nextXid cf)) as Hx0.
  assert (Hee : override_epoch T o cf =
                put T nextXid (FullTransactionIdFromEpochAndXid E
                                 (XidFromFullTransactionId (get T nextXid cf))) cf).
  { rewrite override_epoch_fires by congruence. rewrite HoE. reflexivity. }
  assert (Hxx : override_xid T o cf =
                put T nextXid (FullTransactionIdFromEpochAndXid
                                 (EpochFromFullTransactionId (get T nextXid cf)) X) cf).
  { rewrite override_xid_fires by congruence. rewrite HoX. reflexivity. }
  assert (Ha : override_xid T o (override_epoch T o cf)
               = put T nextXid (FullTransactionIdFromEpochAndXid E X) cf).
  { rewrite override_xid_fires by congruence. rewrite HoX, Hee.
    rewrite (get_nextXid_put T T_ok) by (exact Hlen || (apply Full_range; lia)).
    rewrite Epoch_of_Full by lia.
    apply (put_put_same T T_ok). exact Hlen. }
  assert (Hb : override_epoch T o (override_xid T o cf)
               = put T nextXid (FullTransactionIdFromEpochAndXid E X) cf).
  { rewrite override_epoch_fires by congruence. rewrite HoE, Hxx.
    rewrite (get_nextXid_put T T_ok) by (exact Hlen || (apply Full_range; lia)).
    rewrite Xid_of_Full by lia.
    apply (put_put_same T T_ok). exact Hlen. }
  cbn zeta. rewrite Ha, Hb.
  rewrite (get_nextXid_put T T_ok) by (exact Hlen || (apply Full_range; lia)).
  rewrite Epoch_of_Full, Xid_of_Full by lia.
  repeat split.
  - rewrite Hee, (get_nextXid_put T T_ok) by (exact Hlen || (apply Full_range; lia)).
    apply Xid_of_Full. lia.
  - rewrite Hxx, (get_nextXid_put T T_ok) by (exact Hlen || (apply Full_range; lia)).
    apply Epoch_of_Full; lia.
Qed.

Lemma epoch_and_xid_independent_witness :
  (target_ok pg17 = true
   /\ length sample = sizeof_ControlFileData pg17
   /\ 0 <= 2 < 2 ^ 32 /\ 2 <> all_ones
   /\ 0 <= 5000 < 2 ^ 32 /\ TransactionIdIsNormal pg17 5000 = true
   /\ set_xid_epoch sample_options = 2 /\ set_xid sample_options = 5000)
  /\ get pg17 nextXid (override_epoch pg17 sample_options (override_xid pg17 sample_options sample))
     = FullTransactionIdFromEpochAndXid 2 5000.
Proof.
  split.
  - vm_compute. repeat split; congruence.
  - apply (epoch_and_xid_independent pg17 sample_options sample 2 5000);
      vm_compute; (reflexivity || (split; congruence) || congruence).
Defined.

(** Reading a member back through a chain of writes. *)
Ltac solve_length := repeat rewrite length_put; assumption.
Ltac get_put T_ok :=
  repeat first
    [ rewrite (get_put_other _ T_ok) by congruence
    | rewrite (get_put_same32 _ T_ok) by (discriminate || solve_length) ].

(** C4.  [-m next,oldest] is refused with the multitransaction error exactly
    when one of the two values is zero.  Otherwise the setter stores [next]
    in [nextMulti], stores in [oldestMulti] the value [oldest], plus
    [FirstMultiXactId] when [oldest] is below [FirstMultiXactId], sets
    [oldestMultiDB] to [InvalidOid], and changes no other member. *)
Theorem multixact_setter (T : Target) (o : Options) (n1 n2 : Z) (cf : list byte) :
  target_ok T = true ->
  length cf = sizeof_ControlFileData T ->
  match handle_option T (opt_m (Some n1) (Some n2)) o with
  | Fatal e => (u32 n1 = 0 \/ u32 n2 = 0) /\ e = ErrInvalidMultiTransactionId
  | Ok o' =>
      u32 n1 <> 0 /\ u32 n2 <> 0
      /\ let cf' := override_mxid T o' cf in
         get T nextMulti cf' = u32 n1
         /\ (u32 n2 < FirstMultiXactId T ->
             get T oldestMulti cf' = u32 n2 + FirstMultiXactId T)
         /\ (FirstMultiXactId T <= u32 n2 -> get T oldestMulti cf' = u32 n2)
         /\ get T oldestMultiDB cf' = InvalidOid
         /\ (forall m, m <> nextMulti -> m <> oldestMulti -> m <> oldestMultiDB ->
             get T m cf' = get T m cf)
  end.
Proof.
  intros T_ok Hlen. cbn [handle_option number bind].
  destruct (Z.eqb_spec (u32 n1) 0) as [H1|H1]; [split; [left; exact H1|reflexivity]|].
  destruct (Z.eqb_spec (u32 n2) 0) as [H2|H2]; [split; [right; exact H2|reflexivity]|].
  split; [exact H1|]. split; [exact H2|].
  pose proof (FirstMultiXactId_range T T_ok) as HF.
  pose proof (u32_range n2) as Hr2.
  unfold override_mxid. cbn [set_mxid set_oldestmxid].
  destruct (Z.eqb_spec (u32 n1) 0) as [|_]; [contradiction|].
  cbn zeta. get_put T_ok. rewrite !u32_idemp.
  destruct (Z.ltb_spec (u32 n2) (FirstMultiXactId T)) as [Hlt|Hge].
  - get_put T_ok. rewrite !u32_idemp.
    rewrite (u32_small (u32 n2 + FirstMultiXactId T)) by lia.
    repeat split; try reflexivity; try lia.
    intros m Hm1 Hm2 Hm3. get_put T_ok. reflexivity.
  - get_put T_ok. rewrite !u32_idemp.
    repeat split; try reflexivity; try lia.
    intros m Hm1 Hm2 Hm3. get_put T_ok. reflexivity.
Qed.

Lemma multixact_setter_witness :
  (target_ok pg17 = true /\ length sample = sizeof_ControlFileData pg17)
  /\ match handle_option pg17 (opt_m (Some 70000) (Some 65000)) no_options with
     | Fatal _ => False
     | Ok o' =>
         get pg17 nextMulti (override_mxid pg17 o' sample) = 70000
         /\ get pg17 oldestMulti (override_mxid pg17 o' sample) = 65000
         /\ get pg17 oldestMultiDB (override_mxid pg17 o' sample) = InvalidOid
     end.
Proof.
  split.
  - vm_compute. split; reflexivity.
  - pose proof (multixact_setter pg17 no_options 70000 65000 sample
                  ltac:(vm_compute; reflexivity) ltac:(vm_compute; reflexivity)) as H.
    destruct (handle_option pg17 (opt_m (Some 70000) (Some 65000)) no_options) as [o'|e].
    + destruct H as (_ & _ & Hn & _ & Ho & Hd & _).
      split; [exact Hn|]. split; [|exact Hd].
      apply Ho. vm_compute. discriminate.
    + destruct H as [[H|H] _]; vm_compute in H; discriminate.
Defined.

(** C6, amended.  [-c oldest,newest] is refused with the transaction id
    error exactly when one of the two values is neither 0 nor a normal id.
    Otherwise each of [oldestCommitTsXid] and [newestCommitTsXid] is replaced
    by its value when that value is not 0 and is left as it was when the
    value is 0, whatever the other value is; no other member changes. *)
Theorem commit_ts_setter (T : Target) (o : Options) (n1 n2 : Z) (cf : list byte) :
  target_ok T = true ->
  length cf = sizeof_ControlFileData T ->
  match handle_option T (opt_c (Some n1) (Some n2)) o with
  | Fatal e =>
      (zero_or_normal T (u32 n1) = false \/ zero_or_normal T (u32 n2) = false)
      /\ e = ErrInvalidTransactionId
  | Ok o' =>
      zero_or_normal T (u32 n1) = true /\ zero_or_normal T (u32 n2) = true
      /\ let cf' := override_commit_ts T o' cf in
         get T oldestCommitTsXid cf'
           = (if u32 n1 =? 0 then get T oldestCommitTsXid cf else u32 n1)
         /\ get T newestCommitTsXid cf'
           = (if u32 n2 =? 0 then get T newestCommitTsXid cf else u32 n2)
         /\ (forall m, m <> oldestCommitTsXid -> m <> newestCommitTsXid ->
             get T m cf' = get T m cf)
  end.
Proof.
  intros T_ok Hlen. cbn [handle_option number bind].
  unfold zero_or_normal, TransactionIdIsNormal, InvalidTransactionId.
  pose proof (FirstNormalTransactionId_pos T T_ok) as HF.
  destruct (Z.ltb_spec (u32 n1) (FirstNormalTransactionId T)) as [Ha|Ha];
    destruct (Z.eqb_spec (u32 n1) 0) as [Ha0|Ha0]; cbn [andb negb orb];
    try (split; [left; apply Z.leb_gt; lia|reflexivity]);
    (destruct (Z.ltb_spec (u32 n2) (FirstNormalTransactionId T)) as [Hb|Hb];
     destruct (Z.eqb_spec (u32 n2) 0) as [Hb0|Hb0]; cbn [andb negb orb];
     try (split; [right; apply Z.leb_gt; lia|reflexivity]));
    try lia;
    (split; [try reflexivity; apply Z.leb_le; lia|]);
    (split; [try reflexivity; apply Z.leb_le; lia|]);
    unfold override_commit_ts;
    cbn [set_oldest_commit_ts_xid set_newest_commit_ts_xid]; cbn zeta;
    rewrite ?Ha0, ?Hb0; cbn [Z.eqb];
    try (destruct (Z.eqb_spec (u32 n1) 0) as [|_]; [contradiction|]);
    try (destruct (Z.eqb_spec (u32 n2) 0) as [|_]; [contradiction|]);
    get_put T_ok; rewrite ?u32_idemp;
    (repeat split; try reflexivity; intros m Hm1 Hm2; get_put T_ok; reflexivity).
Qed.

Lemma commit_ts_setter_witness :
  let cf := put pg17 oldestCommitTsXid 7 sample in
  (target_ok pg17 = true /\ length cf = sizeof_ControlFileData pg17)
  /\ match handle_option pg17 (opt_c (Some 0) (Some 6000)) no_options with
     | Fatal _ => False
     | Ok o' =>
         get pg17 oldestCommitTsXid (override_commit_ts pg17 o' cf) = 7
         /\ get pg17 newestCommitTsXid (override_commit_ts pg17 o' cf) = 6000
     end.
Proof.
  intros cf. split.
  - vm_compute. split; reflexivity.
  - pose proof (commit_ts_setter pg17 no_options 0 6000 cf
                  ltac:(vm_compute; reflexivity) ltac:(vm_compute; reflexivity)) as H.
    destruct (handle_option pg17 (opt_c (Some 0) (Some 6000)) no_options) as [o'|e].
    + destruct H as (_ & _ & Ho & Hn & _). split; [exact Ho|exact Hn].
    + destruct H as [[H|H] _]; vm_compute in H; discriminate.
Defined.

(** C6 as the spec has it fails at the value 0: [-c 0,6000] is accepted,
    and afterwards [oldestCommitTsXid] is still 7, not the 0 supplied. *)
Lemma commit_ts_zero_counterexample :
  let cf := put pg17 oldestCommitTsXid 7 sample in
  zero_or_normal pg17 0 = true /\ zero_or_normal pg17 6000 = true
  /\ exists o',
       handle_option pg17 (opt_c (Some 0) (Some 6000)) no_options = Ok o'
       /\ get pg17 oldestCommitTsXid (override_commit_ts pg17 o' cf) = 7
       /\ get pg17 oldestCommitTsXid (override_commit_ts pg17 o' cf) <> 0.
Proof.
  intros cf. split; [reflexivity|]. split; [reflexivity|].
  eexists. split; [reflexivity|].
  split; [vm_compute; reflexivity|vm_compute; discriminate].
Qed.

(** C8.  The timeline step writes the resolved timeline into both
    [ThisTimeLineID] and [PrevTimeLineID] when it is greater than
    [ThisTimeLineID], and otherwise leaves the whole record as it is; in
    both cases no other member changes.  The step is a total function: it
    has no way to fail. *)
Theorem timeline_floor (T : Target) (minXlogTli : Z) (cf : list byte) :
  target_ok T = true ->
  length cf = sizeof_ControlFileData T ->
  0 <= minXlogTli < 2 ^ 32 ->
  let cf' := override_timeline T minXlogTli cf in
  (get T ThisTimeLineID cf < minXlogTli ->
   get T ThisTimeLineID cf' = minXlogTli /\ get T PrevTimeLineID cf' = minXlogTli)
  /\ (minXlogTli <= get T ThisTimeLineID cf -> cf' = cf)
  /\ (get T ThisTimeLineID cf' = minXlogTli /\ get T PrevTimeLineID cf' = minXlogTli /\ cf' <> cf
      -> get T ThisTimeLineID cf < minXlogTli)
  /\ (forall m, m <> ThisTimeLineID -> m <> PrevTimeLineID -> get T m cf' = get T m cf).
Proof.
  intros T_ok Hlen Hr. cbn zeta. unfold override_timeline.
  destruct (Z.ltb_spec (get T ThisTimeLineID cf) minXlogTli) as [Hlt|Hge].
  - get_put T_ok. rewrite (u32_small minXlogTli) by exact Hr.
    repeat split; try reflexivity; try lia.
    intros m Hm1 Hm2. get_put T_ok. reflexivity.
  - repeat split; try reflexivity; try lia.
    intros (_ & _ & Hne). congruence.
Qed.

Lemma resolved_timeline_range (T : Target) (o : Options) (cf : list byte) :
  0 <= resolved_timeline T o cf < 2 ^ 32.
Proof.
  unfold resolved_timeline. destruct (log_fname o); [apply u32_range|lia].
Qed.

Lemma timeline_floor_witness :
  (target_ok pg17 = true /\ length sample = sizeof_ControlFileData pg17
   /\ 0 <= 10 < 2 ^ 32 /\ get pg17 ThisTimeLineID sample < 10)
  /\ get pg17 ThisTimeLineID (override_timeline pg17 10 sample) = 10
  /\ get pg17 PrevTimeLineID (override_timeline pg17 10 sample) = 10.
Proof.
  split.
  - vm_compute. repeat split; congruence.
  - apply (timeline_floor pg17 10 sample); vm_compute;
      (reflexivity || (split; congruence)).
Defined.

(** * Rejected options *)

(** An option that no state of the loop accepts stops the loop, wherever it
    stands on the command line. *)
Lemma getopt_loop_refused (T : Target) (a : arg) (args : list arg) :
  (forall o, exists e, handle_option T a o = Fatal e) ->
  In a args ->
  forall o, exists e, getopt_loop T args o = Fatal e.
Proof.
  intros Hbad. induction args as [|b rest IH]; intros Hin o; [destruct Hin|].
  cbn [getopt_loop]. destruct Hin as [->|Hin].
  - destruct (Hbad o) as [e He]. rewrite He. exists e. reflexivity.
  - destruct (handle_option T b o) as [o'|e]; cbn [bind].
    + apply IH. exact Hin.
    + exists e. reflexivity.
Qed.

(** The options before the first refused one decide the state it sees. *)
Lemma getopt_loop_app (T : Target) (pre post : list arg) (o : Options) :
  getopt_loop T (pre ++ post) o = (o' <- getopt_loop T pre o ;; getopt_loop T post o').
Proof.
  revert o. induction pre as [|a pre IH]; intros o; cbn [getopt_loop app bind]; [reflexivity|].
  destruct (handle_option T a o) as [o'|e]; cbn [bind]; [apply IH|reflexivity].
Qed.

(** A refused option ends [main] before anything is read or written. *)
Lemma main_option_refused (T : Target) (cl : command_line) (f : gmap (list string) Fs.node) e :
  help cl = false ->
  getopt_loop T (options cl) no_options = Fatal e ->
  main T cl f = (Exit1 e, [], f).
Proof. intros Hh He. unfold main. rewrite Hh, He. reflexivity. Qed.

(** C7.  An all-ones value for [-e] or for [-O] is refused by the option
    loop, in whatever state, with the epoch or the offset error.  A run
    with such an option exits with status 1 before the control file is read:
    it logs no warning and leaves the file system as it was; the error is
    the epoch or the offset error when the options before it are accepted.
    And the two setters never store all-ones: each either leaves the record
    as it is or stores a value that is not all-ones. *)
Theorem sentinel_rejected (T : Target) (v : Z) :
  target_ok T = true ->
  u32 v = all_ones ->
  (forall o, handle_option T (opt_e (Some v)) o = Fatal ErrInvalidEpoch)
  /\ (forall o, handle_option T (opt_O (Some v)) o = Fatal ErrInvalidOffset)
  /\ (forall cl f,
        help cl = false ->
        In (opt_e (Some v)) (options cl) \/ In (opt_O (Some v)) (options cl) ->
        exists e, main T cl f = (Exit1 e, [], f))
  /\ (forall cl f pre post o,
        help cl = false ->
        getopt_loop T pre no_options = Ok o ->
        (options cl = pre ++ opt_e (Some v) :: post ->
         main T cl f = (Exit1 ErrInvalidEpoch, [], f))
        /\ (options cl = pre ++ opt_O (Some v) :: post ->
            main T cl f = (Exit1 ErrInvalidOffset, [], f)))
  /\ (forall o cf,
        length cf = sizeof_ControlFileData T ->
        0 <= set_xid_epoch o < 2 ^ 32 ->
        override_epoch T o cf = cf
        \/ EpochFromFullTransactionId (get T nextXid (override_epoch T o cf)) <> all_ones)
  /\ (forall o cf,
        length cf = sizeof_ControlFileData T ->
        0 <= set_mxoff o < 2 ^ 32 ->
        override_mxoff T o cf = cf
        \/ get T nextMultiOffset (override_mxoff T o cf) <> all_ones).
Proof.
  intros T_ok Hv.
  assert (He : forall o, handle_option T (opt_e (Some v)) o = Fatal ErrInvalidEpoch).
  { intros o. cbn [handle_option number bind]. rewrite Hv, Z.eqb_refl. reflexivity. }
  assert (HO : forall o, handle_option T (opt_O (Some v)) o = Fatal ErrInvalidOffset).
  { intros o. cbn [handle_option number bind]. rewrite Hv, Z.eqb_refl. reflexivity. }
  split; [exact He|]. split; [exact HO|].
  split; [|split; [|split]].
  - intros cl f Hh [Hin|Hin].
    + destruct (getopt_loop_refused T _ (options cl) (fun o => ex_intro _ _ (He o)) Hin no_options)
        as [e Hl].
      exists e. apply main_option_refused; assumption.
    + destruct (getopt_loop_refused T _ (options cl) (fun o => ex_intro _ _ (HO o)) Hin no_options)
        as [e Hl].
      exists e. apply main_option_refused; assumption.
  - intros cl f pre post o Hh Hpre. split; intros Hopts; apply main_option_refused;
      try exact Hh; rewrite Hopts, getopt_loop_app, Hpre; cbn [bind getopt_loop].
    + rewrite He. reflexivity.
    + rewrite HO. reflexivity.
  - intros o cf Hlen Hr.
    destruct (Z.eq_dec (set_xid_epoch o) all_ones) as [E|E].
    + left. unfold override_epoch. rewrite E, Z.eqb_refl. reflexivity.
    + right. rewrite override_epoch_fires by exact E.
      rewrite (get_nextXid_put T T_ok)
        by (exact Hlen || (apply Full_range; [exact Hr|apply Xid_range])).
      rewrite Epoch_of_Full by (exact Hr || apply Xid_range). exact E.
  - intros o cf Hlen Hr.
    destruct (Z.eq_dec (set_mxoff o) all_ones) as [E|E].
    + left. unfold override_mxoff. rewrite E, Z.eqb_refl. reflexivity.
    + right. unfold override_mxoff.
      destruct (Z.eqb_spec (set_mxoff o) all_ones) as [|_]; [contradiction|].
      get_put T_ok. rewrite u32_small by exact Hr. exact E.
Qed.

(** [strtoul] turns the text [-1] into [ULONG_MAX], which is all-ones as a
    [uint32]: the run stops at [-e -1], after [-D] and [-x] were accepted. *)
Lemma sentinel_rejected_witness :
  (target_ok pg17 = true /\ u32 (2 ^ 64 - 1) = all_ones)
  /\ main pg17
       {| help := false;
          options := [opt_D ["in"%string]; opt_x (Some 5000); opt_e (Some (2 ^ 64 - 1));
                      opt_d ["out"%string]];
          operands := [] |} ∅
     = (Exit1 ErrInvalidEpoch, [], ∅).
Proof.
  split.
  - vm_compute. split; reflexivity.
  - pose proof (sentinel_rejected pg17 (2 ^ 64 - 1)
                  ltac:(vm_compute; reflexivity) ltac:(vm_compute; reflexivity))
      as (_ & _ & _ & H & _).
    eapply (H _ ∅ [opt_D ["in"%string]; opt_x (Some 5000)] [opt_d ["out"%string]]).
    + reflexivity.
    + reflexivity.
    + reflexivity.
Defined.

(** * The WAL file name *)

(** The characters that [strspn] is asked to accept are the hexadecimal
    digits. *)
Lemma strchr_hex_digits c :
  strchr hex_digits c = true <-> hex_value c <> None.
Proof.
  destruct c as [[] [] [] [] [] [] [] []]; vm_compute; split; congruence.
Qed.

Lemma strspn_le_length s accept : (strspn s accept <= String.length s)%nat.
Proof.
  induction s as [|c s IH]; simpl; [lia|].
  destruct (strchr accept c); lia.
Qed.

Lemma strspn_all_hex s : all_hex s = true -> strspn s hex_digits = String.length s.
Proof.
  induction s as [|c s IH]; cbn [all_hex strspn String.length]; [reflexivity|].
  intros H. apply andb_true_iff in H. destruct H as [Hc Hs].
  rewrite Hc, (IH Hs). reflexivity.
Qed.

(** The hexadecimal run that [strspn] measures stops at the first other
    character, not at the end of the string. *)
Lemma strspn_append_other s c rest :
  all_hex s = true -> strchr hex_digits c = false ->
  strspn (s ++ String c rest) hex_digits = String.length s.
Proof.
  intros Hs Hc. induction s as [|d s IH].
  - change (String.append EmptyString (String c rest)) with (String c rest).
    cbn [strspn String.length]. rewrite Hc. reflexivity.
  - change (String.append (String d s) (String c rest))
      with (String d (String.append s (String c rest))).
    cbn [strspn String.length all_hex] in *.
    apply andb_true_iff in Hs. destruct Hs as [Hd Hs].
    rewrite Hd, (IH Hs). reflexivity.
Qed.

(** What [-l] accepts: the names whose leading run of hexadecimal digits has
    length [XLOG_FNAME_LEN]. *)
Lemma handle_option_l (T : Target) (fname : string) (o : Options) :
  (exists o', handle_option T (opt_l fname) o = Ok o')
  <-> strspn fname hex_digits = XLOG_FNAME_LEN T.
Proof.
  cbn [handle_option].
  destruct (Nat.eqb_spec (strspn fname hex_digits) (XLOG_FNAME_LEN T)) as [E|E]; cbn [negb].
  - split; [intros _; exact E|intros _; eexists; reflexivity].
  - split; [intros [o' H]; discriminate|intros H; contradiction].
Qed.

(** A name of exactly [XLOG_FNAME_LEN] hexadecimal digits is accepted, and
    a name of hexadecimal digits of any other length is refused. *)
Lemma handle_option_l_all_hex (T : Target) (fname : string) (o : Options) :
  all_hex fname = true ->
  (exists o', handle_option T (opt_l fname) o = Ok o')
  <-> String.length fname = XLOG_FNAME_LEN T.
Proof.
  intros H. rewrite handle_option_l, (strspn_all_hex fname H). reflexivity.
Qed.

(** A name shorter than [XLOG_FNAME_LEN] is refused. *)
Lemma handle_option_l_short (T : Target) (fname : string) (o : Options) :
  (String.length fname < XLOG_FNAME_LEN T)%nat ->
  handle_option T (opt_l fname) o = Fatal ErrInvalidFormat.
Proof.
  intros H. cbn [handle_option].
  pose proof (strspn_le_length fname hex_digits).
  destruct (Nat.eqb_spec (strspn fname hex_digits) (XLOG_FNAME_LEN T)); [lia|reflexivity].
Qed.

(** C9 fails on the code.  A name that starts with [XLOG_FNAME_LEN]
    hexadecimal digits and goes on with any other character is accepted:
    [strspn] stops at that character, and nothing checks that the name ends
    there. *)
Theorem wal_file_name_with_suffix_accepted :
  let fname := "000000010000000000000001.partial"%string in
  String.length fname = 32%nat
  /\ XLOG_FNAME_LEN pg17 = 24%nat
  /\ all_hex fname = false
  /\ (exists o', handle_option pg17 (opt_l fname) no_options = Ok o'
                 /\ log_fname o' = Some fname)
  /\ XLogFromFileName pg17 fname (16 * 1024 * 1024) = (1, 1).
Proof.
  cbn zeta. repeat split; try reflexivity.
  eexists. split; reflexivity.
Qed.

(** The same for every target and every such name. *)
Lemma wal_file_name_trailing_text (T : Target) (digits : string) (c : ascii) (rest : string)
    (o : Options) :
  all_hex digits = true ->
  String.length digits = XLOG_FNAME_LEN T ->
  strchr hex_digits c = false ->
  exists o', handle_option T (opt_l (digits ++ String c rest)) o = Ok o'.
Proof.
  intros Hd Hl Hc. apply handle_option_l.
  rewrite strspn_append_other by assumption. exact Hl.
Qed.

(** * The output directory *)

Lemma control_file_path_not_nil (dir : path) : dir ++ XLOG_CONTROL_FILE <> [].
Proof. intros H. apply (f_equal length) in H. rewrite length_app in H. simpl in H. lia. Qed.

Lemma control_file_path_not_dir (dir : path) : dir ++ XLOG_CONTROL_FILE <> dir.
Proof. intros H. apply (f_equal length) in H. rewrite length_app in H. simpl in H. lia. Qed.

Lemma control_file_path_not_global (dir : path) :
  dir ++ XLOG_CONTROL_FILE <> dir ++ ["global"%string].
Proof. intros H. apply (f_equal length) in H. rewrite !length_app in H. simpl in H. lia. Qed.

Lemma node_at_lookup (f : gmap (list string) Fs.node) (p : list string) :
  p <> [] -> Fs.node_at f p = f !! p.
Proof. destruct p; [congruence|reflexivity]. Qed.

(** A creation whose [EEXIST] is ignored either finds the name taken and
    changes nothing, or adds the node under a free name. *)
Lemma unless_exists_create (n : Fs.node) (p : list string) (f f1 : gmap (list string) Fs.node) :
  unless_exists (Fs.create n p f) f = Some f1 ->
  (Fs.node_at f p <> None /\ f1 = f)
  \/ (Fs.node_at f p = None /\ f1 = <[p := n]> f).
Proof.
  unfold unless_exists, Fs.create.
  destruct (Fs.node_at f p) as [k|] eqn:Hp.
  - cbn. intros H. injection H as <-. left. split; [discriminate|reflexivity].
  - destruct (Fs.node_at f (Fs.parent p)) as [[|c]|]; cbn; intros H;
      try discriminate.
    injection H as <-. right. split; reflexivity.
Qed.

Lemma unless_exists_create_other (n : Fs.node) (p q : list string) (f f1 : gmap (list string) Fs.node) :
  unless_exists (Fs.create n p f) f = Some f1 -> q <> p -> f1 !! q = f !! q.
Proof.
  intros H Hq. apply unless_exists_create in H. destruct H as [[_ ->]|[_ ->]].
  - reflexivity.
  - apply lookup_insert_ne. congruence.
Qed.

(** C5, amended.  When [make_datadir_out_if_not_exists] returns, the record
    file exists: a node that was already there under that name is left as it
    was (the exclusive create fails with [EEXIST], which is not an error),
    and otherwise an empty file has been created.  [update_controlfile] then
    writes the encoded record to that file, once, whether it was created by
    this run or was there before; the content it had before is gone. *)
Theorem record_file_created_then_written (T : Target) (pgdata_out : path) (cf : list byte)
    (f f1 : gmap (list string) Fs.node) :
  make_datadir_out_if_not_exists pgdata_out f = (None, f1) ->
  let p := pgdata_out ++ XLOG_CONTROL_FILE in
  (forall n, f !! p = Some n -> f1 !! p = Some n)
  /\ (f !! p = None -> f1 !! p = Some (Fs.File []))
  /\ (forall old, f1 !! p = Some (Fs.File old) ->
      update_controlfile T pgdata_out cf f1 = Some (<[p := Fs.File (encode T cf)]> f1))
  /\ (f1 !! p = Some Fs.Dir -> update_controlfile T pgdata_out cf f1 = None).
Proof.
  unfold make_datadir_out_if_not_exists, Fs.mkdir, Fs.open_excl_creat.
  destruct (unless_exists (Fs.create Fs.Dir pgdata_out f) f) as [g1|] eqn:H1; [|discriminate].
  destruct (unless_exists (Fs.create Fs.Dir (pgdata_out ++ ["global"%string]) g1) g1)
    as [g2|] eqn:H2; [|discriminate].
  destruct (unless_exists (Fs.create (Fs.File []) (pgdata_out ++ XLOG_CONTROL_FILE) g2) g2)
    as [g3|] eqn:H3; [|discriminate].
  intros H. injection H as <-. cbn zeta.
  set (p := pgdata_out ++ XLOG_CONTROL_FILE) in *.
  assert (Hp1 : g1 !! p = f !! p).
  { apply (unless_exists_create_other _ _ _ _ _ H1), control_file_path_not_dir. }
  assert (Hp2 : g2 !! p = f !! p).
  { rewrite <- Hp1.
    apply (unless_exists_create_other _ _ _ _ _ H2), control_file_path_not_global. }
  apply unless_exists_create in H3.
  rewrite node_at_lookup in H3 by apply control_file_path_not_nil.
  split; [|split; [|split]].
  - intros n Hn. destruct H3 as [[_ ->]|[Hnone _]]; congruence.
  - intros Hn. destruct H3 as [[Hsome _]|[_ ->]]; [congruence|].
    apply lookup_insert_eq.
  - intros old Hold. unfold update_controlfile, Fs.write_file. fold p.
    rewrite node_at_lookup by apply control_file_path_not_nil.
    rewrite Hold. reflexivity.
  - intros Hd. unfold update_controlfile, Fs.write_file. fold p.
    rewrite node_at_lookup by apply control_file_path_not_nil.
    rewrite Hd. reflexivity.
Qed.

Lemma record_file_created_then_written_witness :
  let p := ["out"; "global"; "pg_control"]%string in
  let f1 := (make_datadir_out_if_not_exists ["out"%string] sample_fs).2 in
  make_datadir_out_if_not_exists ["out"%string] sample_fs = (None, f1)
  /\ f1 !! p = Some (Fs.File old_content)
  /\ update_controlfile pg17 ["out"%string] sample f1
       = Some (<[p := Fs.File (encode pg17 sample)]> f1).
Proof.
  intros p f1.
  assert (H : make_datadir_out_if_not_exists ["out"%string] sample_fs = (None, f1))
    by (vm_compute; reflexivity).
  split; [exact H|].
  destruct (record_file_created_then_written pg17 ["out"%string] sample sample_fs f1 H)
    as (Hkeep & _ & Hwrite & _).
  assert (Hold : f1 !! p = Some (Fs.File old_content)).
  { apply Hkeep. vm_compute. reflexivity. }
  split; [exact Hold|].
  apply (Hwrite old_content). exact Hold.
Defined.

(** C5 as the spec has it fails: with a record file already in the output
    directory, the run succeeds without a warning, the exclusive create did
    not create the file, and the file's old content has been replaced. *)
Lemma existing_record_file_counterexample :
  let p := ["out"; "global"; "pg_control"]%string in
  sample_fs !! p = Some (Fs.File old_content)
  /\ Fs.open_excl_creat p sample_fs = inl Fs.EEXIST
  /\ (main pg17 sample_command_line sample_fs).1 = (Exit0, [])
  /\ (main pg17 sample_command_line sample_fs).2 !! p = Some (Fs.File (encode pg17 sample))
  /\ encode pg17 sample <> old_content.
Proof.
  cbn zeta. split; [vm_compute; reflexivity|].
  split; [vm_compute; reflexivity|].
  split; [vm_compute; reflexivity|].
  split; [vm_compute; reflexivity|].
  vm_compute. discriminate.
Qed.

(** * The stored checksum does not reach the output *)

(** A write puts the same bytes into two images of the same length. *)
Lemma lookup_store_agree be n off v (a b : list byte) (i : nat) :
  length a = length b ->
  (off <= i < off + n)%nat \/ a !! i = b !! i ->
  Mem.store be n off v a !! i = Mem.store be n off v b !! i.
Proof.
  intros Hlen Hi.
  destruct (decide (off <= i < off + n)%nat) as [Hin|Hout].
  - destruct (decide (i < length a)%nat) as [Hlt|Hge].
    + unfold Mem.store.
      rewrite !list_lookup_inserts
        by (rewrite ?MemFacts.length_rev_if_be, ?MemFacts.length_encode_int; lia).
      reflexivity.
    + rewrite !(lookup_ge_None_2 (Mem.store _ _ _ _ _))
        by (rewrite MemFacts.length_store; lia).
      reflexivity.
  - destruct Hi as [Hi|Hi]; [contradiction|].
    rewrite !MemFacts.lookup_store_out by lia. exact Hi.
Qed.

Section Noninterference.

Variable T : Target.
Hypothesis T_ok : target_ok T = true.

Local Abbreviation get := (get T).
Local Abbreviation put := (put T).
Local Abbreviation sim := (same_except_crc T).

Lemma sim_refl x : sim x x.
Proof. split; reflexivity. Qed.

Lemma sim_get m x y : sim x y -> m <> crc -> get m x = get m y.
Proof.
  intros [_ H] Hm. apply get_ext. intros i Hi. apply H.
  pose proof (members_disjoint T T_ok m crc Hm) as Hd.
  unfold outside in *. lia.
Qed.

Lemma sim_put m v x y : sim x y -> sim (put m v x) (put m v y).
Proof.
  intros [Hlen H]. split.
  - rewrite !length_put. exact Hlen.
  - intros i Hi. apply lookup_store_agree; [exact Hlen|].
    right. apply H. exact Hi.
Qed.

Lemma sim_take (n : nat) x y : sim x y -> sim (take n x) (take n y).
Proof.
  intros [Hlen H]. split.
  - rewrite !length_take. lia.
  - intros i Hi. rewrite !lookup_take.
    destruct (decide (i < n)%nat); [apply H; exact Hi|reflexivity].
Qed.

Lemma sim_override_oid o x y : sim x y -> sim (override_oid T o x) (override_oid T o y).
Proof.
  intros H. unfold override_oid.
  destruct (set_oid o =? 0); [exact H|apply sim_put; exact H].
Qed.

Lemma sim_override_xid o x y : sim x y -> sim (override_xid T o x) (override_xid T o y).
Proof.
  intros H. unfold override_xid.
  destruct (set_xid o =? 0); [exact H|].
  rewrite (sim_get nextXid x y H) by discriminate. apply sim_put; exact H.
Qed.

Lemma sim_override_mxid o x y : sim x y -> sim (override_mxid T o x) (override_mxid T o y).
Proof.
  intros H. unfold override_mxid.
  destruct (set_mxid o =? 0); [exact H|]. cbn zeta.
  assert (H2 : sim (put oldestMulti (set_oldestmxid o) (put nextMulti (set_mxid o) x))
                   (put oldestMulti (set_oldestmxid o) (put nextMulti (set_mxid o) y)))
    by (do 2 apply sim_put; exact H).
  rewrite (sim_get oldestMulti _ _ H2) by discriminate.
  apply sim_put.
  destruct (_ <? FirstMultiXactId T); [apply sim_put|]; exact H2.
Qed.

Lemma sim_override_mxoff o x y : sim x y -> sim (override_mxoff T o x) (override_mxoff T o y).
Proof.
  intros H. unfold override_mxoff.
  destruct (set_mxoff o =? all_ones); [exact H|apply sim_put; exact H].
Qed.

Lemma sim_override_timeline tli x y :
  sim x y -> sim (override_timeline T tli x) (override_timeline T tli y).
Proof.
  intros H. unfold override_timeline.
  rewrite (sim_get ThisTimeLineID x y H) by discriminate.
  destruct (_ <? tli); [do 2 apply sim_put|]; exact H.
Qed.

Lemma sim_override_commit_ts o x y :
  sim x y -> sim (override_commit_ts T o x) (override_commit_ts T o y).
Proof.
  intros H. unfold override_commit_ts. cbn zeta.
  destruct (set_oldest_commit_ts_xid o =? 0), (set_newest_commit_ts_xid o =? 0);
    repeat apply sim_put; exact H.
Qed.

Lemma sim_override_epoch o x y : sim x y -> sim (override_epoch T o x) (override_epoch T o y).
Proof.
  intros H. unfold override_epoch.
  destruct (set_xid_epoch o =? all_ones); [exact H|].
  rewrite (sim_get nextXid x y H) by discriminate. apply sim_put; exact H.
Qed.

Lemma sim_override_oldest_xid o x y :
  sim x y -> sim (override_oldest_xid T o x) (override_oldest_xid T o y).
Proof.
  intros H. unfold override_oldest_xid.
  destruct (set_oldest_xid o =? 0); [exact H|do 2 apply sim_put; exact H].
Qed.

Lemma sim_override_wal_segsize o sz x y :
  sim x y -> sim (override_wal_segsize T o sz x) (override_wal_segsize T o sz y).
Proof.
  intros H. unfold override_wal_segsize.
  destruct (set_wal_segsize o =? 0); [exact H|apply sim_put; exact H].
Qed.

(** The overrides read every member but the checksum, and write none of its
    bytes. *)
Lemma sim_override o x y : sim x y -> sim (override T o x) (override T o y).
Proof.
  intros H. unfold override, resolved_timeline, effective_WalSegSz. cbn zeta.
  rewrite (sim_get xlog_seg_size x y H) by discriminate.
  apply sim_override_wal_segsize, sim_override_oldest_xid, sim_override_epoch,
    sim_override_commit_ts, sim_override_timeline, sim_override_mxoff,
    sim_override_mxid, sim_override_xid, sim_override_oid, H.
Qed.

(** Encoding forgets the stored checksum. *)
Lemma sim_encode x y : sim x y -> encode T x = encode T y.
Proof.
  intros H. pose proof H as [Hlen Hout]. unfold encode.
  assert (Ht : take (offsetof T crc) x = take (offsetof T crc) y).
  { apply list_eq. intros i. rewrite !lookup_take.
    destruct (decide (i < offsetof T crc)%nat) as [Hi|Hi]; [|reflexivity].
    apply Hout. left. exact Hi. }
  rewrite Ht. apply list_eq. intros i.
  apply lookup_store_agree; [exact Hlen|].
  destruct (decide (offsetof T crc <= i < offsetof T crc + sizeof_member crc)%nat) as [Hi|Hi].
  - left. exact Hi.
  - right. apply Hout. unfold outside. lia.
Qed.

(** Reading: the two files are accepted or refused together, the structs
    read differ at most in the checksum member, and so do the warnings at
    most in the warning about the checksum. *)
Lemma sim_read_controlfile x y g :
  sim x y ->
  (read_controlfile T x g).1.1 = (read_controlfile T y g).1.1
  /\ sim (ControlFile (read_controlfile T x g).1.2) (ControlFile (read_controlfile T y g).1.2)
  /\ other_warnings (read_controlfile T x g).2 = other_warnings (read_controlfile T y g).2.
Proof.
  intros H. pose proof H as [Hlen _].
  rewrite !(read_controlfile_unfold T T_ok).
  rewrite <- Hlen.
  rewrite <- (sim_get pg_control_version x y H) by discriminate.
  rewrite <- (sim_get xlog_seg_size x y H) by discriminate.
  destruct ((sizeof_ControlFileData T <=? length x)%nat
            && (get pg_control_version x =? PG_CONTROL_VERSION T)).
  - cbn zeta.
    destruct (IsValidWalSegSize (get xlog_seg_size x));
      destruct (checksum_ok T x); destruct (checksum_ok T y); cbn;
      (split; [reflexivity|split; [apply sim_take; exact H|reflexivity]]).
  - cbn. split; [reflexivity|split; [apply sim_refl|reflexivity]].
Qed.

End Noninterference.

Section NoninterferenceFs.

Variable T : Target.
Hypothesis T_ok : target_ok T = true.
Variable pin : list string.

Local Abbreviation fsim := (same_except_file T pin).

Lemma fsim_node_at (f1 f2 : gmap (list string) Fs.node) (q : list string) :
  fsim f1 f2 ->
  Fs.node_at f1 q = Fs.node_at f2 q
  \/ (exists x y, Fs.node_at f1 q = Some (Fs.File x) /\ Fs.node_at f2 q = Some (Fs.File y)
                  /\ same_except_crc T x y).
Proof.
  intros H. destruct q as [|c q]; [left; reflexivity|].
  cbn [Fs.node_at]. destruct (H (c :: q)) as [E|(_ & x & y & Hx & Hy & Hxy)].
  - left. exact E.
  - right. exists x, y. auto.
Qed.

Lemma fsim_insert (f1 f2 : gmap (list string) Fs.node) (q : list string) (n : Fs.node) :
  fsim f1 f2 -> fsim (<[q := n]> f1) (<[q := n]> f2).
Proof.
  intros H q'. destruct (decide (q = q')) as [<-|Hne].
  - left. rewrite !lookup_insert_eq. reflexivity.
  - rewrite !lookup_insert_ne by exact Hne. apply H.
Qed.

Lemma fsim_create (n : Fs.node) (q : list string) (f1 f2 : gmap (list string) Fs.node) :
  fsim f1 f2 ->
  match Fs.create n q f1, Fs.create n q f2 with
  | inl e1, inl e2 => e1 = e2
  | inr g1, inr g2 => fsim g1 g2
  | _, _ => False
  end.
Proof.
  intros H. unfold Fs.create.
  destruct (fsim_node_at f1 f2 q H) as [E|(x & y & -> & -> & _)]; [|reflexivity].
  rewrite <- E. destruct (Fs.node_at f1 q); [reflexivity|].
  destruct (fsim_node_at f1 f2 (Fs.parent q) H) as [E'|(x & y & -> & -> & _)]; [|reflexivity].
  rewrite <- E'. destruct (Fs.node_at f1 (Fs.parent q)) as [[|c]|]; try reflexivity.
  apply fsim_insert. exact H.
Qed.

Lemma fsim_unless_exists (n : Fs.node) (q : list string) (f1 f2 : gmap (list string) Fs.node) :
  fsim f1 f2 ->
  match unless_exists (Fs.create n q f1) f1, unless_exists (Fs.create n q f2) f2 with
  | Some g1, Some g2 => fsim g1 g2
  | None, None => True
  | _, _ => False
  end.
Proof.
  intros H. pose proof (fsim_create n q f1 f2 H) as Hc. unfold unless_exists.
  destruct (Fs.create n q f1) as [e1|g1], (Fs.create n q f2) as [e2|g2];
    try contradiction; [|exact Hc].
  subst e2. destruct (bool_decide (e1 = Fs.EEXIST)); [exact H|exact I].
Qed.

Lemma fsim_make_datadir (pgdata_out : path) (f1 f2 : gmap (list string) Fs.node) :
  fsim f1 f2 ->
  (make_datadir_out_if_not_exists pgdata_out f1).1
    = (make_datadir_out_if_not_exists pgdata_out f2).1
  /\ fsim (make_datadir_out_if_not_exists pgdata_out f1).2
          (make_datadir_out_if_not_exists pgdata_out f2).2.
Proof.
  intros H. unfold make_datadir_out_if_not_exists, Fs.mkdir, Fs.open_excl_creat.
  pose proof (fsim_unless_exists Fs.Dir pgdata_out f1 f2 H) as H1.
  destruct (unless_exists (Fs.create Fs.Dir pgdata_out f1) f1) as [g1|],
           (unless_exists (Fs.create Fs.Dir pgdata_out f2) f2) as [g2|];
    try contradiction; [|split; [reflexivity|exact H]].
  pose proof (fsim_unless_exists Fs.Dir (pgdata_out ++ ["global"%string]) g1 g2 H1) as H2.
  destruct (unless_exists (Fs.create Fs.Dir (pgdata_out ++ ["global"%string]) g1) g1) as [h1|],
           (unless_exists (Fs.create Fs.Dir (pgdata_out ++ ["global"%string]) g2) g2) as [h2|];
    try contradiction; [|split; [reflexivity|exact H1]].
  pose proof (fsim_unless_exists (Fs.File []) (pgdata_out ++ XLOG_CONTROL_FILE) h1 h2 H2) as H3.
  destruct (unless_exists (Fs.create (Fs.File []) (pgdata_out ++ XLOG_CONTROL_FILE) h1) h1) as [k1|],
           (unless_exists (Fs.create (Fs.File []) (pgdata_out ++ XLOG_CONTROL_FILE) h2) h2) as [k2|];
    try contradiction; [|split; [reflexivity|exact H2]].
  split; [reflexivity|exact H3].
Qed.

Lemma fsim_read_file (p : list string) (f1 f2 : gmap (list string) Fs.node) :
  fsim f1 f2 ->
  match Fs.read_file p f1, Fs.read_file p f2 with
  | inr x, inr y => same_except_crc T x y
  | inl _, inl _ => True
  | _, _ => False
  end.
Proof.
  intros H. unfold Fs.read_file.
  destruct (fsim_node_at f1 f2 p H) as [E|(x & y & -> & -> & Hxy)]; [|exact Hxy].
  rewrite <- E. destruct (Fs.node_at f1 p) as [[|c]|]; try exact I.
  apply sim_refl.
Qed.

Lemma fsim_update_controlfile (DataDir : path) (c1 c2 : list byte)
    (f1 f2 : gmap (list string) Fs.node) :
  fsim f1 f2 -> encode T c1 = encode T c2 ->
  match update_controlfile T DataDir c1 f1, update_controlfile T DataDir c2 f2 with
  | Some h1, Some h2 =>
      fsim h1 h2
      /\ h1 !! (DataDir ++ XLOG_CONTROL_FILE) = Some (Fs.File (encode T c1))
      /\ h2 !! (DataDir ++ XLOG_CONTROL_FILE) = Some (Fs.File (encode T c1))
  | None, None => True
  | _, _ => False
  end.
Proof.
  intros H He. unfold update_controlfile, Fs.write_file. rewrite <- He.
  destruct (fsim_node_at f1 f2 (DataDir ++ XLOG_CONTROL_FILE) H)
    as [E|(x & y & -> & -> & _)].
  - rewrite <- E. destruct (Fs.node_at f1 (DataDir ++ XLOG_CONTROL_FILE)) as [[|c]|];
      try exact I.
    split; [apply fsim_insert; exact H|]. rewrite !lookup_insert_eq. split; reflexivity.
  - split; [apply fsim_insert; exact H|]. rewrite !lookup_insert_eq. split; reflexivity.
Qed.

End NoninterferenceFs.

(** C10.  Two runs with the same command line, on file systems that are the
    same except in the stored checksum of one file, end with the same exit
    status, with the same warnings apart from the one about the checksum,
    and with file systems that are again the same except in the stored
    checksum of that file; and when they succeed, the record file they wrote
    (a run that is not a request for help) is the same, byte for byte.  The
    flag [guessed] is assigned and never read. *)
Theorem checksum_noninterference (T : Target) (cl : command_line) (pin : list string)
    (f1 f2 : gmap (list string) Fs.node) :
  target_ok T = true ->
  same_except_file T pin f1 f2 ->
  (main T cl f1).1.1 = (main T cl f2).1.1
  /\ other_warnings (main T cl f1).1.2 = other_warnings (main T cl f2).1.2
  /\ same_except_file T pin (main T cl f1).2 (main T cl f2).2
  /\ (forall o pgdata_out,
        help cl = false ->
        getopt_loop T (options cl) no_options = Ok o ->
        DataDirOut o = Some pgdata_out ->
        (main T cl f1).1.1 = Exit0 ->
        exists payload,
          (main T cl f1).2 !! (pgdata_out ++ XLOG_CONTROL_FILE) = Some (Fs.File payload)
          /\ (main T cl f2).2 !! (pgdata_out ++ XLOG_CONTROL_FILE) = Some (Fs.File payload))
  /\ (forall x y g,
        same_except_crc T x y ->
        (read_controlfile T x g).1.1 = (read_controlfile T y g).1.1
        /\ same_except_crc T (ControlFile (read_controlfile T x g).1.2)
                              (ControlFile (read_controlfile T y g).1.2)).
Proof.
  intros T_ok H.
  assert (Hdec : forall x y g,
             same_except_crc T x y ->
             (read_controlfile T x g).1.1 = (read_controlfile T y g).1.1
             /\ same_except_crc T (ControlFile (read_controlfile T x g).1.2)
                                   (ControlFile (read_controlfile T y g).1.2)).
  { intros x y g Hxy. destruct (sim_read_controlfile T T_ok x y g Hxy) as (H1 & H2 & _).
    split; assumption. }
  cut ((main T cl f1).1.1 = (main T cl f2).1.1
       /\ other_warnings (main T cl f1).1.2 = other_warnings (main T cl f2).1.2
       /\ same_except_file T pin (main T cl f1).2 (main T cl f2).2
       /\ (forall o pgdata_out,
             help cl = false ->
             getopt_loop T (options cl) no_options = Ok o ->
             DataDirOut o = Some pgdata_out ->
             (main T cl f1).1.1 = Exit0 ->
             exists payload,
               (main T cl f1).2 !! (pgdata_out ++ XLOG_CONTROL_FILE) = Some (Fs.File payload)
               /\ (main T cl f2).2 !! (pgdata_out ++ XLOG_CONTROL_FILE) = Some (Fs.File payload))).
  { intros (A & B & C & D).
    split; [exact A|]. split; [exact B|]. split; [exact C|]. split; [exact D|exact Hdec]. }
  clear Hdec. unfold main.
  destruct (help cl); [cbn; repeat split; try exact H; intros; discriminate|].
  destruct (getopt_loop T (options cl) no_options) as [o|e];
    [|cbn; repeat split; try exact H; intros; discriminate].
  destruct (operands cl); [|cbn; repeat split; try exact H; intros; discriminate].
  destruct (DataDirIn o) as [pgdata_in|];
    [|cbn; repeat split; try exact H; intros; discriminate].
  destruct (DataDirOut o) as [pgdata_out|] eqn:Hdo;
    [|cbn; repeat split; try exact H; intros; discriminate].
  pose proof (fsim_read_file T pin (pgdata_in ++ XLOG_CONTROL_FILE) f1 f2 H) as Hr.
  destruct (Fs.read_file (pgdata_in ++ XLOG_CONTROL_FILE) f1) as [e1|x],
           (Fs.read_file (pgdata_in ++ XLOG_CONTROL_FILE) f2) as [e2|y];
    try contradiction; [cbn; repeat split; try exact H; intros; discriminate|].
  destruct (sim_read_controlfile T T_ok x y (initial_globals T) Hr) as (Hok & Hcf & Hw).
  destruct (read_controlfile T x (initial_globals T)) as [[ok1 g1] w1].
  destruct (read_controlfile T y (initial_globals T)) as [[ok2 g2] w2].
  cbn [fst snd] in Hok, Hcf, Hw. subst ok2.
  destruct ok1; cbn [negb];
    [|cbn; repeat split; try exact H; try exact Hw; intros; discriminate].
  pose proof (sim_encode T _ _ (sim_override T T_ok o _ _ Hcf)) as Henc.
  destruct (fsim_make_datadir T pin pgdata_out f1 f2 H) as [Hm1 Hm2].
  destruct (make_datadir_out_if_not_exists pgdata_out f1) as [r1 k1].
  destruct (make_datadir_out_if_not_exists pgdata_out f2) as [r2 k2].
  cbn [fst snd] in Hm1, Hm2. subst r2.
  destruct r1 as [e|];
    [cbn; repeat split; try exact Hm2; try exact Hw; intros; discriminate|].
  pose proof (fsim_update_controlfile T pin pgdata_out _ _ k1 k2 Hm2 Henc) as Hu.
  destruct (update_controlfile T pgdata_out (override T o (ControlFile g1)) k1) as [h1|],
           (update_controlfile T pgdata_out (override T o (ControlFile g2)) k2) as [h2|];
    try contradiction;
    [|cbn; repeat split; try exact Hm2; try exact Hw; intros; discriminate].
  destruct Hu as (Hs & Hp1 & Hp2).
  cbn [fst snd]. split; [reflexivity|]. split; [exact Hw|]. split; [exact Hs|].
  intros o' out' _ Ho' Hout' _. injection Ho' as <-.
  rewrite Hdo in Hout'. injection Hout' as <-.
  eexists. split; [exact Hp1|exact Hp2].
Qed.

Lemma sample_fs_same_except_file :
  same_except_file pg17 ["in"; "global"; "pg_control"]%string sample_fs sample_fs_stale.
Proof.
  intros q. unfold sample_fs_stale.
  destruct (decide (q = ["in"; "global"; "pg_control"]%string)) as [->|Hne].
  - right. split; [reflexivity|].
    exists (encode pg17 sample), sample.
    split; [vm_compute; reflexivity|].
    split; [apply lookup_insert_eq|].
    split; [apply length_encode|].
    intros i Hi. apply lookup_put_outside. exact Hi.
  - left. symmetry. apply lookup_insert_ne. congruence.
Qed.

(** The run on the input with the good checksum is silent, the run on the
    input with the stale checksum warns, and both write the same record. *)
Lemma checksum_noninterference_witness :
  (target_ok pg17 = true
   /\ same_except_file pg17 ["in"; "global"; "pg_control"]%string sample_fs sample_fs_stale)
  /\ (main pg17 sample_command_line sample_fs).1 = (Exit0, [])
  /\ (main pg17 sample_command_line sample_fs_stale).1 = (Exit0, [WarnInvalidCrc])
  /\ exists payload,
       (main pg17 sample_command_line sample_fs).2 !! ["out"; "global"; "pg_control"]%string
         = Some (Fs.File payload)
       /\ (main pg17 sample_command_line sample_fs_stale).2 !! ["out"; "global"; "pg_control"]%string
         = Some (Fs.File payload).
Proof.
  split; [split; [vm_compute; reflexivity|exact sample_fs_same_except_file]|].
  split; [vm_compute; reflexivity|].
  split; [vm_compute; reflexivity|].
  destruct (checksum_noninterference pg17 sample_command_line
              ["in"; "global"; "pg_control"]%string sample_fs sample_fs_stale
              ltac:(vm_compute; reflexivity) sample_fs_same_except_file)
    as (_ & _ & _ & Hout & _).
  eapply (Hout _ ["out"%string]); vm_compute; reflexivity.
Defined.

(** * The scenario of the spec *)

(** An input record with [nextOid] 100, epoch 0, transaction id 1000 and
    16 MiB segments, edited with [-x 5000 -e 2]: the run succeeds, and the
    record file it writes is read back without a warning, with [nextOid] 100,
    epoch 2, transaction id 5000 and 16 MiB segments. *)
Example end_to_end :
  let cl := {| help := false;
               options := [opt_D ["in"%string]; opt_d ["new"%string];
                           opt_x (Some 5000); opt_e (Some 2)];
               operands := [] |} in
  let run := main pg17 cl sample_fs in
  run.1 = (Exit0, [])
  /\ exists out,
       run.2 !! ["new"; "global"; "pg_control"]%string = Some (Fs.File out)
       /\ read_controlfile pg17 out (initial_globals pg17)
            = (true, {| ControlFile := out; guessed := false |}, [])
       /\ get pg17 nextOid out = 100
       /\ EpochFromFullTransactionId (get pg17 nextXid out) = 2
       /\ XidFromFullTransactionId (get pg17 nextXid out) = 5000
       /\ get pg17 xlog_seg_size out = 16 * 1024 * 1024.
Proof.
  cbn zeta. split; [vm_compute; reflexivity|].
  eexists. split; [vm_compute; reflexivity|].
  vm_compute. repeat split; reflexivity.
Qed.

(** * What the overrides leave alone *)

Section Frame.

Variable T : Target.
Hypothesis T_ok : target_ok T = true.

Local Abbreviation get := (get T).
Local Abbreviation put := (put T).

Lemma changes_only_refl ms cf : changes_only T ms cf cf.
Proof. split; reflexivity. Qed.

Lemma changes_only_put ms m v cf : In m ms -> changes_only T ms cf (put m v cf).
Proof.
  intros Hin. split; [apply length_put|].
  intros i Hi. apply lookup_put_outside, Hi, Hin.
Qed.

Lemma changes_only_trans ms a b c :
  changes_only T ms a b -> changes_only T ms b c -> changes_only T ms a c.
Proof.
  intros [Hl1 H1] [Hl2 H2]. split; [congruence|].
  intros i Hi. rewrite (H2 i Hi). apply H1, Hi.
Qed.

Lemma changes_only_incl ms ms' a b :
  incl ms ms' -> changes_only T ms a b -> changes_only T ms' a b.
Proof.
  intros Hincl [Hl H]. split; [exact Hl|].
  intros i Hi. apply H. intros m Hm. apply Hi, Hincl, Hm.
Qed.

(** A member that is not among the changed ones keeps its value. *)
Lemma changes_only_get ms m a b :
  changes_only T ms a b -> ~ In m ms -> get m b = get m a.
Proof.
  intros [_ H] Hm. apply get_ext. intros i Hi. apply H.
  intros m' Hm'. assert (Hne : m <> m') by congruence.
  pose proof (members_disjoint T T_ok m m' Hne). unfold outside in *. lia.
Qed.

Ltac changes :=
  repeat first
    [ apply changes_only_refl
    | apply changes_only_put; simpl; tauto
    | eapply changes_only_trans; [|apply changes_only_put; simpl; tauto] ].

Lemma changes_override_oid o cf :
  changes_only T [nextOid] cf (override_oid T o cf).
Proof. unfold override_oid. destruct (_ =? _); changes. Qed.

Lemma changes_override_xid o cf :
  changes_only T [nextXid] cf (override_xid T o cf).
Proof. unfold override_xid. destruct (_ =? _); changes. Qed.

Lemma changes_override_mxid o cf :
  changes_only T [nextMulti; oldestMulti; oldestMultiDB] cf (override_mxid T o cf).
Proof.
  unfold override_mxid. destruct (_ =? _); [changes|]. cbn zeta.
  destruct (_ <? _); changes.
Qed.

Lemma changes_override_mxoff o cf :
  changes_only T [nextMultiOffset] cf (override_mxoff T o cf).
Proof. unfold override_mxoff. destruct (_ =? _); changes. Qed.

Lemma changes_override_timeline tli cf :
  changes_only T [ThisTimeLineID; PrevTimeLineID] cf (override_timeline T tli cf).
Proof. unfold override_timeline. destruct (_ <? _); changes. Qed.

Lemma changes_override_commit_ts o cf :
  changes_only T [oldestCommitTsXid; newestCommitTsXid] cf (override_commit_ts T o cf).
Proof.
  unfold override_commit_ts. cbn zeta.
  destruct (set_oldest_commit_ts_xid o =? 0), (set_newest_commit_ts_xid o =? 0); changes.
Qed.

Lemma changes_override_epoch o cf :
  changes_only T [nextXid] cf (override_epoch T o cf).
Proof. unfold override_epoch. destruct (_ =? _); changes. Qed.

Lemma changes_override_oldest_xid o cf :
  changes_only T [oldestXid; oldestXidDB] cf (override_oldest_xid T o cf).
Proof. unfold override_oldest_xid. destruct (_ =? _); changes. Qed.

Lemma changes_override_wal_segsize o sz cf :
  changes_only T [xlog_seg_size] cf (override_wal_segsize T o sz cf).
Proof. unfold override_wal_segsize. destruct (_ =? _); changes. Qed.

End Frame.

(** The steps together. *)
Lemma changes_override (T : Target) (o : Options) (cf : list byte) :
  changes_only T assigned_members cf (override T o cf).
Proof.
  unfold override. cbn zeta.
  repeat (eapply changes_only_trans;
          [|eapply changes_only_incl;
            [|first [ apply changes_override_wal_segsize
                    | apply changes_override_oldest_xid
                    | apply changes_override_epoch
                    | apply changes_override_commit_ts
                    | apply changes_override_timeline
                    | apply changes_override_mxoff
                    | apply changes_override_mxid
                    | apply changes_override_xid ]];
            intros x Hx; simpl in Hx |- *; tauto]).
  eapply changes_only_incl; [|apply changes_override_oid].
  intros x Hx; simpl in Hx |- *; tauto.
Qed.

(** X1.  The override block of [main] changes no byte of the control file
    outside the thirteen members it assigns, and does not change its length:
    in particular the version and the stored checksum are as they were
    read. *)
Theorem override_changes_only_assigned (T : Target) (o : Options) (cf : list byte) :
  target_ok T = true ->
  changes_only T assigned_members cf (override T o cf)
  /\ get T pg_control_version (override T o cf) = get T pg_control_version cf
  /\ get T crc (override T o cf) = get T crc cf.
Proof.
  intros T_ok. pose proof (changes_override T o cf) as H.
  split; [exact H|].
  split; apply (changes_only_get T T_ok assigned_members _ _ _ H);
    simpl; intuition discriminate.
Qed.

Lemma override_changes_only_assigned_witness :
  target_ok pg17 = true
  /\ changes_only pg17 assigned_members sample (override pg17 sample_options sample)
  /\ get pg17 pg_control_version (override pg17 sample_options sample)
       = get pg17 pg_control_version sample
  /\ get pg17 crc (override pg17 sample_options sample) = get pg17 crc sample.
Proof.
  split; [vm_compute; reflexivity|].
  apply (override_changes_only_assigned pg17 sample_options sample).
  vm_compute. reflexivity.
Defined.

(** * What the option loop guarantees *)

Lemma zero_or_normal_0 (T : Target) : zero_or_normal T 0 = true.
Proof. reflexivity. Qed.

Lemma all_ones_range : 0 <= all_ones < 2 ^ 32.
Proof. unfold all_ones. lia. Qed.

Lemma Options_ok_no_options (T : Target) : Options_ok T no_options.
Proof.
  unfold Options_ok, no_options; cbn.
  pose proof all_ones_range.
  repeat split; try lia; try reflexivity; auto.
  intros fname H'. discriminate.
Qed.

Lemma handle_option_ok (T : Target) (a : arg) (o o' : Options) :
  Options_ok T o -> handle_option T a o = Ok o' -> Options_ok T o'.
Proof.
  intros (Hoid & Hxid & Hmx & Hoff & Hoc & Hnc & Hou & Hep & Hseg & Hl) H.
  destruct a as [dir|dir|v|v|v1 v2|v|v1 v2|v|fname|v|mb|]; cbn [handle_option] in H.
  - injection H as <-. unfold Options_ok; cbn. auto 12.
  - injection H as <-. unfold Options_ok; cbn. auto 12.
  - destruct v as [n|]; cbn [number bind] in H; [|discriminate].
    destruct (u32 n =? 0); [discriminate|]. injection H as <-.
    pose proof (u32_range n). unfold Options_ok; cbn. auto 12.
  - destruct v as [n|]; cbn [number bind] in H; [|discriminate].
    destruct (TransactionIdIsNormal T (u32 n)) eqn:Hn; cbn [negb] in H; [|discriminate].
    injection H as <-. pose proof (u32_range n). unfold Options_ok; cbn. auto 12.
  - destruct v1 as [n1|]; cbn [number bind] in H; [|discriminate].
    destruct v2 as [n2|]; cbn [number bind] in H; [|discriminate].
    destruct (Z.eqb_spec (u32 n1) 0); [discriminate|].
    destruct (Z.eqb_spec (u32 n2) 0); [discriminate|]. injection H as <-.
    pose proof (u32_range n1). pose proof (u32_range n2).
    unfold Options_ok; cbn.
    repeat (split; [solve [auto]|]). split; [right; lia|]. auto 12.
  - destruct v as [n|]; cbn [number bind] in H; [|discriminate].
    destruct (u32 n =? all_ones); [discriminate|]. injection H as <-.
    pose proof (u32_range n). unfold Options_ok; cbn. auto 12.
  - destruct v1 as [n1|]; cbn [number bind] in H; [|discriminate].
    destruct v2 as [n2|]; cbn [number bind] in H; [|discriminate].
    destruct ((u32 n1 <? FirstNormalTransactionId T) && negb (u32 n1 =? InvalidTransactionId))
      eqn:H1; [discriminate|].
    destruct ((u32 n2 <? FirstNormalTransactionId T) && negb (u32 n2 =? InvalidTransactionId))
      eqn:H2; [discriminate|].
    injection H as <-. pose proof (u32_range n1). pose proof (u32_range n2).
    assert (Hz : forall n, (u32 n <? FirstNormalTransactionId T)
                           && negb (u32 n =? InvalidTransactionId) = false ->
                           zero_or_normal T (u32 n) = true).
    { intros n Hn. unfold zero_or_normal, TransactionIdIsNormal.
      destruct (Z.ltb_spec (u32 n) (FirstNormalTransactionId T));
        destruct (u32 n =? InvalidTransactionId); cbn in Hn |- *;
        try discriminate; try reflexivity.
      apply Z.leb_le. lia. }
    unfold Options_ok; cbn. auto 14.
  - destruct v as [n|]; cbn [number bind] in H; [|discriminate].
    destruct (u32 n =? all_ones); [discriminate|]. injection H as <-.
    pose proof (u32_range n). unfold Options_ok; cbn. auto 12.
  - destruct (Nat.eqb_spec (strspn fname hex_digits) (XLOG_FNAME_LEN T)) as [E|E];
      cbn [negb] in H; [|discriminate].
    injection H as <-. unfold Options_ok; cbn.
    repeat (split; [solve [auto]|]).
    intros f Hf. injection Hf as <-. exact E.
  - destruct v as [n|]; cbn [number bind] in H; [|discriminate].
    destruct (TransactionIdIsNormal T (u32 n)) eqn:Hn; cbn [negb] in H; [|discriminate].
    injection H as <-. pose proof (u32_range n). unfold Options_ok; cbn. auto 12.
  - destruct mb as [n|]; cbn [number bind] in H; [|discriminate].
    destruct ((1 <=? n) && (n <=? 1024)); cbn [negb] in H; [|discriminate].
    destruct (IsValidWalSegSize (n * 1024 * 1024)) eqn:Hv; cbn [negb] in H; [|discriminate].
    injection H as <-. unfold Options_ok; cbn. auto 12.
  - discriminate.
Qed.

Lemma getopt_loop_preserves_ok (T : Target) (args : list arg) (o0 o : Options) :
  Options_ok T o0 -> getopt_loop T args o0 = Ok o -> Options_ok T o.
Proof.
  revert o0. induction args as [|a rest IH]; intros o0 H0 H; cbn [getopt_loop] in H.
  - injection H as <-. exact H0.
  - destruct (handle_option T a o0) as [o1|e] eqn:Ha; cbn [bind] in H; [|discriminate].
    exact (IH o1 (handle_option_ok T a o0 o1 H0 Ha) H).
Qed.

(** X2.  Whatever the options and their order, when the option loop accepts
    the command line the static variables satisfy the checks of the switch:
    every value is a [uint32]; [set_xid] and [set_oldest_xid] are zero (not
    given) or normal; the two multitransaction ids are both zero (not given)
    or both nonzero; the commit timestamp ids are zero or normal;
    [set_wal_segsize] is zero (not given) or a valid segment size; and the
    name given to [-l] starts with exactly [XLOG_FNAME_LEN] hexadecimal
    digits. *)
Theorem getopt_loop_ok (T : Target) (args : list arg) (o : Options) :
  getopt_loop T args no_options = Ok o -> Options_ok T o.
Proof.
  intros H. pose proof (Options_ok_no_options T) as H0.
  exact (getopt_loop_preserves_ok T args no_options o H0 H).
Qed.

Lemma getopt_loop_ok_witness :
  getopt_loop pg17 [opt_x (Some 5000); opt_e (Some 2)] no_options = Ok sample_options
  /\ Options_ok pg17 sample_options.
Proof.
  assert (H : getopt_loop pg17 [opt_x (Some 5000); opt_e (Some 2)] no_options
              = Ok sample_options) by reflexivity.
  split; [exact H|]. exact (getopt_loop_ok pg17 _ _ H).
Defined.

(** * The record after the overrides *)

Section OverrideValues.

Variable T : Target.
Hypothesis T_ok : target_ok T = true.

Local Abbreviation get := (get T).
Local Abbreviation put := (put T).

Lemma length_override_oid o cf : length (override_oid T o cf) = length cf.
Proof. apply changes_override_oid. Qed.
Lemma length_override_xid o cf : length (override_xid T o cf) = length cf.
Proof. apply changes_override_xid. Qed.
Lemma length_override_mxid o cf : length (override_mxid T o cf) = length cf.
Proof. apply changes_override_mxid. Qed.
Lemma length_override_mxoff o cf : length (override_mxoff T o cf) = length cf.
Proof. apply changes_override_mxoff. Qed.
Lemma length_override_timeline tli cf : length (override_timeline T tli cf) = length cf.
Proof. apply changes_override_timeline. Qed.
Lemma length_override_commit_ts o cf : length (override_commit_ts T o cf) = length cf.
Proof. apply changes_override_commit_ts. Qed.
Lemma length_override_epoch o cf : length (override_epoch T o cf) = length cf.
Proof. apply changes_override_epoch. Qed.
Lemma length_override_oldest_xid o cf : length (override_oldest_xid T o cf) = length cf.
Proof. apply changes_override_oldest_xid. Qed.
Lemma length_override_wal_segsize o sz cf :
  length (override_wal_segsize T o sz cf) = length cf.
Proof. apply changes_override_wal_segsize. Qed.

Lemma length_override o cf : length (override T o cf) = length cf.
Proof.
  unfold override. cbn zeta.
  rewrite length_override_wal_segsize, length_override_oldest_xid, length_override_epoch,
    length_override_commit_ts, length_override_timeline, length_override_mxoff,
    length_override_mxid, length_override_xid, length_override_oid.
  reflexivity.
Qed.

(** The member each step assigns, after the step. *)
Lemma get_override_oid o cf :
  length cf = sizeof_ControlFileData T ->
  get nextOid (override_oid T o cf)
  = if set_oid o =? 0 then get nextOid cf else u32 (set_oid o).
Proof.
  intros Hlen. unfold override_oid. destruct (_ =? _); [reflexivity|].
  get_put T_ok. reflexivity.
Qed.

Lemma get_override_xid o cf :
  length cf = sizeof_ControlFileData T -> 0 <= set_xid o < 2 ^ 32 ->
  get nextXid (override_xid T o cf)
  = FullTransactionIdFromEpochAndXid
      (EpochFromFullTransactionId (get nextXid cf))
      (if set_xid o =? 0 then XidFromFullTransactionId (get nextXid cf) else set_xid o).
Proof.
  intros Hlen Hr. unfold override_xid. destruct (_ =? _).
  - symmetry. apply Full_of_halves, get_range64.
  - apply (get_nextXid_put T T_ok); [exact Hlen|].
    apply Full_range; [apply Epoch_range|exact Hr].
Qed.

Lemma get_override_epoch o cf :
  length cf = sizeof_ControlFileData T -> 0 <= set_xid_epoch o < 2 ^ 32 ->
  get nextXid (override_epoch T o cf)
  = FullTransactionIdFromEpochAndXid
      (if set_xid_epoch o =? all_ones then EpochFromFullTransactionId (get nextXid cf)
       else set_xid_epoch o)
      (XidFromFullTransactionId (get nextXid cf)).
Proof.
  intros Hlen Hr. unfold override_epoch. destruct (_ =? _).
  - symmetry. apply Full_of_halves, get_range64.
  - apply (get_nextXid_put T T_ok); [exact Hlen|].
    apply Full_range; [exact Hr|apply Xid_range].
Qed.

Lemma get_override_mxid o cf :
  length cf = sizeof_ControlFileData T ->
  0 <= set_mxid o < 2 ^ 32 -> 0 <= set_oldestmxid o < 2 ^ 32 ->
  get nextMulti (override_mxid T o cf)
    = (if set_mxid o =? 0 then get nextMulti cf else set_mxid o)
  /\ get oldestMulti (override_mxid T o cf)
    = (if set_mxid o =? 0 then get oldestMulti cf
       else if set_oldestmxid o <? FirstMultiXactId T
            then set_oldestmxid o + FirstMultiXactId T
            else set_oldestmxid o)
  /\ get oldestMultiDB (override_mxid T o cf)
    = (if set_mxid o =? 0 then get oldestMultiDB cf else InvalidOid).
Proof.
  intros Hlen H1 H2. pose proof (FirstMultiXactId_range T T_ok) as HF.
  unfold override_mxid. destruct (_ =? _); [repeat split|]. cbn zeta.
  get_put T_ok. rewrite (u32_small (set_oldestmxid o)) by exact H2.
  destruct (Z.ltb_spec (set_oldestmxid o) (FirstMultiXactId T)); get_put T_ok;
    rewrite ?(u32_small (set_mxid o)), ?(u32_small (set_oldestmxid o)),
      ?(u32_small (set_oldestmxid o + FirstMultiXactId T)) by lia;
    repeat split.
Qed.

Lemma get_override_mxoff o cf :
  length cf = sizeof_ControlFileData T ->
  get nextMultiOffset (override_mxoff T o cf)
  = if set_mxoff o =? all_ones then get nextMultiOffset cf else u32 (set_mxoff o).
Proof.
  intros Hlen. unfold override_mxoff. destruct (_ =? _); [reflexivity|].
  get_put T_ok. reflexivity.
Qed.

Lemma get_override_timeline tli cf :
  length cf = sizeof_ControlFileData T -> 0 <= tli < 2 ^ 32 ->
  get ThisTimeLineID (override_timeline T tli cf) = Z.max (get ThisTimeLineID cf) tli
  /\ get PrevTimeLineID (override_timeline T tli cf)
     = (if get ThisTimeLineID cf <? tli then tli else get PrevTimeLineID cf).
Proof.
  intros Hlen Hr. unfold override_timeline.
  destruct (Z.ltb_spec (get ThisTimeLineID cf) tli).
  - get_put T_ok. rewrite (u32_small tli) by exact Hr. split; [lia|reflexivity].
  - split; [lia|reflexivity].
Qed.

Lemma get_override_commit_ts o cf :
  length cf = sizeof_ControlFileData T ->
  get oldestCommitTsXid (override_commit_ts T o cf)
    = (if set_oldest_commit_ts_xid o =? 0 then get oldestCommitTsXid cf
       else u32 (set_oldest_commit_ts_xid o))
  /\ get newestCommitTsXid (override_commit_ts T o cf)
    = (if set_newest_commit_ts_xid o =? 0 then get newestCommitTsXid cf
       else u32 (set_newest_commit_ts_xid o)).
Proof.
  intros Hlen. unfold override_commit_ts. cbn zeta.
  destruct (set_oldest_commit_ts_xid o =? 0), (set_newest_commit_ts_xid o =? 0);
    get_put T_ok; split; reflexivity.
Qed.

Lemma get_override_oldest_xid o cf :
  length cf = sizeof_ControlFileData T ->
  get oldestXid (override_oldest_xid T o cf)
    = (if set_oldest_xid o =? 0 then get oldestXid cf else u32 (set_oldest_xid o))
  /\ get oldestXidDB (override_oldest_xid T o cf)
    = (if set_oldest_xid o =? 0 then get oldestXidDB cf else InvalidOid).
Proof.
  intros Hlen. unfold override_oldest_xid. destruct (_ =? _); [split; reflexivity|].
  get_put T_ok. split; reflexivity.
Qed.

Lemma get_override_wal_segsize o sz cf :
  length cf = sizeof_ControlFileData T ->
  get xlog_seg_size (override_wal_segsize T o sz cf)
  = if set_wal_segsize o =? 0 then get xlog_seg_size cf else u32 sz.
Proof.
  intros Hlen. unfold override_wal_segsize. destruct (_ =? _); [reflexivity|].
  get_put T_ok. reflexivity.
Qed.

Lemma IsValidWalSegSize_range v : IsValidWalSegSize v = true -> 0 < v < 2 ^ 32.
Proof.
  unfold IsValidWalSegSize, WalSegMinSize, WalSegMaxSize.
  rewrite !andb_true_iff, !Z.leb_le. lia.
Qed.

End OverrideValues.

(** Reading a member through the steps that do not assign it. *)
Ltac skip_steps T_ok :=
  repeat first
    [ rewrite (changes_only_get _ T_ok _ _ _ _ (changes_override_wal_segsize _ _ _ _))
        by (simpl; intuition discriminate)
    | rewrite (changes_only_get _ T_ok _ _ _ _ (changes_override_oldest_xid _ _ _))
        by (simpl; intuition discriminate)
    | rewrite (changes_only_get _ T_ok _ _ _ _ (changes_override_epoch _ _ _))
        by (simpl; intuition discriminate)
    | rewrite (changes_only_get _ T_ok _ _ _ _ (changes_override_commit_ts _ _ _))
        by (simpl; intuition discriminate)
    | rewrite (changes_only_get _ T_ok _ _ _ _ (changes_override_timeline _ _ _))
        by (simpl; intuition discriminate)
    | rewrite (changes_only_get _ T_ok _ _ _ _ (changes_override_mxoff _ _ _))
        by (simpl; intuition discriminate)
    | rewrite (changes_only_get _ T_ok _ _ _ _ (changes_override_mxid _ _ _))
        by (simpl; intuition discriminate)
    | rewrite (changes_only_get _ T_ok _ _ _ _ (changes_override_xid _ _ _))
        by (simpl; intuition discriminate)
    | rewrite (changes_only_get _ T_ok _ _ _ _ (changes_override_oid _ _ _))
        by (simpl; intuition discriminate) ].

Ltac length_steps :=
  rewrite ?length_override_wal_segsize, ?length_override_oldest_xid, ?length_override_epoch,
    ?length_override_commit_ts, ?length_override_timeline, ?length_override_mxoff,
    ?length_override_mxid, ?length_override_xid, ?length_override_oid;
  assumption.

(** The record after the override block, member by member, for options
    that the option loop accepted.  Each assigned member has the
    value given on the command line, or its old value when that option was
    not given; [nextXid] is put together from the epoch and the transaction
    id chosen separately; [oldestMulti] is raised by [FirstMultiXactId] when
    the given value is below it; the timeline members follow the resolved
    timeline when it is ahead; and the segment size is the effective
    segment size. *)
Lemma override_members (T : Target) (o : Options) (cf : list byte) :
  target_ok T = true ->
  length cf = sizeof_ControlFileData T ->
  Options_ok T o ->
  let cf' := override T o cf in
  let tli := resolved_timeline T o cf in
  get T nextOid cf' = (if set_oid o =? 0 then get T nextOid cf else set_oid o)
  /\ get T nextXid cf'
     = FullTransactionIdFromEpochAndXid
         (if set_xid_epoch o =? all_ones
          then EpochFromFullTransactionId (get T nextXid cf) else set_xid_epoch o)
         (if set_xid o =? 0
          then XidFromFullTransactionId (get T nextXid cf) else set_xid o)
  /\ get T nextMulti cf' = (if set_mxid o =? 0 then get T nextMulti cf else set_mxid o)
  /\ get T oldestMulti cf'
     = (if set_mxid o =? 0 then get T oldestMulti cf
        else if set_oldestmxid o <? FirstMultiXactId T
             then set_oldestmxid o + FirstMultiXactId T
             else set_oldestmxid o)
  /\ get T oldestMultiDB cf'
     = (if set_mxid o =? 0 then get T oldestMultiDB cf else InvalidOid)
  /\ get T nextMultiOffset cf'
     = (if set_mxoff o =? all_ones then get T nextMultiOffset cf else set_mxoff o)
  /\ get T ThisTimeLineID cf' = Z.max (get T ThisTimeLineID cf) tli
  /\ get T PrevTimeLineID cf'
     = (if get T ThisTimeLineID cf <? tli then tli else get T PrevTimeLineID cf)
  /\ get T oldestCommitTsXid cf'
     = (if set_oldest_commit_ts_xid o =? 0 then get T oldestCommitTsXid cf
        else set_oldest_commit_ts_xid o)
  /\ get T newestCommitTsXid cf'
     = (if set_newest_commit_ts_xid o =? 0 then get T newestCommitTsXid cf
        else set_newest_commit_ts_xid o)
  /\ get T oldestXid cf'
     = (if set_oldest_xid o =? 0 then get T oldestXid cf else set_oldest_xid o)
  /\ get T oldestXidDB cf'
     = (if set_oldest_xid o =? 0 then get T oldestXidDB cf else InvalidOid)
  /\ get T xlog_seg_size cf' = effective_WalSegSz T o cf.
Proof.
  intros T_ok Hlen (Hoid & Hxid & Hmx & Hoff & [_ Hoc] & [_ Hnc] & Hou & Hep & Hseg & _).
  cbn zeta.
  assert (Hxr : 0 <= set_xid o < 2 ^ 32) by (destruct Hxid as [->|[_ H]]; lia).
  assert (Hor : 0 <= set_oldest_xid o < 2 ^ 32) by (destruct Hou as [->|[_ H]]; lia).
  assert (Hm1 : 0 <= set_mxid o < 2 ^ 32) by lia.
  assert (Hm2 : 0 <= set_oldestmxid o < 2 ^ 32) by lia.
  pose proof (resolved_timeline_range T o cf) as Htli.
  unfold override. cbn zeta.
  set (tli := resolved_timeline T o cf) in *.
  set (sz := effective_WalSegSz T o cf).
  repeat split.
  - skip_steps T_ok. rewrite (get_override_oid T T_ok) by length_steps.
    rewrite (u32_small (set_oid o)) by exact Hoid. reflexivity.
  - skip_steps T_ok. rewrite (get_override_epoch T T_ok) by (length_steps || exact Hep).
    skip_steps T_ok. rewrite (get_override_xid T T_ok) by (length_steps || exact Hxr).
    skip_steps T_ok.
    assert (Hx : 0 <= (if set_xid o =? 0 then XidFromFullTransactionId (get T nextXid cf)
                       else set_xid o) < 2 ^ 32).
    { destruct (_ =? _); [apply Xid_range|exact Hxr]. }
    rewrite Xid_of_Full by exact Hx.
    rewrite Epoch_of_Full by (apply Epoch_range || exact Hx).
    reflexivity.
  - skip_steps T_ok.
    destruct (get_override_mxid T T_ok o (override_xid T o (override_oid T o cf)))
      as (H1 & _ & _); [length_steps|exact Hm1|exact Hm2|].
    rewrite H1. skip_steps T_ok. reflexivity.
  - skip_steps T_ok.
    destruct (get_override_mxid T T_ok o (override_xid T o (override_oid T o cf)))
      as (_ & H2 & _); [length_steps|exact Hm1|exact Hm2|].
    rewrite H2. skip_steps T_ok. reflexivity.
  - skip_steps T_ok.
    destruct (get_override_mxid T T_ok o (override_xid T o (override_oid T o cf)))
      as (_ & _ & H3); [length_steps|exact Hm1|exact Hm2|].
    rewrite H3. skip_steps T_ok. reflexivity.
  - skip_steps T_ok. rewrite (get_override_mxoff T T_ok) by length_steps.
    skip_steps T_ok. rewrite (u32_small (set_mxoff o)) by exact Hoff. reflexivity.
  - skip_steps T_ok.
    match goal with |- context [override_timeline T tli ?x] =>
      destruct (get_override_timeline T T_ok tli x) as [H1 _];
        [length_steps|exact Htli|]; rewrite H1 end.
    skip_steps T_ok. reflexivity.
  - skip_steps T_ok.
    match goal with |- context [override_timeline T tli ?x] =>
      destruct (get_override_timeline T T_ok tli x) as [_ H2];
        [length_steps|exact Htli|]; rewrite H2 end.
    skip_steps T_ok. reflexivity.
  - skip_steps T_ok.
    match goal with |- context [override_commit_ts T o ?x] =>
      destruct (get_override_commit_ts T T_ok o x) as [H1 _]; [length_steps|]; rewrite H1 end.
    skip_steps T_ok. rewrite (u32_small (set_oldest_commit_ts_xid o)) by exact Hoc.
    reflexivity.
  - skip_steps T_ok.
    match goal with |- context [override_commit_ts T o ?x] =>
      destruct (get_override_commit_ts T T_ok o x) as [_ H2]; [length_steps|]; rewrite H2 end.
    skip_steps T_ok. rewrite (u32_small (set_newest_commit_ts_xid o)) by exact Hnc.
    reflexivity.
  - skip_steps T_ok.
    match goal with |- context [override_oldest_xid T o ?x] =>
      destruct (get_override_oldest_xid T T_ok o x) as [H1 _]; [length_steps|]; rewrite H1 end.
    skip_steps T_ok. rewrite (u32_small (set_oldest_xid o)) by exact Hor. reflexivity.
  - skip_steps T_ok.
    match goal with |- context [override_oldest_xid T o ?x] =>
      destruct (get_override_oldest_xid T T_ok o x) as [_ H2]; [length_steps|]; rewrite H2 end.
    skip_steps T_ok. reflexivity.
  - rewrite (get_override_wal_segsize T T_ok) by length_steps.
    skip_steps T_ok. unfold sz, effective_WalSegSz.
    destruct (Z.eqb_spec (set_wal_segsize o) 0) as [E|E]; [reflexivity|].
    destruct Hseg as [Hz|Hv]; [contradiction|].
    apply u32_small. pose proof (IsValidWalSegSize_range _ Hv). lia.
Qed.

Lemma override_expected (T : Target) (o : Options) (cf : list byte) (m : member) :
  target_ok T = true ->
  length cf = sizeof_ControlFileData T ->
  Options_ok T o ->
  get T m (override T o cf) = expected_member T o cf m.
Proof.
  intros T_ok Hlen Hok.
  pose proof (override_members T o cf T_ok Hlen Hok) as H. cbn zeta in H.
  destruct H as (H1 & H2 & H3 & H4 & H5 & H6 & H7 & H8 & H9 & H10 & H11 & H12 & H13).
  destruct m; cbn [expected_member]; try assumption;
    apply (changes_only_get T T_ok assigned_members _ _ _ (changes_override T o cf));
    simpl; intuition discriminate.
Qed.

(** * A successful run *)

(** A result of [main] or of [make_datadir_out_if_not_exists] is the tuple
    of its components. *)
Lemma run_eta (r : status * list warning * gmap (list string) Fs.node)
    (s : status) (w : list warning) :
  r.1 = (s, w) -> r = (s, w, r.2).
Proof. destruct r as [[s' w'] f]. cbn. intros H. injection H as -> ->. reflexivity. Qed.

Lemma make_eta (r : option error * gmap (list string) Fs.node) (e : option error) :
  r.1 = e -> r = (e, r.2).
Proof. destruct r as [e' f]. cbn. intros ->. reflexivity. Qed.

Section Run.

Variable T : Target.
Hypothesis T_ok : target_ok T = true.

(** What [read_controlfile] has established when it returns [true]. *)
Lemma read_controlfile_accepted file g g' w :
  read_controlfile T file g = (true, g', w) ->
  ControlFile g' = take (sizeof_ControlFileData T) file
  /\ (sizeof_ControlFileData T <= length file)%nat
  /\ get T pg_control_version file = PG_CONTROL_VERSION T
  /\ IsValidWalSegSize (get T xlog_seg_size file) = true.
Proof.
  rewrite (read_controlfile_unfold T T_ok).
  destruct (Nat.leb_spec (sizeof_ControlFileData T) (length file)) as [Hlen|Hlen];
    [|cbn; discriminate].
  destruct (Z.eqb_spec (get T pg_control_version file) (PG_CONTROL_VERSION T)) as [Hv|Hv];
    [|cbn; discriminate].
  cbn [andb]. cbn zeta.
  destruct (IsValidWalSegSize (get T xlog_seg_size file)) eqn:Hseg; [|discriminate].
  intros H. injection H as <- _. cbn [ControlFile]. auto.
Qed.

(** The record that was read is a well-formed one. *)
Lemma accepted_record file :
  (sizeof_ControlFileData T <= length file)%nat ->
  length (take (sizeof_ControlFileData T) file) = sizeof_ControlFileData T
  /\ forall m, get T m (take (sizeof_ControlFileData T) file) = get T m file.
Proof.
  intros Hlen. split; [rewrite length_take; lia|].
  intros m. apply (get_take T T_ok). lia.
Qed.

(** An encoded record with the supported version and a valid segment size
    is read back without a warning. *)
Lemma read_back_encoded r :
  length r = sizeof_ControlFileData T ->
  get T pg_control_version r = PG_CONTROL_VERSION T ->
  IsValidWalSegSize (get T xlog_seg_size r) = true ->
  read_controlfile T (encode T r) (initial_globals T)
  = (true, {| ControlFile := encode T r; guessed := false |}, []).
Proof.
  intros Hlen Hver Hseg. rewrite (read_controlfile_unfold T T_ok).
  rewrite length_encode, Hlen, Nat.leb_refl.
  rewrite !(get_encode_other T T_ok) by discriminate.
  rewrite Hver, Z.eqb_refl, Hseg. cbn [andb]. cbn zeta.
  rewrite (checksum_ok_encode T T_ok) by exact Hlen.
  rewrite take_ge by (rewrite length_encode; lia).
  reflexivity.
Qed.

(** The facts that a run with exit status 0 has gone through. *)
Lemma main_success_inv (cl : command_line) (f : gmap (list string) Fs.node)
    (w : list warning) (f' : gmap (list string) Fs.node) :
  help cl = false ->
  main T cl f = (Exit0, w, f') ->
  exists o pgdata_in pgdata_out file g f1,
    getopt_loop T (options cl) no_options = Ok o
    /\ operands cl = []
    /\ DataDirIn o = Some pgdata_in
    /\ DataDirOut o = Some pgdata_out
    /\ Fs.read_file (pgdata_in ++ XLOG_CONTROL_FILE) f = inr file
    /\ read_controlfile T file (initial_globals T) = (true, g, w)
    /\ make_datadir_out_if_not_exists pgdata_out f = (None, f1)
    /\ update_controlfile T pgdata_out (override T o (ControlFile g)) f1 = Some f'.
Proof.
  intros Hh. unfold main. rewrite Hh.
  destruct (getopt_loop T (options cl) no_options) as [o|e] eqn:Ho; [|discriminate].
  destruct (operands cl) eqn:Hop; [|discriminate].
  destruct (DataDirIn o) as [pgdata_in|] eqn:Hin; [|discriminate].
  destruct (DataDirOut o) as [pgdata_out|] eqn:Hout; [|discriminate].
  destruct (Fs.read_file (pgdata_in ++ XLOG_CONTROL_FILE) f) as [e|file] eqn:Hr;
    [discriminate|].
  destruct (read_controlfile T file (initial_globals T)) as [[ok g] w0] eqn:Hrc.
  destruct ok; cbn [negb]; [|discriminate].
  destruct (make_datadir_out_if_not_exists pgdata_out f) as [[e|] f1] eqn:Hmk;
    [discriminate|].
  destruct (update_controlfile T pgdata_out (override T o (ControlFile g)) f1) as [f2|] eqn:Hu;
    [|discriminate].
  intros H. injection H as <- <-.
  exists o, pgdata_in, pgdata_out, file, g, f1.
  repeat (split; [assumption || reflexivity|]). exact Hu.
Qed.

Lemma update_controlfile_Some (DataDir : path) (cf : list byte)
    (f1 f2 : gmap (list string) Fs.node) :
  update_controlfile T DataDir cf f1 = Some f2 ->
  f2 = <[DataDir ++ XLOG_CONTROL_FILE := Fs.File (encode T cf)]> f1.
Proof.
  unfold update_controlfile, Fs.write_file.
  destruct (Fs.node_at f1 (DataDir ++ XLOG_CONTROL_FILE)) as [[|c]|]; try discriminate.
  intros H. injection H as <-. reflexivity.
Qed.

Lemma read_file_inr (p : list string) (f : gmap (list string) Fs.node) (file : list byte) :
  p <> [] -> Fs.read_file p f = inr file -> f !! p = Some (Fs.File file).
Proof.
  intros Hp. unfold Fs.read_file. rewrite node_at_lookup by exact Hp.
  destruct (f !! p) as [[|c]|]; try discriminate.
  intros H. injection H as <-. reflexivity.
Qed.

(** A run with exit status 0 has read a control file [file] and has written
    the encoded, overridden copy of its first [sizeof(ControlFileData)]
    bytes. *)
Lemma main_success_output (cl : command_line) (f : gmap (list string) Fs.node)
    (w : list warning) (f' : gmap (list string) Fs.node) :
  help cl = false ->
  main T cl f = (Exit0, w, f') ->
  exists o pgdata_in pgdata_out file,
    getopt_loop T (options cl) no_options = Ok o
    /\ DataDirIn o = Some pgdata_in
    /\ DataDirOut o = Some pgdata_out
    /\ f !! (pgdata_in ++ XLOG_CONTROL_FILE) = Some (Fs.File file)
    /\ (sizeof_ControlFileData T <= length file)%nat
    /\ get T pg_control_version file = PG_CONTROL_VERSION T
    /\ IsValidWalSegSize (get T xlog_seg_size file) = true
    /\ f' !! (pgdata_out ++ XLOG_CONTROL_FILE)
       = Some (Fs.File (encode T (override T o (take (sizeof_ControlFileData T) file)))).
Proof.
  intros Hh Hm.
  destruct (main_success_inv cl f w f' Hh Hm)
    as (o & pgdata_in & pgdata_out & file & g & f1 & Ho & _ & Hin & Hout & Hr & Hrc & _ & Hu).
  destruct (read_controlfile_accepted file _ g w Hrc) as (Hcf & Hlen & Hv & Hseg).
  exists o, pgdata_in, pgdata_out, file.
  repeat (split; [assumption|]).
  split; [apply read_file_inr; [apply control_file_path_not_nil|exact Hr]|].
  repeat (split; [assumption|]).
  rewrite (update_controlfile_Some _ _ _ _ Hu), lookup_insert_eq, Hcf. reflexivity.
Qed.

End Run.

Lemma expected_member_ext (T : Target) (o : Options) (a b : list byte) (m : member) :
  (forall m', get T m' a = get T m' b) ->
  expected_member T o a m = expected_member T o b m.
Proof.
  intros H. destruct m; cbn [expected_member];
    unfold resolved_timeline, effective_WalSegSz; rewrite ?H; reflexivity.
Qed.

Lemma output_path_Some (T : Target) (cl : command_line) (o : Options) (pgdata_out : path) :
  getopt_loop T (options cl) no_options = Ok o ->
  DataDirOut o = Some pgdata_out ->
  output_path T cl = Some (pgdata_out ++ XLOG_CONTROL_FILE).
Proof. intros Ho Hout. unfold output_path. rewrite Ho, Hout. reflexivity. Qed.

(** The record that a successful run encodes is well formed. *)
Lemma overridden_record_ok (T : Target) (o : Options) (file : list byte) :
  target_ok T = true ->
  Options_ok T o ->
  (sizeof_ControlFileData T <= length file)%nat ->
  get T pg_control_version file = PG_CONTROL_VERSION T ->
  IsValidWalSegSize (get T xlog_seg_size file) = true ->
  let r := override T o (take (sizeof_ControlFileData T) file) in
  length r = sizeof_ControlFileData T
  /\ get T pg_control_version r = PG_CONTROL_VERSION T
  /\ IsValidWalSegSize (get T xlog_seg_size r) = true.
Proof.
  intros T_ok Hok Hlen Hv Hseg. cbn zeta.
  destruct (accepted_record T T_ok file Hlen) as [Hl Hg].
  split; [rewrite length_override; exact Hl|].
  rewrite !(override_expected T o _ _ T_ok Hl Hok).
  cbn [expected_member]. unfold effective_WalSegSz. rewrite !Hg.
  split; [exact Hv|].
  destruct Hok as (_ & _ & _ & _ & _ & _ & _ & _ & Hs & _).
  destruct (Z.eqb_spec (set_wal_segsize o) 0) as [E|E]; [exact Hseg|].
  destruct Hs as [Hs|Hs]; [contradiction|exact Hs].
Qed.

(** X3.  The record file that a run with exit status 0 has written is one
    that [read_controlfile] accepts without a warning: it is long enough,
    has the supported version and a valid segment size, and its stored
    checksum is the checksum of its bytes. *)
Theorem successful_run_output_readable (T : Target) (cl : command_line)
    (f f' : gmap (list string) Fs.node) (w : list warning) :
  target_ok T = true ->
  help cl = false ->
  main T cl f = (Exit0, w, f') ->
  exists pout out,
    output_path T cl = Some pout
    /\ f' !! pout = Some (Fs.File out)
    /\ read_controlfile T out (initial_globals T)
       = (true, {| ControlFile := out; guessed := false |}, []).
Proof.
  intros T_ok Hh Hm.
  destruct (main_success_output T T_ok cl f w f' Hh Hm)
    as (o & pgdata_in & pgdata_out & file & Ho & _ & Hout & _ & Hlen & Hv & Hseg & Hf').
  pose proof (getopt_loop_preserves_ok T _ _ _ (Options_ok_no_options T) Ho) as Hok.
  destruct (overridden_record_ok T o file T_ok Hok Hlen Hv Hseg) as (Hl & Hv' & Hs').
  eexists _, _. split; [exact (output_path_Some T cl o pgdata_out Ho Hout)|].
  split; [exact Hf'|].
  apply (read_back_encoded T T_ok); assumption.
Qed.

Lemma successful_run_output_readable_witness :
  (target_ok pg17 = true /\ help sample_command_line = false
   /\ (main pg17 sample_command_line sample_fs_stale).1 = (Exit0, [WarnInvalidCrc]))
  /\ exists pout out,
       output_path pg17 sample_command_line = Some pout
       /\ (main pg17 sample_command_line sample_fs_stale).2 !! pout = Some (Fs.File out)
       /\ read_controlfile pg17 out (initial_globals pg17)
          = (true, {| ControlFile := out; guessed := false |}, []).
Proof.
  split; [vm_compute; repeat split; reflexivity|].
  apply (successful_run_output_readable pg17 sample_command_line sample_fs_stale
           (main pg17 sample_command_line sample_fs_stale).2 [WarnInvalidCrc]).
  - vm_compute. reflexivity.
  - reflexivity.
  - apply run_eta. vm_compute. reflexivity.
Defined.

(** X4.  In the record file that a run with exit status 0 has written,
    every member but the stored checksum has the value expected from the
    options and from the control file read: the value given on the command
    line where an option was given, with the corrections of the override
    block, and the value read otherwise.  Every byte of the struct outside
    the assigned members and the checksum is the byte read. *)
Theorem successful_run_output_members (T : Target) (cl : command_line)
    (f f' : gmap (list string) Fs.node) (w : list warning) :
  target_ok T = true ->
  help cl = false ->
  main T cl f = (Exit0, w, f') ->
  exists o pgdata_in pgdata_out file out,
    getopt_loop T (options cl) no_options = Ok o
    /\ DataDirIn o = Some pgdata_in
    /\ DataDirOut o = Some pgdata_out
    /\ f !! (pgdata_in ++ XLOG_CONTROL_FILE) = Some (Fs.File file)
    /\ f' !! (pgdata_out ++ XLOG_CONTROL_FILE) = Some (Fs.File out)
    /\ (forall m, m <> crc -> get T m out = expected_member T o file m)
    /\ (forall i : nat,
          (i < sizeof_ControlFileData T)%nat ->
          (forall m, In m (crc :: assigned_members) -> outside T m i) ->
          out !! i = file !! i).
Proof.
  intros T_ok Hh Hm.
  destruct (main_success_output T T_ok cl f w f' Hh Hm)
    as (o & pgdata_in & pgdata_out & file & Ho & Hin & Hout & Hf & Hlen & Hv & Hseg & Hf').
  pose proof (getopt_loop_preserves_ok T _ _ _ (Options_ok_no_options T) Ho) as Hok.
  destruct (accepted_record T T_ok file Hlen) as [Hl Hg].
  exists o, pgdata_in, pgdata_out, file, (encode T (override T o (take (sizeof_ControlFileData T) file))).
  repeat (split; [assumption|]). split.
  - intros m Hne. rewrite (get_encode_other T T_ok) by exact Hne.
    rewrite (override_expected T o _ m T_ok Hl Hok).
    apply expected_member_ext. exact Hg.
  - intros i Hi Hout'. unfold encode.
    rewrite lookup_put_outside by (apply Hout'; left; reflexivity).
    destruct (changes_override T o (take (sizeof_ControlFileData T) file)) as [_ Hc].
    rewrite Hc by (intros m Hm'; apply Hout'; right; exact Hm').
    apply lookup_take_lt. exact Hi.
Qed.

Lemma successful_run_output_members_witness :
  let cl := {| help := false;
               options := [opt_D ["in"%string]; opt_d ["new"%string];
                           opt_x (Some 5000); opt_e (Some 2)];
               operands := [] |} in
  (target_ok pg17 = true /\ help cl = false /\ (main pg17 cl sample_fs).1 = (Exit0, []))
  /\ exists o file out,
       getopt_loop pg17 (options cl) no_options = Ok o
       /\ sample_fs !! ["in"; "global"; "pg_control"]%string = Some (Fs.File file)
       /\ (main pg17 cl sample_fs).2 !! ["new"; "global"; "pg_control"]%string
          = Some (Fs.File out)
       /\ get pg17 nextXid out = FullTransactionIdFromEpochAndXid 2 5000
       /\ get pg17 nextOid out = get pg17 nextOid file.
Proof.
  intros cl. split; [vm_compute; repeat split; reflexivity|].
  destruct (successful_run_output_members pg17 cl sample_fs (main pg17 cl sample_fs).2 []
              ltac:(vm_compute; reflexivity) ltac:(reflexivity)
              ltac:(apply run_eta; vm_compute; reflexivity))
    as (o & pgdata_in & pgdata_out & file & out & Ho & Hin & Hout & Hf & Hf' & Hmem & _).
  assert (Eo : o = {| DataDirIn := Some ["in"%string]; DataDirOut := Some ["new"%string];
                      set_oid := 0; set_xid := 5000; set_mxid := 0; set_oldestmxid := 0;
                      set_mxoff := all_ones; set_oldest_commit_ts_xid := 0;
                      set_newest_commit_ts_xid := 0; set_oldest_xid := 0;
                      set_xid_epoch := 2; set_wal_segsize := 0; log_fname := None |}).
  { vm_compute in Ho. injection Ho as <-. reflexivity. }
  subst o. cbn in Hin, Hout. injection Hin as <-. injection Hout as <-.
  eexists _, file, out.
  split; [exact Ho|]. split; [exact Hf|]. split; [exact Hf'|].
  split.
  - rewrite (Hmem nextXid) by discriminate. reflexivity.
  - rewrite (Hmem nextOid) by discriminate. reflexivity.
Defined.

(** * The rest of the file system *)

Lemma unless_exists_create_keeps (n : Fs.node) (p q : list string) (k : Fs.node)
    (f f1 : gmap (list string) Fs.node) :
  unless_exists (Fs.create n p f) f = Some f1 -> f !! q = Some k -> f1 !! q = Some k.
Proof.
  intros H Hq. apply unless_exists_create in H. destruct H as [[_ ->]|[Hnone ->]].
  - exact Hq.
  - rewrite lookup_insert_ne; [exact Hq|].
    intros ->. destruct q as [|c q]; [discriminate|].
    cbn [Fs.node_at] in Hnone. congruence.
Qed.

Lemma make_datadir_keeps (pgdata_out q : list string) (k : Fs.node)
    (f : gmap (list string) Fs.node) :
  f !! q = Some k -> (make_datadir_out_if_not_exists pgdata_out f).2 !! q = Some k.
Proof.
  intros Hq. unfold make_datadir_out_if_not_exists, Fs.mkdir, Fs.open_excl_creat.
  destruct (unless_exists (Fs.create Fs.Dir pgdata_out f) f) as [g1|] eqn:H1; [|exact Hq].
  pose proof (unless_exists_create_keeps _ _ _ _ _ _ H1 Hq) as Hq1.
  destruct (unless_exists (Fs.create Fs.Dir (pgdata_out ++ ["global"%string]) g1) g1)
    as [g2|] eqn:H2; [|exact Hq1].
  pose proof (unless_exists_create_keeps _ _ _ _ _ _ H2 Hq1) as Hq2.
  destruct (unless_exists (Fs.create (Fs.File []) (pgdata_out ++ XLOG_CONTROL_FILE) g2) g2)
    as [g3|] eqn:H3; [|exact Hq2].
  exact (unless_exists_create_keeps _ _ _ _ _ _ H3 Hq2).
Qed.

(** X5.  A run, whatever its exit status, removes no node of the file
    system and changes no node other than the record file of the output
    directory: every other file, the input control file included when it is
    another file, keeps its content, and every directory stays a
    directory. *)
Theorem main_keeps_other_nodes (T : Target) (cl : command_line)
    (f : gmap (list string) Fs.node) (q : list string) (k : Fs.node) :
  f !! q = Some k ->
  (output_path T cl <> Some q -> (main T cl f).2 !! q = Some k)
  /\ is_Some ((main T cl f).2 !! q).
Proof.
  intros Hq.
  assert (Hsame : (output_path T cl <> Some q -> f !! q = Some k) /\ is_Some (f !! q)).
  { split; [intros _; exact Hq|rewrite Hq; eexists; reflexivity]. }
  unfold main. destruct (help cl); [exact Hsame|].
  destruct (getopt_loop T (options cl) no_options) as [o|e] eqn:Ho; [|exact Hsame].
  destruct (operands cl); [|exact Hsame].
  destruct (DataDirIn o) as [pgdata_in|]; [|exact Hsame].
  destruct (DataDirOut o) as [pgdata_out|] eqn:Hout; [|exact Hsame].
  destruct (Fs.read_file (pgdata_in ++ XLOG_CONTROL_FILE) f) as [e|file]; [exact Hsame|].
  destruct (read_controlfile T file (initial_globals T)) as [[ok g] w].
  destruct ok; cbn [negb]; [|exact Hsame].
  pose proof (make_datadir_keeps pgdata_out q k f Hq) as Hk.
  destruct (make_datadir_out_if_not_exists pgdata_out f) as [[e|] f1]; cbn [snd] in Hk.
  - cbn [snd]. split; [intros _; exact Hk|rewrite Hk; eexists; reflexivity].
  - destruct (update_controlfile T pgdata_out (override T o (ControlFile g)) f1) as [f2|] eqn:Hu;
      cbn [snd].
    + rewrite (update_controlfile_Some T _ _ _ _ Hu).
      rewrite (output_path_Some T cl o pgdata_out Ho Hout).
      split.
      * intros Hne. rewrite lookup_insert_ne by congruence. exact Hk.
      * destruct (decide (pgdata_out ++ XLOG_CONTROL_FILE = q)) as [<-|Hne].
        -- rewrite lookup_insert_eq. eexists; reflexivity.
        -- rewrite lookup_insert_ne by exact Hne. rewrite Hk. eexists; reflexivity.
    + split; [intros _; exact Hk|rewrite Hk; eexists; reflexivity].
Qed.

Lemma main_keeps_other_nodes_witness :
  sample_fs !! ["in"; "global"; "pg_control"]%string = Some (Fs.File (encode pg17 sample))
  /\ output_path pg17 sample_command_line <> Some ["in"; "global"; "pg_control"]%string
  /\ (main pg17 sample_command_line sample_fs).2 !! ["in"; "global"; "pg_control"]%string
     = Some (Fs.File (encode pg17 sample)).
Proof.
  assert (H : sample_fs !! ["in"; "global"; "pg_control"]%string
              = Some (Fs.File (encode pg17 sample))) by (vm_compute; reflexivity).
  assert (Hne : output_path pg17 sample_command_line
                <> Some ["in"; "global"; "pg_control"]%string) by (vm_compute; discriminate).
  split; [exact H|]. split; [exact Hne|].
  apply (main_keeps_other_nodes pg17 sample_command_line sample_fs _ _ H). exact Hne.
Defined.

(** After a creation whose [EEXIST] is ignored the name exists, names that
    existed still exist, and a second creation changes nothing. *)
Lemma unless_exists_create_exists (n : Fs.node) (p : list string)
    (f f1 : gmap (list string) Fs.node) :
  unless_exists (Fs.create n p f) f = Some f1 -> Fs.node_at f1 p <> None.
Proof.
  intros H. apply unless_exists_create in H. destruct H as [[Hs ->]|[_ ->]]; [exact Hs|].
  destruct p as [|c p]; [discriminate|].
  cbn [Fs.node_at]. rewrite lookup_insert_eq. discriminate.
Qed.

Lemma unless_exists_create_still (n : Fs.node) (p q : list string)
    (f f1 : gmap (list string) Fs.node) :
  unless_exists (Fs.create n p f) f = Some f1 ->
  Fs.node_at f q <> None -> Fs.node_at f1 q <> None.
Proof.
  intros H Hq. destruct q as [|c q]; [discriminate|]. cbn [Fs.node_at] in *.
  destruct (f !! (c :: q)) as [k|] eqn:E; [|congruence].
  rewrite (unless_exists_create_keeps _ _ _ _ _ _ H E). discriminate.
Qed.

Lemma unless_exists_create_again (n : Fs.node) (p : list string)
    (f : gmap (list string) Fs.node) :
  Fs.node_at f p <> None -> unless_exists (Fs.create n p f) f = Some f.
Proof.
  intros H. unfold unless_exists, Fs.create.
  destruct (Fs.node_at f p); [reflexivity|congruence].
Qed.

(** X6.  [make_datadir_out_if_not_exists] is idempotent: when it returns,
    the output directory, its [global] subdirectory and the record file
    exist, and running it again succeeds and changes nothing. *)
Theorem make_datadir_idempotent (pgdata_out : path) (f f1 : gmap (list string) Fs.node) :
  make_datadir_out_if_not_exists pgdata_out f = (None, f1) ->
  Fs.node_at f1 pgdata_out <> None
  /\ Fs.node_at f1 (pgdata_out ++ ["global"%string]) <> None
  /\ Fs.node_at f1 (pgdata_out ++ XLOG_CONTROL_FILE) <> None
  /\ make_datadir_out_if_not_exists pgdata_out f1 = (None, f1).
Proof.
  unfold make_datadir_out_if_not_exists at 1. unfold Fs.mkdir, Fs.open_excl_creat.
  destruct (unless_exists (Fs.create Fs.Dir pgdata_out f) f) as [g1|] eqn:H1; [|discriminate].
  destruct (unless_exists (Fs.create Fs.Dir (pgdata_out ++ ["global"%string]) g1) g1)
    as [g2|] eqn:H2; [|discriminate].
  destruct (unless_exists (Fs.create (Fs.File []) (pgdata_out ++ XLOG_CONTROL_FILE) g2) g2)
    as [g3|] eqn:H3; [|discriminate].
  intros H. injection H as <-.
  assert (E1 : Fs.node_at g3 pgdata_out <> None).
  { apply (unless_exists_create_still _ _ _ _ _ H3),
      (unless_exists_create_still _ _ _ _ _ H2),
      (unless_exists_create_exists _ _ _ _ H1). }
  assert (E2 : Fs.node_at g3 (pgdata_out ++ ["global"%string]) <> None).
  { apply (unless_exists_create_still _ _ _ _ _ H3),
      (unless_exists_create_exists _ _ _ _ H2). }
  assert (E3 : Fs.node_at g3 (pgdata_out ++ XLOG_CONTROL_FILE) <> None).
  { apply (unless_exists_create_exists _ _ _ _ H3). }
  repeat (split; [assumption|]).
  unfold make_datadir_out_if_not_exists, Fs.mkdir, Fs.open_excl_creat.
  rewrite !unless_exists_create_again by assumption. reflexivity.
Qed.

Lemma make_datadir_idempotent_witness :
  let f1 := (make_datadir_out_if_not_exists ["new"%string] sample_fs).2 in
  make_datadir_out_if_not_exists ["new"%string] sample_fs = (None, f1)
  /\ sample_fs !! ["new"%string] = None
  /\ f1 !! ["new"; "global"; "pg_control"]%string = Some (Fs.File [])
  /\ make_datadir_out_if_not_exists ["new"%string] f1 = (None, f1).
Proof.
  intros f1.
  assert (H : make_datadir_out_if_not_exists ["new"%string] sample_fs = (None, f1))
    by (apply make_eta; vm_compute; reflexivity).
  split; [exact H|]. split; [vm_compute; reflexivity|]. split; [vm_compute; reflexivity|].
  apply (make_datadir_idempotent ["new"%string] sample_fs f1 H).
Defined.

(** * More about reading *)

Lemma read_controlfile_take (T : Target) (file : list byte) (g : Globals) :
  target_ok T = true ->
  (sizeof_ControlFileData T <= length file)%nat ->
  read_controlfile T (take (sizeof_ControlFileData T) file) g = read_controlfile T file g.
Proof.
  intros T_ok Hlen. rewrite !(read_controlfile_unfold T T_ok).
  assert (Hc : checksum_ok T (take (sizeof_ControlFileData T) file) = checksum_ok T file).
  { unfold checksum_ok.
    rewrite (take_crc_take T T_ok), (get_take T T_ok) by lia. reflexivity. }
  rewrite Hc, !(get_take T T_ok) by lia.
  rewrite take_take, Nat.min_id, length_take, Nat.min_l by exact Hlen.
  rewrite Nat.leb_refl. apply Nat.leb_le in Hlen. rewrite Hlen. reflexivity.
Qed.

(** X7.  [read_controlfile] looks at the first [sizeof(ControlFileData)]
    bytes of the file only: two files that are long enough and agree on those
    bytes give the same result, the same variables and the same warnings.
    In particular the padding after the struct is ignored. *)
Theorem read_controlfile_prefix (T : Target) (file file' : list byte) (g : Globals) :
  target_ok T = true ->
  (sizeof_ControlFileData T <= length file)%nat ->
  take (sizeof_ControlFileData T) file' = take (sizeof_ControlFileData T) file ->
  read_controlfile T file' g = read_controlfile T file g.
Proof.
  intros T_ok Hlen Heq.
  assert (Hlen' : (sizeof_ControlFileData T <= length file')%nat).
  { apply (f_equal length) in Heq. rewrite !length_take in Heq. lia. }
  rewrite <- (read_controlfile_take T file' g T_ok Hlen').
  rewrite <- (read_controlfile_take T file g T_ok Hlen).
  rewrite Heq. reflexivity.
Qed.

Lemma read_controlfile_prefix_witness :
  let padded := encode pg17 sample ++ replicate (8 * 1024 - 296) x00 in
  (target_ok pg17 = true
   /\ (sizeof_ControlFileData pg17 <= length (encode pg17 sample))%nat
   /\ take (sizeof_ControlFileData pg17) padded
      = take (sizeof_ControlFileData pg17) (encode pg17 sample))
  /\ read_controlfile pg17 padded (initial_globals pg17)
     = read_controlfile pg17 (encode pg17 sample) (initial_globals pg17).
Proof.
  intros padded. split.
  - split; [vm_compute; reflexivity|]. split; [vm_compute; lia|vm_compute; reflexivity].
  - apply (read_controlfile_prefix pg17 (encode pg17 sample) padded).
    + vm_compute. reflexivity.
    + vm_compute. lia.
    + vm_compute. reflexivity.
Defined.

(** * More about the options *)

(** X8.  [--wal-segsize] accepts a number of megabytes exactly when it is
    one of the powers of two from 1 to 1024, and then sets the segment size
    to that many megabytes in bytes.  A number outside 1..1024 is refused as
    an invalid argument, a number inside that is not a power of two as an
    invalid segment size. *)
Theorem wal_segsize_option (T : Target) (n : Z) (o : Options) :
  match handle_option T (opt_wal_segsize (Some n)) o with
  | Ok o' =>
      (exists j, 0 <= j <= 10 /\ n = 2 ^ j)
      /\ set_wal_segsize o' = n * 2 ^ 20
      /\ IsValidWalSegSize (set_wal_segsize o') = true
  | Fatal e =>
      ~ (exists j, 0 <= j <= 10 /\ n = 2 ^ j)
      /\ e = (if (1 <=? n) && (n <=? 1024) then ErrInvalidSegmentSize
              else ErrInvalidArgument "--wal-segsize")
  end.
Proof.
  cbn [handle_option number bind].
  destruct ((1 <=? n) && (n <=? 1024)) eqn:Hr; cbn [negb].
  - apply andb_true_iff in Hr. destruct Hr as [H1 H2].
    apply Z.leb_le in H1. apply Z.leb_le in H2.
    destruct (IsValidWalSegSize (n * 1024 * 1024)) eqn:Hv; cbn [negb].
    + cbn [set_wal_segsize]. split; [|split; [lia|exact Hv]].
      apply IsValidWalSegSize_spec in Hv. destruct Hv as (k & Hk & Hn).
      exists (k - 20). split; [lia|].
      replace (2 ^ k) with (2 ^ (k - 20) * 2 ^ 20) in Hn
        by (rewrite <- Z.pow_add_r by lia; f_equal; lia).
      lia.
    + split; [|reflexivity]. intros (j & Hj & ->).
      assert (Hv' : IsValidWalSegSize (2 ^ j * 1024 * 1024) = true).
      { apply IsValidWalSegSize_spec. exists (j + 20). split; [lia|].
        rewrite Z.pow_add_r by lia. lia. }
      congruence.
  - split; [|reflexivity]. intros (j & Hj & ->).
    assert (1 <= 2 ^ j) by (apply (Z.pow_le_mono_r 2 0 j); lia).
    assert (2 ^ j <= 2 ^ 10) by (apply Z.pow_le_mono_r; lia).
    apply andb_false_iff in Hr. rewrite Z.leb_gt, Z.leb_gt in Hr. lia.
Qed.

Lemma strspn_hex_spec (s : string) (n : nat) :
  strspn s hex_digits = n
  <-> exists digits rest,
        s = String.append digits rest /\ String.length digits = n
        /\ all_hex digits = true /\ starts_with_hex rest = false.
Proof.
  split.
  - revert n. induction s as [|c s IH]; intros n H; cbn [strspn] in H.
    + exists EmptyString, EmptyString. subst n. repeat split.
    + destruct (strchr hex_digits c) eqn:Hc.
      * destruct n as [|n]; [discriminate|]. injection H as H.
        destruct (IH n H) as (digits & rest & -> & Hl & Hd & Hr).
        exists (String c digits), rest. cbn [String.length all_hex].
        rewrite Hc, Hd, Hl. repeat split. exact Hr.
      * exists EmptyString, (String c s). subst n. repeat split. exact Hc.
  - intros (digits & rest & -> & Hl & Hd & Hr). subst n.
    induction digits as [|c digits IH].
    + change (String.append EmptyString rest) with rest.
      destruct rest as [|c rest]; [reflexivity|].
      cbn [starts_with_hex] in Hr. cbn [strspn]. rewrite Hr. reflexivity.
    + change (String.append (String c digits) rest)
        with (String c (String.append digits rest)).
      cbn [all_hex] in Hd. apply andb_true_iff in Hd. destruct Hd as [Hc Hd].
      cbn [strspn String.length]. rewrite Hc, (IH Hd). reflexivity.
Qed.

(** X9.  [-l] accepts exactly the names that begin with [XLOG_FNAME_LEN]
    hexadecimal digits not followed by another hexadecimal digit, and
    stores the name as given; every other name is refused as an invalid
    argument.  An accepted name is never shorter than [XLOG_FNAME_LEN]. *)
Theorem wal_file_name_option (T : Target) (fname : string) (o : Options) :
  match handle_option T (opt_l fname) o with
  | Ok o' =>
      (exists digits rest,
         fname = String.append digits rest
         /\ String.length digits = XLOG_FNAME_LEN T
         /\ all_hex digits = true /\ starts_with_hex rest = false)
      /\ (XLOG_FNAME_LEN T <= String.length fname)%nat
      /\ log_fname o' = Some fname
  | Fatal e =>
      ~ (exists digits rest,
           fname = String.append digits rest
           /\ String.length digits = XLOG_FNAME_LEN T
           /\ all_hex digits = true /\ starts_with_hex rest = false)
      /\ e = ErrInvalidFormat
  end.
Proof.
  cbn [handle_option].
  destruct (Nat.eqb_spec (strspn fname hex_digits) (XLOG_FNAME_LEN T)) as [E|E]; cbn [negb].
  - split; [apply strspn_hex_spec; exact E|].
    split; [|reflexivity]. rewrite <- E. apply strspn_le_length.
  - split; [|reflexivity]. intros H. apply strspn_hex_spec in H. contradiction.
Qed.

(** X10.  The run reports the error of the first option that the switch
    refuses, whatever follows it on the command line, and stops there:
    nothing has been read, no warning logged, and the file system is as it
    was. *)
Theorem first_refused_option_decides (T : Target) (cl : command_line)
    (f : gmap (list string) Fs.node) (pre post : list arg) (a : arg) (o : Options) (e : error) :
  help cl = false ->
  options cl = pre ++ a :: post ->
  getopt_loop T pre no_options = Ok o ->
  handle_option T a o = Fatal e ->
  main T cl f = (Exit1 e, [], f).
Proof.
  intros Hh Hopts Hpre Ha. unfold main. rewrite Hh, Hopts.
  rewrite getopt_loop_app, Hpre. cbn [bind getopt_loop]. rewrite Ha. reflexivity.
Qed.

Lemma first_refused_option_decides_witness :
  let cl := {| help := false;
               options := [opt_D ["in"%string]; opt_o (Some (2 ^ 32)); opt_e (Some all_ones);
                           opt_unknown];
               operands := ["more"%string] |} in
  main pg17 cl sample_fs = (Exit1 ErrInvalidOid, [], sample_fs).
Proof.
  intros cl.
  eapply (first_refused_option_decides pg17 cl sample_fs
            [opt_D ["in"%string]] [opt_e (Some all_ones); opt_unknown] (opt_o (Some (2 ^ 32))));
    reflexivity.
Defined.

(** * A run without overrides *)








(** * Running the overrides again *)

(** Two windows with the same value have the same bytes. *)
Lemma load_eq_lookup be n off (a b : list byte) (i : nat) :
  (off + n <= length a)%nat -> (off + n <= length b)%nat ->
  Mem.load be n off a = Mem.load be n off b ->
  (off <= i < off + n)%nat -> a !! i = b !! i.
Proof.
  intros Ha Hb H Hi. unfold Mem.load in H.
  set (wa := take n (drop off a)) in *. set (wb := take n (drop off b)) in *.
  assert (Hla : length wa = n) by (unfold wa; rewrite length_take, length_drop; lia).
  assert (Hlb : length wb = n) by (unfold wb; rewrite length_take, length_drop; lia).
  assert (Hw : wa = wb).
  { rewrite <- (MemFacts.rev_if_be_involutive be wa), <- (MemFacts.rev_if_be_involutive be wb).
    f_equal.
    rewrite <- (MemFacts.encode_decode_int (Mem.rev_if_be be wa)).
    rewrite <- (MemFacts.encode_decode_int (Mem.rev_if_be be wb)).
    rewrite !MemFacts.length_rev_if_be, Hla, Hlb, H. reflexivity. }
  assert (Hx : forall x : list byte, x !! i = take n (drop off x) !! (i - off)%nat).
  { intros x. rewrite lookup_take_lt, lookup_drop by lia. f_equal. lia. }
  rewrite (Hx a), (Hx b). fold wa wb. rewrite Hw. reflexivity.
Qed.

Lemma outside_or_inside (T : Target) (ms : list member) (i : nat) :
  (forall m, In m ms -> outside T m i) \/ (exists m, In m ms /\ ~ outside T m i).
Proof.
  induction ms as [|m ms IH].
  - left. intros m [].
  - destruct (decide (i < offsetof T m \/ offsetof T m + sizeof_member m <= i)%nat) as [Ho|Hi].
    + destruct IH as [IH|(m' & Hm' & Hn)].
      * left. intros x [<-|Hx]; [exact Ho|apply IH, Hx].
      * right. exists m'. split; [right; exact Hm'|exact Hn].
    + right. exists m. split; [left; reflexivity|exact Hi].
Qed.

(** Two records are equal when they agree on the members [ms] and on the
    bytes outside them. *)
Lemma image_ext (T : Target) (ms : list member) (a b : list byte) :
  target_ok T = true ->
  length a = sizeof_ControlFileData T ->
  length b = sizeof_ControlFileData T ->
  (forall m, In m ms -> get T m a = get T m b) ->
  (forall i : nat, (forall m, In m ms -> outside T m i) -> a !! i = b !! i) ->
  a = b.
Proof.
  intros T_ok Ha Hb Hm Ho. apply list_eq. intros i.
  destruct (outside_or_inside T ms i) as [H|(m & Hin & Hn)]; [apply Ho, H|].
  pose proof (member_fits T T_ok m) as Hfit.
  apply (load_eq_lookup (big_endian T) (sizeof_member m) (offsetof T m)); try lia.
  - apply Hm, Hin.
  - unfold outside in Hn. lia.
Qed.

(** The expected values are a fixed point: computed from a record that
    already has them, they are the same. *)
Lemma expected_member_again (T : Target) (o : Options) (cf x : list byte) (m : member) :
  Options_ok T o ->
  (forall m', get T m' x = expected_member T o cf m') ->
  expected_member T o x m = expected_member T o cf m.
Proof.
  intros (Hoid & Hxid & Hmx & Hoff & _ & _ & Hou & Hep & Hseg & _) Hx.
  assert (Hxr : 0 <= set_xid o < 2 ^ 32) by (destruct Hxid as [->|[_ H]]; lia).
  assert (Hw : effective_WalSegSz T o x = effective_WalSegSz T o cf).
  { unfold effective_WalSegSz. rewrite (Hx xlog_seg_size). cbn [expected_member].
    unfold effective_WalSegSz. destruct (set_wal_segsize o =? 0); reflexivity. }
  assert (Ht : resolved_timeline T o x = resolved_timeline T o cf).
  { unfold resolved_timeline. rewrite Hw. reflexivity. }
  pose proof (Epoch_range (get T nextXid cf)) as He0.
  pose proof (Xid_range (get T nextXid cf)) as Hx0.
  destruct m; cbn [expected_member]; rewrite ?Ht, ?Hw, ?Hx; cbn [expected_member];
    try reflexivity.
  - assert (Hb : 0 <= (if set_xid o =? 0 then XidFromFullTransactionId (get T nextXid cf)
                       else set_xid o) < 2 ^ 32)
      by (destruct (set_xid o =? 0); assumption).
    assert (Ha : 0 <= (if set_xid_epoch o =? all_ones
                       then EpochFromFullTransactionId (get T nextXid cf)
                       else set_xid_epoch o) < 2 ^ 32)
      by (destruct (set_xid_epoch o =? all_ones); assumption).
    rewrite Epoch_of_Full, Xid_of_Full by assumption.
    destruct (set_xid_epoch o =? all_ones), (set_xid o =? 0); reflexivity.
  - destruct (set_oid o =? 0); reflexivity.
  - destruct (set_mxid o =? 0); reflexivity.
  - destruct (set_mxoff o =? all_ones); reflexivity.
  - destruct (set_oldest_xid o =? 0); reflexivity.
  - destruct (set_oldest_xid o =? 0); reflexivity.
  - destruct (set_mxid o =? 0); reflexivity.
  - destruct (set_mxid o =? 0); reflexivity.
  - lia.
  - destruct (Z.ltb_spec (get T ThisTimeLineID cf) (resolved_timeline T o cf));
      destruct (Z.ltb_spec (Z.max (get T ThisTimeLineID cf) (resolved_timeline T o cf))
                  (resolved_timeline T o cf)); try reflexivity; lia.
  - destruct (set_oldest_commit_ts_xid o =? 0); reflexivity.
  - destruct (set_newest_commit_ts_xid o =? 0); reflexivity.
Qed.

(** X12.  The override block is idempotent: applied with the same accepted
    options to a record it has already overridden, it gives that record
    back, byte for byte. *)
Theorem override_idempotent (T : Target) (o : Options) (cf : list byte) :
  target_ok T = true ->
  length cf = sizeof_ControlFileData T ->
  Options_ok T o ->
  override T o (override T o cf) = override T o cf.
Proof.
  intros T_ok Hlen Hok.
  assert (Hl1 : length (override T o cf) = sizeof_ControlFileData T)
    by (rewrite length_override; exact Hlen).
  apply (image_ext T assigned_members); try assumption.
  - rewrite length_override. exact Hl1.
  - intros m _. rewrite (override_expected T o _ m T_ok Hl1 Hok).
    rewrite (override_expected T o cf m T_ok Hlen Hok).
    apply expected_member_again; [exact Hok|].
    intros m'. apply (override_expected T o cf m' T_ok Hlen Hok).
  - apply (changes_override T o (override T o cf)).
Qed.

Lemma override_idempotent_witness :
  (target_ok pg17 = true /\ length sample = sizeof_ControlFileData pg17
   /\ getopt_loop pg17 [opt_x (Some 5000); opt_e (Some 2)] no_options = Ok sample_options)
  /\ override pg17 sample_options (override pg17 sample_options sample)
     = override pg17 sample_options sample.
Proof.
  split; [vm_compute; repeat split; reflexivity|].
  apply (override_idempotent pg17 sample_options sample).
  - vm_compute. reflexivity.
  - vm_compute. reflexivity.
  - apply (getopt_loop_preserves_ok pg17 [opt_x (Some 5000); opt_e (Some 2)] no_options).
    + apply Options_ok_no_options.
    + reflexivity.
Defined.

(** * What is in the record after the overrides *)

(** X13.  After the override block, for options that the option loop
    accepted: if [-m] was given, [oldestMulti] is at least
    [FirstMultiXactId] and [oldestMultiDB] is [InvalidOid]; if [-x] was
    given, the transaction id half of [nextXid] is a normal id; if [-u] was
    given, [oldestXid] is a normal id and [oldestXidDB] is [InvalidOid]; the
    commit timestamp ids that were given are normal ids; and a valid segment
    size stays a valid segment size. *)
Theorem override_invariants (T : Target) (o : Options) (cf : list byte) :
  target_ok T = true ->
  length cf = sizeof_ControlFileData T ->
  Options_ok T o ->
  let cf' := override T o cf in
  (set_mxid o <> 0 ->
   FirstMultiXactId T <= get T oldestMulti cf' /\ get T oldestMultiDB cf' = InvalidOid)
  /\ (set_xid o <> 0 ->
      TransactionIdIsNormal T (XidFromFullTransactionId (get T nextXid cf')) = true)
  /\ (set_oldest_xid o <> 0 ->
      TransactionIdIsNormal T (get T oldestXid cf') = true
      /\ get T oldestXidDB cf' = InvalidOid)
  /\ (set_oldest_commit_ts_xid o <> 0 ->
      TransactionIdIsNormal T (get T oldestCommitTsXid cf') = true)
  /\ (set_newest_commit_ts_xid o <> 0 ->
      TransactionIdIsNormal T (get T newestCommitTsXid cf') = true)
  /\ (IsValidWalSegSize (get T xlog_seg_size cf) = true ->
      IsValidWalSegSize (get T xlog_seg_size cf') = true).
Proof.
  intros T_ok Hlen Hok. cbn zeta.
  rewrite !(override_expected T o cf _ T_ok Hlen Hok). cbn [expected_member].
  destruct Hok as (Hoid & Hxid & Hmx & Hoff & [Hoc _] & [Hnc _] & Hou & Hep & Hseg & _).
  pose proof (FirstMultiXactId_range T T_ok) as HF.
  assert (Hzn : forall v, v <> 0 -> zero_or_normal T v = true ->
                          TransactionIdIsNormal T v = true).
  { intros v Hv H. unfold zero_or_normal, InvalidTransactionId in H.
    destruct (Z.eqb_spec v 0); [contradiction|exact H]. }
  split; [|split; [|split; [|split; [|split]]]].
  - intros H. destruct (Z.eqb_spec (set_mxid o) 0) as [|_]; [contradiction|].
    split; [|reflexivity].
    destruct Hmx as [[? _]|[_ Hb]]; [contradiction|].
    destruct (Z.ltb_spec (set_oldestmxid o) (FirstMultiXactId T)); lia.
  - intros H. destruct (Z.eqb_spec (set_xid o) 0) as [|_]; [contradiction|].
    destruct Hxid as [?|[Hn Hr]]; [contradiction|].
    rewrite Xid_of_Full by exact Hr. exact Hn.
  - intros H. destruct (Z.eqb_spec (set_oldest_xid o) 0) as [|_]; [contradiction|].
    destruct Hou as [?|[Hn _]]; [contradiction|]. split; [exact Hn|reflexivity].
  - intros H. destruct (Z.eqb_spec (set_oldest_commit_ts_xid o) 0) as [|_]; [contradiction|].
    apply Hzn; assumption.
  - intros H. destruct (Z.eqb_spec (set_newest_commit_ts_xid o) 0) as [|_]; [contradiction|].
    apply Hzn; assumption.
  - intros H. unfold effective_WalSegSz.
    destruct (Z.eqb_spec (set_wal_segsize o) 0) as [E|E]; [exact H|].
    destruct Hseg as [?|Hv]; [contradiction|exact Hv].
Qed.

Lemma override_invariants_witness :
  (target_ok pg17 = true /\ length sample = sizeof_ControlFileData pg17
   /\ getopt_loop pg17 [opt_x (Some 5000); opt_e (Some 2)] no_options = Ok sample_options
   /\ set_xid sample_options <> 0)
  /\ TransactionIdIsNormal pg17
       (XidFromFullTransactionId (get pg17 nextXid (override pg17 sample_options sample)))
     = true.
Proof.
  split.
  { split; [vm_compute; reflexivity|]. split; [vm_compute; reflexivity|].
    split; [reflexivity|]. cbn. lia. }
  assert (Hok : Options_ok pg17 sample_options).
  { apply (getopt_loop_preserves_ok pg17 [opt_x (Some 5000); opt_e (Some 2)] no_options).
    - apply Options_ok_no_options.
    - reflexivity. }
  destruct (override_invariants pg17 sample_options sample
              ltac:(vm_compute; reflexivity) ltac:(vm_compute; reflexivity) Hok)
    as (_ & Hx & _).
  apply Hx. cbn. lia.
Defined.


(** * The order of the options *)

Ltac case_options :=
  repeat match goal with
         | |- context [number _ ?v] => destruct v; cbn [number bind]
         | |- context [if ?c then _ else _] =>
             match type of c with bool => destruct c; cbn [bind] end
         end.

(** Two options handled by different cases of the switch assign different
    variables, and whether a case refuses its option does not depend on the
    variables. *)
Lemma handle_option_swap (T : Target) (a b : arg) (o : Options) :
  option_case a <> option_case b ->
  match (o1 <- handle_option T a o ;; handle_option T b o1),
        (o1 <- handle_option T b o ;; handle_option T a o1) with
  | Ok x, Ok y => x = y
  | Fatal _, Fatal _ => True
  | _, _ => False
  end.
Proof.
  intros Hne.
  destruct a, b; try (exfalso; apply Hne; reflexivity);
    cbn [handle_option bind]; case_options; cbn [handle_option bind];
    case_options; cbn; trivial.
Qed.

Lemma getopt_loop_swap (T : Target) (pre post : list arg) (a b : arg) (o : Options) :
  option_case a <> option_case b ->
  match getopt_loop T (pre ++ a :: b :: post) o,
        getopt_loop T (pre ++ b :: a :: post) o with
  | Ok x, Ok y => x = y
  | Fatal _, Fatal _ => True
  | _, _ => False
  end.
Proof.
  intros Hne. rewrite !getopt_loop_app.
  destruct (getopt_loop T pre o) as [o1|e]; cbn [bind]; [|exact I].
  cbn [getopt_loop].
  pose proof (handle_option_swap T a b o1 Hne) as H.
  destruct (handle_option T a o1) as [oa|ea], (handle_option T b o1) as [ob|eb];
    cbn [bind] in *.
  - destruct (handle_option T b oa) as [x|ex], (handle_option T a ob) as [y|ey];
      cbn [bind]; try contradiction; [|exact I].
    subst y. destruct (getopt_loop T post x); [reflexivity|exact I].
  - destruct (handle_option T b oa) as [x|ex]; cbn [bind]; [contradiction|exact I].
  - destruct (handle_option T a ob) as [y|ey]; cbn [bind]; [contradiction|exact I].
  - exact I.
Qed.

(** X14.  Two neighbouring options handled by different cases of the switch
    can be exchanged on the command line: the run is the same, exit status,
    warnings and file system, except that when an option is refused the
    error reported may be that of another refused option, and then both
    runs stop before anything is read or written. *)
Theorem neighbouring_options_exchange (T : Target) (cl cl' : command_line)
    (pre post : list arg) (a b : arg) (f : gmap (list string) Fs.node) :
  option_case a <> option_case b ->
  help cl' = help cl ->
  operands cl' = operands cl ->
  options cl = pre ++ a :: b :: post ->
  options cl' = pre ++ b :: a :: post ->
  main T cl' f = main T cl f
  \/ (exists e e', main T cl f = (Exit1 e, [], f) /\ main T cl' f = (Exit1 e', [], f)).
Proof.
  intros Hne Hh Hop Ho Ho'. unfold main. rewrite Hh, Hop, Ho, Ho'.
  destruct (help cl); [left; reflexivity|].
  pose proof (getopt_loop_swap T pre post a b no_options Hne) as H.
  destruct (getopt_loop T (pre ++ a :: b :: post) no_options) as [x|e],
           (getopt_loop T (pre ++ b :: a :: post) no_options) as [y|e'];
    try contradiction.
  - subst y. left. reflexivity.
  - right. exists e, e'. split; reflexivity.
Qed.

Lemma neighbouring_options_exchange_witness :
  let cl := {| help := false;
               options := [opt_D ["in"%string]; opt_d ["new"%string];
                           opt_x (Some 5000); opt_e (Some 2)];
               operands := [] |} in
  let cl' := {| help := false;
                options := [opt_D ["in"%string]; opt_d ["new"%string];
                            opt_e (Some 2); opt_x (Some 5000)];
                operands := [] |} in
  (main pg17 cl sample_fs).1 = (Exit0, [])
  /\ main pg17 cl' sample_fs = main pg17 cl sample_fs.
Proof.
  intros cl cl'.
  assert (H0 : (main pg17 cl sample_fs).1 = (Exit0, [])) by (vm_compute; reflexivity).
  split; [exact H0|].
  destruct (neighbouring_options_exchange pg17 cl cl'
              [opt_D ["in"%string]; opt_d ["new"%string]] [] (opt_x (Some 5000)) (opt_e (Some 2))
              sample_fs ltac:(cbn; lia) eq_refl eq_refl eq_refl eq_refl)
    as [H|(e & e' & H & _)]; [exact H|].
  apply (f_equal (fun r => r.1.1)) in H. apply (f_equal fst) in H0.
  cbn [fst] in H, H0. congruence.
Defined.

(** * A run into an existing data directory *)

Lemma removelast_control_file (dir : path) :
  Fs.parent (dir ++ XLOG_CONTROL_FILE) = dir ++ ["global"%string].
Proof.
  unfold Fs.parent, XLOG_CONTROL_FILE.
  change ["global"%string; "pg_control"%string]
    with (["global"%string] ++ ["pg_control"%string]).
  rewrite app_assoc. apply removelast_last.
Qed.

(** X15.  The intended use.  When the command line is accepted and names
    both directories, the input control file is one that [read_controlfile]
    accepts, and the output directory and its [global] subdirectory exist,
    with the record file missing or a file: the run exits with status 0, and
    the file system afterwards is the file system before with the encoded,
    overridden record as the record file of the output directory, and
    nothing else changed. *)
Theorem run_into_existing_directory (T : Target) (cl : command_line) (o : Options)
    (pgdata_in pgdata_out : path) (file : list byte) (f : gmap (list string) Fs.node) :
  target_ok T = true ->
  help cl = false ->
  getopt_loop T (options cl) no_options = Ok o ->
  operands cl = [] ->
  DataDirIn o = Some pgdata_in ->
  DataDirOut o = Some pgdata_out ->
  f !! (pgdata_in ++ XLOG_CONTROL_FILE) = Some (Fs.File file) ->
  (read_controlfile T file (initial_globals T)).1.1 = true ->
  Fs.node_at f pgdata_out = Some Fs.Dir ->
  f !! (pgdata_out ++ ["global"%string]) = Some Fs.Dir ->
  (f !! (pgdata_out ++ XLOG_CONTROL_FILE) = None
   \/ exists old, f !! (pgdata_out ++ XLOG_CONTROL_FILE) = Some (Fs.File old)) ->
  (main T cl f).1.1 = Exit0
  /\ (main T cl f).2
     = <[pgdata_out ++ XLOG_CONTROL_FILE
         := Fs.File (encode T (override T o (take (sizeof_ControlFileData T) file)))]> f.
Proof.
  intros T_ok Hh Ho Hop Hin Hout Hf Hok Hd Hg Hp.
  unfold main. rewrite Hh, Ho, Hop, Hin, Hout.
  unfold Fs.read_file. rewrite node_at_lookup by apply control_file_path_not_nil.
  rewrite Hf.
  destruct (read_controlfile T file (initial_globals T)) as [[ok g] w] eqn:Hrc.
  cbn [fst] in Hok. subst ok. cbn [negb].
  destruct (read_controlfile_accepted T T_ok file _ g w Hrc) as (Hcf & _).
  assert (Hmk : make_datadir_out_if_not_exists pgdata_out f
                = (None, match f !! (pgdata_out ++ XLOG_CONTROL_FILE) with
                         | Some _ => f
                         | None => <[pgdata_out ++ XLOG_CONTROL_FILE := Fs.File []]> f
                         end)).
  { unfold make_datadir_out_if_not_exists, Fs.mkdir, Fs.open_excl_creat.
    rewrite (unless_exists_create_again Fs.Dir pgdata_out f) by congruence.
    rewrite (unless_exists_create_again Fs.Dir (pgdata_out ++ ["global"%string]) f).
    2:{ rewrite node_at_lookup, Hg; [discriminate|].
        intros E. apply (f_equal length) in E. rewrite length_app in E. simpl in E. lia. }
    unfold unless_exists, Fs.create.
    rewrite node_at_lookup by apply control_file_path_not_nil.
    destruct (f !! (pgdata_out ++ XLOG_CONTROL_FILE)) as [k|]; [reflexivity|].
    rewrite removelast_control_file, node_at_lookup, Hg; [reflexivity|].
    intros E. apply (f_equal length) in E. rewrite length_app in E. simpl in E. lia. }
  rewrite Hmk. unfold update_controlfile, Fs.write_file.
  rewrite node_at_lookup by apply control_file_path_not_nil.
  rewrite Hcf.
  destruct Hp as [Hnone|[old Hold]].
  - rewrite Hnone, lookup_insert_eq. cbn [fst snd]. split; [reflexivity|].
    apply insert_insert_eq.
  - rewrite Hold, Hold. cbn [fst snd]. split; reflexivity.
Qed.

Lemma run_into_existing_directory_witness :
  (main pg17 sample_command_line sample_fs).1.1 = Exit0
  /\ (main pg17 sample_command_line sample_fs).2
     = <[ ["out"; "global"; "pg_control"]%string
          := Fs.File (encode pg17 (override pg17
                        {| DataDirIn := Some ["in"%string]; DataDirOut := Some ["out"%string];
                           set_oid := 0; set_xid := 0; set_mxid := 0; set_oldestmxid := 0;
                           set_mxoff := all_ones; set_oldest_commit_ts_xid := 0;
                           set_newest_commit_ts_xid := 0; set_oldest_xid := 0;
                           set_xid_epoch := all_ones; set_wal_segsize := 0;
                           log_fname := None |}
                        (take (sizeof_ControlFileData pg17) (encode pg17 sample))))]> sample_fs.
Proof.
  apply (run_into_existing_directory pg17 sample_command_line _
           ["in"%string] ["out"%string] (encode pg17 sample) sample_fs).
  - vm_compute. reflexivity.
  - reflexivity.
  - reflexivity.
  - reflexivity.
  - reflexivity.
  - reflexivity.
  - vm_compute. reflexivity.
  - vm_compute. reflexivity.
  - vm_compute. reflexivity.
  - vm_compute. reflexivity.
  - right. exists old_content. vm_compute. reflexivity.
Defined.


(** * Warnings and refused input *)

(** X16.  A run with exit status 0 has logged the warning about the
    checksum when the stored checksum of the control file it read is not the
    checksum of its bytes, and has logged nothing when it is. *)
Theorem successful_run_warnings (T : Target) (cl : command_line)
    (f f' : gmap (list string) Fs.node) (w : list warning) :
  target_ok T = true ->
  help cl = false ->
  main T cl f = (Exit0, w, f') ->
  exists o pgdata_in file,
    getopt_loop T (options cl) no_options = Ok o
    /\ DataDirIn o = Some pgdata_in
    /\ f !! (pgdata_in ++ XLOG_CONTROL_FILE) = Some (Fs.File file)
    /\ w = (if checksum_ok T file then [] else [WarnInvalidCrc]).
Proof.
  intros T_ok Hh Hm.
  destruct (main_success_inv T cl f w f' Hh Hm)
    as (o & pgdata_in & pgdata_out & file & g & f1 & Ho & _ & Hin & _ & Hr & Hrc & _).
  exists o, pgdata_in, file.
  split; [exact Ho|]. split; [exact Hin|].
  split; [apply read_file_inr; [apply control_file_path_not_nil|exact Hr]|].
  rewrite (read_controlfile_unfold T T_ok) in Hrc.
  destruct ((sizeof_ControlFileData T <=? length file)%nat
            && (get T pg_control_version file =? PG_CONTROL_VERSION T)); [|discriminate].
  cbn zeta in Hrc.
  destruct (IsValidWalSegSize (get T xlog_seg_size file)); [|discriminate].
  injection Hrc as _ <-. reflexivity.
Qed.

Lemma successful_run_warnings_witness :
  (target_ok pg17 = true /\ help sample_command_line = false
   /\ checksum_ok pg17 sample = false)
  /\ (main pg17 sample_command_line sample_fs_stale).1 = (Exit0, [WarnInvalidCrc]).
Proof.
  split; [vm_compute; repeat split; reflexivity|].
  assert (H : main pg17 sample_command_line sample_fs_stale
              = (Exit0, [WarnInvalidCrc],
                 (main pg17 sample_command_line sample_fs_stale).2))
    by (apply run_eta; vm_compute; reflexivity).
  destruct (successful_run_warnings pg17 sample_command_line sample_fs_stale _ _
              ltac:(vm_compute; reflexivity) eq_refl H)
    as (o & pgdata_in & file & _ & _ & _ & Hw).
  vm_compute. reflexivity.
Defined.

(** X17.  When the input control file cannot be used, the run exits with
    status 1 and the file system is as it was; not even the output directory
    has been created.  That is so when the file is missing or is a
    directory, and when it is shorter than the struct, has another version,
    or has an invalid segment size. *)
Theorem unusable_control_file_writes_nothing (T : Target) (cl : command_line) (o : Options)
    (pgdata_in pgdata_out : path) (f : gmap (list string) Fs.node) :
  target_ok T = true ->
  help cl = false ->
  getopt_loop T (options cl) no_options = Ok o ->
  operands cl = [] ->
  DataDirIn o = Some pgdata_in ->
  DataDirOut o = Some pgdata_out ->
  match f !! (pgdata_in ++ XLOG_CONTROL_FILE) with
  | Some (Fs.File file) =>
      (length file < sizeof_ControlFileData T)%nat
      \/ get T pg_control_version file <> PG_CONTROL_VERSION T
      \/ IsValidWalSegSize (get T xlog_seg_size file) = false
  | _ => True
  end ->
  exists e, (main T cl f).1.1 = Exit1 e
            /\ (e = ErrCannotOpenControlFile \/ e = ErrCannotReadControlFile)
            /\ (main T cl f).2 = f.
Proof.
  intros T_ok Hh Ho Hop Hin Hout Hbad.
  unfold main. rewrite Hh, Ho, Hop, Hin, Hout.
  unfold Fs.read_file. rewrite node_at_lookup by apply control_file_path_not_nil.
  destruct (f !! (pgdata_in ++ XLOG_CONTROL_FILE)) as [[|file]|].
  - exists ErrCannotOpenControlFile. cbn. auto.
  - rewrite (read_controlfile_unfold T T_ok).
    destruct (Nat.leb_spec (sizeof_ControlFileData T) (length file)) as [Hlen|Hlen];
      destruct (Z.eqb_spec (get T pg_control_version file) (PG_CONTROL_VERSION T)) as [Hv|Hv];
      cbn [andb]; cbn zeta;
      try (exists ErrCannotReadControlFile; cbn; auto; fail).
    destruct (IsValidWalSegSize (get T xlog_seg_size file)) eqn:Hs;
      [|exists ErrCannotReadControlFile; cbn; auto].
    destruct Hbad as [H|[H|H]]; [lia|contradiction|discriminate].
  - exists ErrCannotOpenControlFile. cbn. auto.
Qed.

Lemma unusable_control_file_writes_nothing_witness :
  let cl := {| help := false;
               options := [opt_D ["out"%string]; opt_d ["new"%string]];
               operands := [] |} in
  sample_fs !! ["out"; "global"; "pg_control"]%string = Some (Fs.File old_content)
  /\ (length old_content < sizeof_ControlFileData pg17)%nat
  /\ exists e, (main pg17 cl sample_fs).1.1 = Exit1 e /\ (main pg17 cl sample_fs).2 = sample_fs.
Proof.
  intros cl.
  split; [vm_compute; reflexivity|]. split; [vm_compute; lia|].
  destruct (unusable_control_file_writes_nothing pg17 cl _ ["out"%string] ["new"%string]
              sample_fs ltac:(vm_compute; reflexivity) eq_refl eq_refl eq_refl eq_refl eq_refl)
    as (e & He & _ & Hf).
  - assert (E : sample_fs !! (["out"%string] ++ XLOG_CONTROL_FILE)
                = Some (Fs.File old_content)) by (vm_compute; reflexivity).
    rewrite E. left. vm_compute. lia.
  - exists e. split; assumption.
Defined.

(** * Numbers larger than 32 bits *)

Lemma u32_add_multiple (n k : Z) : u32 (n + k * 2 ^ 32) = u32 n.
Proof. unfold u32. apply Z.mod_add. lia. Qed.

(** X18.  The numeric options keep the low 32 bits of the number that
    [strtoul] returns, and check and store only those: two numbers that
    differ by a multiple of 2^32 are handled alike, refused with the same
    error or accepted with the same variables.  So [-o 4294967296] is
    refused as a zero OID, and [-x 4294967301] sets the transaction id 5. *)
Theorem option_values_modulo_2_32 (T : Target) (o : Options) (n n' k k' : Z) :
  handle_option T (opt_o (Some (n + k * 2 ^ 32))) o = handle_option T (opt_o (Some n)) o
  /\ handle_option T (opt_x (Some (n + k * 2 ^ 32))) o = handle_option T (opt_x (Some n)) o
  /\ handle_option T (opt_m (Some (n + k * 2 ^ 32)) (Some (n' + k' * 2 ^ 32))) o
     = handle_option T (opt_m (Some n) (Some n')) o
  /\ handle_option T (opt_O (Some (n + k * 2 ^ 32))) o = handle_option T (opt_O (Some n)) o
  /\ handle_option T (opt_c (Some (n + k * 2 ^ 32)) (Some (n' + k' * 2 ^ 32))) o
     = handle_option T (opt_c (Some n) (Some n')) o
  /\ handle_option T (opt_e (Some (n + k * 2 ^ 32))) o = handle_option T (opt_e (Some n)) o
  /\ handle_option T (opt_u (Some (n + k * 2 ^ 32))) o = handle_option T (opt_u (Some n)) o
  /\ handle_option T (opt_o (Some (2 ^ 32))) o = Fatal ErrInvalidOid.
Proof.
  assert (H0 : u32 (2 ^ 32) = 0) by reflexivity.
  repeat split; cbn [handle_option number bind];
    rewrite ?u32_add_multiple, ?H0; reflexivity.
Qed.
